(** * Time-frequency engine of mne-python: a shallow embedding

    The development follows [mne/time_frequency/tfr.py] and
    [mne/time_frequency/_stockwell.py].  Python integers are [Z] (or [nat]
    for array extents), Python floats are idealised as real numbers, complex
    floats as pairs of reals, numpy arrays as (nested) lists together with
    their extents, raised exceptions as the [Raise] case of [result], and a
    generator as the finite trace of the values it yields followed by the
    way it stops. *)

From Stdlib Require Import Reals Lra Lia ZArith List Bool String.
From stdpp Require Import base gmap.
Import ListNotations.

Open Scope R_scope.

(** ** Python exceptions and the exception monad *)

Inductive exn : Type :=
| ValueError (msg : string)
| TypeError (msg : string)
| AssertionError
| IndexError
| OverflowError
| ZeroDivisionError.

Inductive result (A : Type) : Type :=
| Ok (a : A)
| Raise (e : exn).
Arguments Ok {A} a.
Arguments Raise {A} e.

Definition bind {A B} (r : result A) (k : A -> result B) : result B :=
  match r with
  | Ok a => k a
  | Raise e => Raise e
  end.

Notation "'do' x <- r ; k" := (bind r (fun x => k))
  (at level 10, x name, r at level 100, k at level 200).
Notation "'do' ' p <- r ; k" := (bind r (fun p => k))
  (at level 10, p pattern, r at level 100, k at level 200).

Definition raises_ValueError {A} (r : result A) : Prop :=
  exists msg, r = Raise (ValueError msg).

(** [list(f(t) for t in tasks)]: the tasks run in order, the first
    exception aborts the rest. *)
Fixpoint mapM {A B} (f : A -> result B) (l : list A) : result (list B) :=
  match l with
  | [] => Ok []
  | a :: l' => do b <- f a; do bs <- mapM f l'; Ok (b :: bs)
  end.

(** ** Generators

    A generator function runs nothing until it is consumed; consuming it to
    the end sees the values it yields, in order, and then either the end of
    the iteration or an exception. *)

Record trace (A : Type) : Type := Trace {
  yielded : list A;
  stopped : option exn
}.
Arguments Trace {A} yielded stopped.
Arguments yielded {A} t.
Arguments stopped {A} t.

(** A generator whose prologue raised before the first [yield]. *)
Definition gen_raise {A} (e : exn) : trace A := Trace [] (Some e).

(** One iteration per element of [l]; each iteration ends in a [yield] or
    in an exception. *)
Fixpoint gen_for {A B} (body : A -> result B) (l : list A) : trace B :=
  match l with
  | [] => Trace [] None
  | a :: l' =>
      match body a with
      | Ok b => let t := gen_for body l' in Trace (b :: yielded t) (stopped t)
      | Raise e => Trace [] (Some e)
      end
  end.

(** [for v in g: acc = step(acc, v)] followed by the rest of the caller. *)
Definition consume {A S} (g : trace A) (step : S -> A -> result S) (init : S)
  : result S :=
  do acc <- fold_left (fun r v => do s <- r; step s v) (yielded g) (Ok init);
  match stopped g with
  | None => Ok acc
  | Some e => Raise e
  end.

(** ** Python integers, slices and indexing *)

Definition bool_to_Z (b : bool) : Z := if b then 1%Z else 0%Z.

(** [a // b] and [a % b] on Python integers. *)
Definition floordiv (a b : Z) : result Z :=
  if (b =? 0)%Z then Raise ZeroDivisionError else Ok (a / b)%Z.
Definition pymod (a b : Z) : result Z :=
  if (b =? 0)%Z then Raise ZeroDivisionError else Ok (a mod b)%Z.

(** [n // decim + bool(n % decim)] *)
Definition decim_len (n decim : Z) : result Z :=
  do q <- floordiv n decim;
  do r <- pymod n decim;
  Ok (q + bool_to_Z (negb (r =? 0)%Z))%Z.

(** Bound adjustment of a slice ([PySlice_AdjustIndices]). *)
Definition adjust_index (len step i : Z) : Z :=
  if (i <? 0)%Z then
    let i' := (i + len)%Z in
    if (i' <? 0)%Z then (if (step <? 0)%Z then (-1)%Z else 0%Z) else i'
  else if (len <=? i)%Z then (if (step <? 0)%Z then (len - 1)%Z else len)
  else i.

Definition slice_count (start stop step : Z) : Z :=
  if (step <? 0)%Z then
    (if (stop <? start)%Z then (start - stop - 1) / (- step) + 1 else 0)%Z
  else
    (if (start <? stop)%Z then (stop - start - 1) / step + 1 else 0)%Z.

(** [l[start:stop:step]]; an omitted bound is [None]. *)
Definition py_slice {A} (d : A) (l : list A) (start stop : option Z) (step : Z)
  : result (list A) :=
  if (step =? 0)%Z then Raise (ValueError "slice step cannot be zero")
  else
    let len := Z.of_nat (length l) in
    let s := match start with
             | Some i => adjust_index len step i
             | None => if (step <? 0)%Z then (len - 1)%Z else 0%Z
             end in
    let e := match stop with
             | Some i => adjust_index len step i
             | None => if (step <? 0)%Z then (-1)%Z else len
             end in
    let n := Z.to_nat (slice_count s e step) in
    Ok (map (fun i => nth (Z.to_nat (s + Z.of_nat i * step)) l d) (seq 0 n)).

(** [l[start:stop]] *)
Definition py_slice1 {A} (l : list A) (start stop : Z) : list A :=
  let len := Z.of_nat (length l) in
  let s := adjust_index len 1 start in
  let e := adjust_index len 1 stop in
  firstn (Z.to_nat (e - s)) (skipn (Z.to_nat s) l).

(** [dst[...] = src] on one axis: numpy copies equal extents, repeats a
    single value, and refuses anything else. *)
Definition assign_row {A} (width : nat) (src : list A) : result (list A) :=
  if (length src =? width)%nat then Ok src
  else match src with
       | [v] => Ok (repeat v width)
       | _ => Raise (ValueError "could not broadcast input array")
       end.

(** [np.empty(shape)] / [np.zeros(shape)] refuse a negative extent. *)
Definition check_extent (n : Z) : result nat :=
  if (n <? 0)%Z then Raise (ValueError "negative dimensions are not allowed")
  else Ok (Z.to_nat n).

(** ** Complex numbers *)

Record C : Type := mkC { Re : R; Im : R }.

Definition C0 : C := mkC 0 0.
Definition RtoC (x : R) : C := mkC x 0.
Definition Cadd (a b : C) : C := mkC (Re a + Re b) (Im a + Im b).
Definition Csub (a b : C) : C := mkC (Re a - Re b) (Im a - Im b).
Definition Cmul (a b : C) : C :=
  mkC (Re a * Re b - Im a * Im b) (Re a * Im b + Im a * Re b).
Definition Cconj (a : C) : C := mkC (Re a) (- Im a).
Definition Cscale (r : R) (a : C) : C := mkC (r * Re a) (r * Im a).
Definition Cdivr (a : C) (r : R) : C := mkC (Re a / r) (Im a / r).
Definition Cabs (a : C) : R := sqrt (Re a * Re a + Im a * Im a).
(** [np.exp(1j * theta)] *)
Definition cis (theta : R) : C := mkC (cos theta) (sin theta).

Definition Rsum (l : list R) : R := fold_right Rplus 0 l.
Definition Csum (l : list C) : C := fold_right Cadd C0 l.
(** [np.mean] of a one-dimensional array *)
Definition Rmean (l : list R) : R := Rsum l / INR (length l).
Definition Cmean (l : list C) : C := Cdivr (Csum l) (INR (length l)).
(** [linalg.norm] of a flattened complex array *)
Definition norm2 (l : list C) : R :=
  sqrt (Rsum (map (fun z => Re z * Re z + Im z * Im z) l)).

(** ** One-dimensional numpy and scipy routines *)

(** [np.arange(0., stop, step)] for a positive step: [ceil(stop / step)]
    samples [0, step, 2 step, ...]. *)
Definition arange0 (stop step : R) : list R :=
  map (fun k => INR k * step) (seq 0 (Z.to_nat (Zceil (stop / step)))).

(** Zero padding or truncation to [n] samples, as the [shape] argument of
    [fftn] does. *)
Definition pad_to (n : nat) (x : list C) : list C :=
  firstn n x ++ repeat C0 (n - length x).

Definition dft (sign : R) (x : list C) : list C :=
  let n := length x in
  map (fun k =>
         Csum (map (fun j =>
                      Cmul (nth j x C0)
                           (cis (sign * 2 * PI * INR j * INR k / INR n)))
                   (seq 0 n)))
      (seq 0 n).

Definition fft (x : list C) : list C := dft (-1) x.
Definition ifft (x : list C) : list C :=
  map (fun z => Cdivr z (INR (length x))) (dft 1 x).
(** [fftn(x, [n])] on a one-dimensional array *)
Definition fftn (x : list C) (n : nat) : list C := fft (pad_to n x).

(** [fftpack.fftfreq(n, d)]: the bins [0, 1, ..., (n-1)//2, -(n//2), ..., -1]
    scaled by [1 / (n d)]. *)
Definition fftfreq_bins (n : nat) : list Z :=
  map Z.of_nat (seq 0 ((n - 1) / 2 + 1))
  ++ map (fun i => (Z.of_nat i - Z.of_nat (n / 2))%Z) (seq 0 (n / 2)).

Definition fftfreq (n : nat) (d : R) : result (list R) :=
  match n with
  | O => Raise ZeroDivisionError
  | _ => Ok (map (fun k => IZR k * (1 / (INR n * d))) (fftfreq_bins n))
  end.

(** Full discrete convolution of a real signal with a complex kernel. *)
Definition conv_full (x : list R) (w : list C) : list C :=
  map (fun n =>
         Csum (map (fun m => if (m <=? n)%nat
                             then Cscale (nth m x 0) (nth (n - m) w C0)
                             else C0)
                   (seq 0 (length x))))
      (seq 0 (length x + length w - 1)).

Inductive conv_mode : Type := Full | Same | Valid.

(** [np.convolve(x, w, mode)]: empty operands are refused; [same] keeps the
    [max] central samples, [valid] the fully overlapping ones. *)
Definition np_convolve (x : list R) (w : list C) (mode : conv_mode)
  : result (list C) :=
  match x, w with
  | [], _ => Raise (ValueError "a cannot be empty")
  | _, [] => Raise (ValueError "v cannot be empty")
  | _, _ =>
      let n1 := Nat.max (length x) (length w) in
      let n2 := Nat.min (length x) (length w) in
      let full := conv_full x w in
      Ok (match mode with
          | Full => full
          | Same => firstn n1 (skipn ((n2 - 1) / 2) full)
          | Valid => firstn (n1 - n2 + 1) (skipn (n2 - 1) full)
          end)
  end.

(** Index of the first minimum ([ndarray.argmin]). *)
Fixpoint argmin_from (best : nat) (bv : R) (i : nat) (l : list R) : nat :=
  match l with
  | [] => best
  | v :: l' => if Rlt_dec v bv then argmin_from i v (S i) l'
               else argmin_from best bv (S i) l'
  end.

Definition argmin (l : list R) : result nat :=
  match l with
  | [] => Raise (ValueError "attempt to get argmin of an empty sequence")
  | v :: l' => Ok (argmin_from 0 v 1 l')
  end.

Definition Rmax_list (l : list R) : result R :=
  match l with
  | [] => Raise (ValueError "zero-size array to reduction operation maximum")
  | v :: l' => Ok (fold_left Rmax l' v)
  end.

(** ** Arrays with their extents *)

Record array2 (T : Type) : Type := Arr2 {
  nrows : nat;
  ncols : nat;
  rows : list (list T)
}.
Arguments Arr2 {T} nrows ncols rows.
Arguments nrows {T} a.
Arguments ncols {T} a.
Arguments rows {T} a.

(** A real array indexed (epoch, channel, time) or (channel, frequency,
    time). *)
Record array3 : Type := Arr3 {
  shape3 : nat * nat * nat;
  cells3 : list (list (list R))
}.

Definition dim0 (a : array3) : nat := fst (fst (shape3 a)).
Definition dim1 (a : array3) : nat := snd (fst (shape3 a)).
Definition dim2 (a : array3) : nat := snd (shape3 a).

Definition wf_array2 {T} (a : array2 T) : Prop :=
  length (rows a) = nrows a /\ Forall (fun r => length r = ncols a) (rows a).

Definition wf_array3 (a : array3) : Prop :=
  length (cells3 a) = dim0 a /\
  Forall (fun m => length m = dim1 a /\
                   Forall (fun r => length r = dim2 a) m) (cells3 a).

(** [data[:, c, :]] *)
Definition channel_slice (data : array3) (c : nat) : array2 R :=
  Arr2 (dim0 data) (dim2 data) (map (fun epoch => nth c epoch []) (cells3 data)).

(** [a[:, j]] *)
Definition column {T} (d : T) (rs : list (list T)) (j : nat) : list T :=
  map (fun r => nth j r d) rs.

(** Extent of the result of an elementwise operation on one axis. *)
Definition broadcast_extent (a b : nat) : result nat :=
  if (a =? b)%nat then Ok a
  else if (a =? 1)%nat then Ok b
  else if (b =? 1)%nat then Ok a
  else Raise (ValueError "operands could not be broadcast together").

(** Elementwise operation of two one-dimensional arrays whose extents
    broadcast. *)
Definition map2_bcast {A B D} (f : A -> B -> D) (a : list A) (b : list B)
  : list D :=
  match a, b with
  | [u], _ :: _ :: _ => map (f u) b
  | _ :: _ :: _, [v] => map (fun x => f x v) a
  | _, _ => zip_with f a b
  end.

(** [dst[i] = src] for a two-dimensional slot of extents [r] by [c]. *)
Definition assign_block {T} (r c : nat) (src : array2 T) : result (array2 T) :=
  if ((nrows src =? r) && (ncols src =? c))%nat then Ok src
  else Raise (ValueError "could not broadcast input array").

(** ** The pool of workers

    [mne.parallel.parallel_func] and the joblib pool behind it live outside
    these files: the pool is a parameter. *)

Definition pool_t : Type :=
  forall A B : Type, Z -> (A -> result B) -> list A -> result (list B).

(** Modelled from the spec: [parallel_func], which is not part of these
    files.  A worker count of 1 runs the tasks strictly sequentially, in
    submission order ([parallel = list]); any other count hands them to the
    pool. *)
Definition parallel_func (pool : pool_t) {A B : Type} (n_jobs : Z)
  (func : A -> result B) (tasks : list A) : result (list B) :=
  if (n_jobs =? 1)%Z then mapM func tasks else pool A B n_jobs func tasks.

(** * [_stockwell.py] *)

Module Stockwell.

(** [lambda n: not (n > 0 and ((n & (n - 1))))] *)
Definition _is_power_of_two (n : Z) : bool :=
  negb ((0 <? n)%Z && negb (Z.land n (n - 1) =? 0)%Z).

(** [2 ** int(math.ceil(math.log(n_times, 2)))]; the logarithm is taken
    exactly, as the one in floating point is on the powers of two below
    [2 ** 29]. *)
Definition next_power_of_two (n_times : Z) : result Z :=
  if (n_times <=? 0)%Z then Raise (ValueError "math domain error")
  else Ok (2 ^ Z.log2_up n_times)%Z.

(** [np.concatenate((x_in, pad_array), axis=-1)] *)
Definition zero_pad_last (x_in : array3) (zero_pad : nat) : array3 :=
  Arr3 (dim0 x_in, dim1 x_in, (dim2 x_in + zero_pad)%nat)
       (map (map (fun r => r ++ repeat 0 zero_pad)) (cells3 x_in)).

(** The function returns its triple from inside [if n_times < n_fft]; on
    the other path it reaches its end, which in Python returns the value
    [None]: that is the inner [option]. *)
Definition _check_input_st (x_in : array3) (n_fft : option Z)
  : result (option (array3 * Z * Z)) :=
  let n_times := Z.of_nat (dim2 x_in) in
  do n_fft' <-
     match n_fft with
     | None => next_power_of_two n_times
     | Some n =>
         if negb (_is_power_of_two n) && (n <? n_times)%Z
         then next_power_of_two n_times
         else if (n <? n_times)%Z
              then Raise (ValueError "n_fft cannot be smaller than signal size.")
              else Ok n
     end;
  if (n_times <? n_fft')%Z then
    let zero_pad := (n_fft' - n_times)%Z in
    Ok (Some (zero_pad_last x_in (Z.to_nat zero_pad), n_fft', zero_pad))
  else Ok None.

Definition _precompute_st_windows (n_samp : nat) (start_f stop_f : nat)
  (sfreq width : R) : result (list (list C)) :=
  do fr <- fftfreq n_samp (1 / sfreq);
  let tw := map (fun v => v / INR n_samp) fr in
  let tw := firstn 1 tw ++ rev (skipn 1 tw) in
  let k := width in
  let f_range := seq start_f (stop_f - start_f) in
  Ok (map (fun f =>
             let window :=
               match f with
               | O => map (fun _ => 1) tw
               | _ => map (fun t =>
                             (INR f / (sqrt (2 * PI) * k)) *
                             exp (- (1 / 2) * (1 / (k * k)) * (INR f * INR f)
                                  * (t * t))) tw
               end in
             let s := Rsum window in
             fft (map (fun v => RtoC (v / s)) window))
          f_range).

(** One frequency bin of [_st_power_itc]: the rows of [TFR] for all epochs,
    then the pair of the power row and the coherence row. *)
Definition st_bin (XX : list (list C)) (n_samp : nat) (zero_pad decim : Z)
  (compute_itc : bool) (f : nat) (window : list C)
  : result (list R * option (list R)) :=
  do width <- broadcast_extent
                (length (py_slice1 (repeat C0 (2 * n_samp))
                                   (Z.of_nat f) (Z.of_nat (f + n_samp))))
                (length window);
  let ST := map (fun xx =>
                   ifft (map2_bcast Cmul
                           (py_slice1 xx (Z.of_nat f) (Z.of_nat (f + n_samp)))
                           window)) XX in
  do n_tfr <- py_slice 0%nat (seq 0 width) None (Some (- zero_pad)%Z) decim;
  do TFR <- mapM (fun st => py_slice C0 st None (Some (- zero_pad)%Z) decim) ST;
  let TFR_abs := map (map Cabs) TFR in
  let cols := seq 0 (length n_tfr) in
  let itc_row :=
    if compute_itc then
      let unit := map (fun r => map (fun z => Cdivr z (Cabs z)) r) TFR in
      Some (map (fun j => Cabs (Cmean (column C0 unit j))) cols)
    else None in
  let sq := map (map (fun a => a * a)) TFR_abs in
  Ok (map (fun j => Rmean (column 0 sq j)) cols, itc_row).

Definition _st_power_itc (x : array2 R) (start_f : nat) (compute_itc : bool)
  (zero_pad decim : Z) (W : list (list C))
  : result (array2 R * option (array2 R)) :=
  let n_samp := ncols x in
  do n_out <- decim_len (Z.of_nat n_samp - zero_pad) decim;
  do n_out <- check_extent n_out;
  let X := map (fun r => fft (map RtoC r)) (rows x) in
  let XX := map (fun r => r ++ r) X in
  do bins <- mapM (fun '(i_f, window) =>
                     do '(p, i) <- st_bin XX n_samp zero_pad decim compute_itc
                                          (start_f + i_f) window;
                     do p' <- assign_row n_out p;
                     do i' <- match i with
                              | Some v => do v' <- assign_row n_out v; Ok (Some v')
                              | None => Ok None
                              end;
                     Ok (p', i'))
                  (combine (seq 0 (length W)) W);
  let psd := Arr2 (length W) n_out (map fst bins) in
  let itc := if compute_itc
             then Some (Arr2 (length W) n_out
                             (map (fun b => match snd b with
                                            | Some v => v
                                            | None => []
                                            end) bins))
             else None in
  Ok (psd, itc).

(** [freqs[freqs > 0][0]] *)
Definition first_positive (freqs : list R) : result R :=
  match List.filter (fun f => if Rlt_dec 0 f then true else false) freqs with
  | v :: _ => Ok v
  | [] => Raise IndexError
  end.

Definition _induced_power_stockwell (pool : pool_t) (data : array3) (sfreq : R)
  (fmin fmax : option R) (n_fft : option Z) (width : R) (decim : Z)
  (return_itc : bool) (n_jobs : Z)
  : result (list (array2 R) * option (list (array2 R)) * list R) :=
  let n_channels := dim1 data in
  do n_out <- decim_len (Z.of_nat (dim2 data)) decim;
  do checked <- _check_input_st data n_fft;
  match checked with
  | None => Raise (TypeError "'NoneType' object is not iterable")
  | Some (data, n_fft_, zero_pad) =>
      do freqs <- fftfreq (Z.to_nat n_fft_) (1 / sfreq);
      do fmin <- match fmin with
                 | Some v => Ok v
                 | None => first_positive freqs
                 end;
      do fmax <- match fmax with
                 | Some v => Ok v
                 | None => Rmax_list freqs
                 end;
      do start_f <- argmin (map (fun f => Rabs (f - fmin)) freqs);
      do stop_f <- argmin (map (fun f => Rabs (f - fmax)) freqs);
      let freqs := py_slice1 freqs (Z.of_nat start_f) (Z.of_nat stop_f) in
      do W <- _precompute_st_windows (dim2 data) start_f stop_f sfreq width;
      do n_freq <- check_extent (Z.of_nat stop_f - Z.of_nat start_f);
      do n_out <- check_extent n_out;
      do tfrs <- parallel_func pool n_jobs
                   (fun c => _st_power_itc (channel_slice data c) start_f
                                           return_itc zero_pad decim W)
                   (seq 0 n_channels);
      do psd <- mapM (fun t => assign_block n_freq n_out (fst t)) tfrs;
      do itc <- (if return_itc
                 then do l <- mapM (fun t => match snd t with
                                             | Some a => assign_block n_freq n_out a
                                             | None => Ok (Arr2 n_freq n_out [])
                                             end) tfrs;
                      Ok (Some l)
                 else Ok None);
      Ok (psd, itc, freqs)
  end.

(** [_st] on a batch of trials: the transform of every trial, one array
    (window, time) per trial. *)
Definition _st (x : array2 R) (start_f : nat) (windows : list (list C))
  : result (list (array2 C)) :=
  let n_samp := ncols x in
  let Fx := map (fun r => fft (map RtoC r)) (rows x) in
  let XF := map (fun r => r ++ r) Fx in
  do per_window <-
     mapM (fun '(i_f, window) =>
             let f := (start_f + i_f)%nat in
             do _ <- broadcast_extent
                       (length (py_slice1 (repeat C0 (2 * n_samp))
                                          (Z.of_nat f) (Z.of_nat (f + n_samp))))
                       (length window);
             mapM (fun xx =>
                     assign_row n_samp
                       (ifft (map2_bcast Cmul
                                (py_slice1 xx (Z.of_nat f) (Z.of_nat (f + n_samp)))
                                window)))
                  XF)
          (combine (seq 0 (length windows)) windows);
  Ok (map (fun k => Arr2 (length windows) n_samp
                         (map (fun per_trial => nth k per_trial []) per_window))
          (seq 0 (length (rows x)))).

End Stockwell.

(** ** Two-dimensional helpers *)

Definition map2d {T U} (f : T -> U) (a : array2 T) : array2 U :=
  Arr2 (nrows a) (ncols a) (map (map f) (rows a)).

Definition zeros2 {T} (z : T) (r c : nat) : array2 T :=
  Arr2 r c (repeat (repeat z c) r).

Definition get2 {T} (d : T) (a : array2 T) (i j : nat) : T :=
  nth j (nth i (rows a) []) d.

(** [a[:, ::decim]] *)
Definition decimate {T} (d : T) (decim : Z) (a : array2 T) : result (array2 T) :=
  do ix <- py_slice 0%nat (seq 0 (ncols a)) None None decim;
  do rs <- mapM (fun r => py_slice d r None None decim) (rows a);
  Ok (Arr2 (nrows a) (length ix) rs).

(** An in-place operation [dst op= src] keeps the extents of [dst]; an
    extent of [src] must be equal to it or be 1. *)
Definition inplace_ok (dst src : nat) : bool :=
  ((src =? dst) || (src =? 1))%nat.

Definition bzip {T U} (f : T -> U -> T) (dst : list T) (src : list U) : list T :=
  match src with
  | [v] => map (fun x => f x v) dst
  | _ => zip_with f dst src
  end.

Definition iop2 {T U} (f : T -> U -> T) (dst : array2 T) (src : array2 U)
  : result (array2 T) :=
  if inplace_ok (nrows dst) (nrows src) && inplace_ok (ncols dst) (ncols src)
  then Ok (Arr2 (nrows dst) (ncols dst) (bzip (bzip f) (rows dst) (rows src)))
  else Raise (ValueError "non-broadcastable output operand").

(** [row[start:stop] = src] *)
Definition assign_slice {T} (row : list T) (start stop : Z) (src : list T)
  : result (list T) :=
  let len := Z.of_nat (length row) in
  let s := Z.to_nat (adjust_index len 1 start) in
  let e := Z.to_nat (adjust_index len 1 stop) in
  do v <- assign_row (e - s) src;
  Ok (firstn s row ++ v ++ skipn (s + (e - s)) row).

(** * [tfr.py] *)

Module Tfr.

(** ** Wavelet builders *)

(** [W /= sqrt(0.5) * linalg.norm(W.ravel())] *)
Definition normalize (W : list C) : list C :=
  map (fun z => Cdivr z (sqrt (1 / 2) * norm2 W)) W.

(** [n_cycles[k]] when one count per frequency was given, [n_cycles[0]]
    otherwise; [n_cycles] is the array [np.atleast_1d] made of the
    argument. *)
Definition this_n_cycles (n_cycles : list R) (k : nat) : R :=
  if negb (length n_cycles =? 1)%nat then nth k n_cycles 0 else nth 0 n_cycles 0.

(** The kernel of [morlet] before its normalisation, for a sampling rate
    and a [sigma] or frequency that are not zero: the divisions are those
    of the real numbers. *)
Definition morlet_raw (sfreq f cycles : R) (sigma : option R)
  (zero_mean : bool) : list C :=
  let sigma_t := match sigma with
                 | None => cycles / (2 * PI * f)
                 | Some s => cycles / (2 * PI * s)
                 end in
  let t := arange0 (5 * sigma_t) (1 / sfreq) in
  let t := map Ropp (rev t) ++ skipn 1 t in
  let real_offset := exp (- 2 * (PI * f * sigma_t) ^ 2) in
  map (fun ti =>
         let oscillation := cis (2 * PI * f * ti) in
         let oscillation := if zero_mean
                            then Csub oscillation (RtoC real_offset)
                            else oscillation in
         let gaussian_enveloppe := exp (- ti ^ 2 / (2 * sigma_t ^ 2)) in
         Cscale gaussian_enveloppe oscillation) t.

Definition morlet (sfreq : R) (freqs : list R) (n_cycles : list R)
  (sigma : option R) (zero_mean : bool) (Fs : option R)
  : result (list (list C)) :=
  let sfreq := match Fs with Some v => v | None => sfreq end in
  if negb (length n_cycles =? 1)%nat
     && negb (length n_cycles =? length freqs)%nat
  then Raise (ValueError "n_cycles should be fixed or defined for each frequency.")
  else Ok (map (fun '(k, f) =>
                  normalize (morlet_raw sfreq f (this_n_cycles n_cycles k)
                                        sigma zero_mean))
               (combine (seq 0 (length freqs)) freqs)).

(** [dpss_windows(N, half_nbw, Kmax)] of [multitaper.py] is not part of
    these files: it is a parameter that returns the tapers (or raises). *)
Definition dpss_t : Type := nat -> R -> nat -> result (list (list R)).

(** The kernel of taper [m] and frequency [f] before its normalisation.
    [1.0 / sfreq], an argument of [np.arange], is a division of Python
    floats and raises at a sampling rate of zero; at a frequency of zero
    [this_n_cycles / float(f)] is a numpy division, whose result is infinite
    (or not a number), and [np.arange] refuses such a bound. *)
Definition dpss_raw (dpss_windows : dpss_t) (sfreq f cycles time_bandwidth : R)
  (n_taps m : nat) (zero_mean : bool) : result (list C) :=
  if Req_dec_T sfreq 0 then Raise ZeroDivisionError
  else if Req_dec_T f 0 then Raise (ValueError "Maximum allowed size exceeded")
  else
  let t_win := cycles / f in
  let t := arange0 t_win (1 / sfreq) in
  let oscillation := map (fun ti => cis (2 * PI * f * (ti - t_win / 2))) t in
  do tapers <- dpss_windows (length t) (time_bandwidth / 2) n_taps;
  do taper <- match nth_error tapers m with
              | Some v => Ok v
              | None => Raise IndexError
              end;
  do _ <- broadcast_extent (length oscillation) (length taper);
  let Wk := map2_bcast (fun z a => Cscale a z) oscillation taper in
  Ok (if zero_mean
      then let real_offset := Cmean Wk in map (fun z => Csub z real_offset) Wk
      else Wk).

Definition _dpss_wavelet (dpss_windows : dpss_t) (sfreq : R) (freqs : list R)
  (n_cycles : list R) (time_bandwidth : R) (zero_mean : bool)
  : result (list (list (list C))) :=
  if Rlt_dec time_bandwidth 2
  then Raise (ValueError "time_bandwidth should be >= 2.0 for good tapers")
  else
    let n_taps := Z.to_nat (Zfloor (time_bandwidth - 1)) in
    if negb (length n_cycles =? 1)%nat
       && negb (length n_cycles =? length freqs)%nat
    then Raise (ValueError "n_cycles should be fixed or defined for each frequency.")
    else
      mapM (fun m =>
              mapM (fun '(k, f) =>
                      do Wk <- dpss_raw dpss_windows sfreq f
                                        (this_n_cycles n_cycles k)
                                        time_bandwidth n_taps m zero_mean;
                      Ok (normalize Wk))
                   (combine (seq 0 (length freqs)) freqs))
           (seq 0 n_taps).

(** ** Convolution engines *)

(** [_centered(arr, newsize)] on a one-dimensional array *)
Definition _centered {T} (arr : list T) (newsize : Z) : list T :=
  let currsize := Z.of_nat (length arr) in
  let startind := ((currsize - newsize) / 2)%Z in
  let endind := (startind + newsize)%Z in
  py_slice1 arr startind endind.

(** [2 ** int(np.ceil(np.log2(size)))]: the logarithm of 0 is minus
    infinity and that of a negative number is not a number, neither converts
    to an integer. *)
Definition fft_size (size : Z) : result nat :=
  if (size =? 0)%Z then Raise OverflowError
  else if (size <? 0)%Z then Raise (ValueError "cannot convert float NaN to integer")
  else Ok (Z.to_nat (2 ^ Z.log2_up size)).

(** [max(W.size for W in Ws)] *)
Definition max_size (Ws : list (list C)) : result nat :=
  match Ws with
  | [] => Raise (ValueError "max() arg is an empty sequence")
  | W :: Ws' => Ok (fold_left Nat.max (map (@length C) Ws') (length W))
  end.

(** One row of the output for kernel [W], written into a row of zeros of
    extent [width]; [ret] is the convolution truncated to
    [n_times + W.size - 1] samples.  [(n_times - sz) / 2] is the integer
    division of Python 2. *)
Definition place_row (mode : conv_mode) (n_times width : nat) (wsize : nat)
  (crop : bool) (ret : list C) : result (list C) :=
  match mode with
  | Valid =>
      let sz := (Z.abs (Z.of_nat wsize - Z.of_nat n_times) + 1)%Z in
      let offset := ((Z.of_nat n_times - sz) / 2)%Z in
      assign_slice (repeat C0 width) offset (offset + sz)
                   (if crop then _centered ret sz else ret)
  | _ =>
      assign_row width (if crop then _centered ret (Z.of_nat n_times) else ret)
  end.

Definition _cwt_fft (X : array2 R) (Ws : list (list C)) (mode : conv_mode)
  : trace (array2 C) :=
  let n_times := ncols X in
  let n_freqs := length Ws in
  match
    (do Ws_max_size <- max_size Ws;
     let size := (Z.of_nat n_times + Z.of_nat Ws_max_size - 1)%Z in
     do fsize <- fft_size size;
     do fft_Ws <- mapM (fun W =>
                          if (n_times <? length W)%nat
                          then Raise (ValueError "Wavelet is too long for such a short signal. Reduce the number of cycles.")
                          else Ok (fftn W fsize)) Ws;
     Ok (fsize, fft_Ws))
  with
  | Raise e => gen_raise e
  | Ok (fsize, fft_Ws) =>
      gen_for (fun x =>
                 let width := match mode with Full => fsize | _ => n_times end in
                 let fft_x := fftn (map RtoC x) fsize in
                 do tfr <- mapM (fun '(W, fft_W) =>
                                   let ret :=
                                     py_slice1 (ifft (zip_with Cmul fft_x fft_W)) 0
                                       (Z.of_nat n_times + Z.of_nat (length W) - 1) in
                                   place_row mode n_times width (length W) true ret)
                                (combine Ws fft_Ws);
                 Ok (Arr2 n_freqs width tfr))
              (rows X)
  end.

Definition _cwt_convolve (X : array2 R) (Ws : list (list C)) (mode : conv_mode)
  : trace (array2 C) :=
  let n_times := ncols X in
  let n_freqs := length Ws in
  gen_for (fun x =>
             do tfr <- mapM (fun W =>
                               do ret <- np_convolve x W mode;
                               if (length x <? length W)%nat
                               then Raise (ValueError "Wavelet is too long for such a short signal. Reduce the number of cycles.")
                               else place_row mode n_times n_times (length W) false ret)
                            Ws;
             Ok (Arr2 n_freqs n_times tfr))
          (rows X).

Definition cwt (X : array2 R) (Ws : list (list C)) (use_fft : bool)
  (mode : conv_mode) (decim : Z) : result (list (array2 C)) :=
  do Xd <- decimate 0 decim X;
  let n_times := ncols Xd in
  let n_frequencies := length Ws in
  let coefs := if use_fft then _cwt_fft X Ws mode else _cwt_convolve X Ws mode in
  consume coefs
          (fun tfrs tfr =>
             do t <- decimate C0 decim tfr;
             do t <- assign_block n_frequencies n_times t;
             Ok (tfrs ++ [t]))
          [].

(** ** Reduction over trials *)

Definition _time_frequency (X : array2 R) (Ws : list (list C)) (use_fft : bool)
  (decim : Z) : result (array2 R * array2 R) :=
  let n_epochs := nrows X in
  do n_times <- decim_len (Z.of_nat (ncols X)) decim;
  let n_frequencies := length Ws in
  do n_times <- check_extent n_times;
  let psd := zeros2 0 n_frequencies n_times in
  let plf := zeros2 C0 n_frequencies n_times in
  let tfrs := if use_fft then _cwt_fft X Ws Same else _cwt_convolve X Ws Same in
  do acc <- consume tfrs
              (fun acc tfr =>
                 do tfr <- decimate C0 decim tfr;
                 let tfr_abs := map2d Cabs tfr in
                 do psd <- iop2 Rplus (fst acc) (map2d (fun a => a ^ 2) tfr_abs);
                 (* [tfr / tfr_abs], with [tfr_abs] the magnitudes of [tfr] *)
                 do plf <- iop2 Cadd (snd acc) (map2d (fun z => Cdivr z (Cabs z)) tfr);
                 Ok (psd, plf))
              (psd, plf);
  Ok (map2d (fun v => v / INR n_epochs) (fst acc),
      map2d (fun z => Cabs z / INR n_epochs) (snd acc)).

(** ** Orchestration over epochs, channels and tapers *)

(** [data[:, :, ::decim].shape[2]] *)
Definition decimated_extent (n_times : nat) (decim : Z) : result nat :=
  do ix <- py_slice 0%nat (seq 0 n_times) None None decim;
  Ok (length ix).

(** The epochs of [data], as [for e in data] sees them. *)
Definition epochs_of (data : array3) : list (array2 R) :=
  map (fun m => Arr2 (dim1 data) (dim2 data) m) (cells3 data).

(** [(x * x.conj()).real] *)
Definition power_of (x : list (array2 C)) : list (array2 R) :=
  map (map2d (fun z => Re (Cmul z (Cconj z)))) x.

Section SingleTrialPower.

(** [mne.baseline.rescale] is not part of these files; neither are the
    types of its [baseline] and [mode] arguments. *)
Variables Baseline Mode : Type.
Variable rescale :
  list (list (array2 R)) -> option (list R) -> Baseline -> Mode ->
  result (list (list (array2 R))).

Definition single_trial_power (pool : pool_t) (data : array3) (sfreq : R)
  (frequencies : list R) (use_fft : bool) (n_cycles : list R)
  (baseline : Baseline) (baseline_mode : Mode) (times : option (list R))
  (decim : Z) (n_jobs : Z) (zero_mean : bool) (Fs : option R)
  : result (list (list (array2 R))) :=
  let sfreq := match Fs with Some v => v | None => sfreq end in
  let mode := Same in
  do n_times <- decimated_extent (dim2 data) decim;
  do Ws <- morlet sfreq frequencies n_cycles None zero_mean None;
  do power <-
     (if (n_jobs =? 1)%Z then
        mapM (fun e => do x <- cwt e Ws use_fft mode decim; Ok (power_of x))
             (epochs_of data)
      else
        do tfrs <- parallel_func pool n_jobs
                     (fun e => cwt e Ws use_fft mode decim) (epochs_of data);
        Ok (map power_of tfrs));
  do times <- match times with
              | Some t => do t' <- py_slice 0 t None None decim; Ok (Some t')
              | None => Ok None
              end;
  rescale power times baseline baseline_mode.

End SingleTrialPower.

Definition _induced_power_cwt (pool : pool_t) (data : array3) (sfreq : R)
  (frequencies : list R) (use_fft : bool) (n_cycles : list R) (decim : Z)
  (n_jobs : Z) (zero_mean : bool)
  : result (list (array2 R) * list (array2 R)) :=
  let n_frequencies := length frequencies in
  let n_channels := dim1 data in
  do n_times <- decimated_extent (dim2 data) decim;
  do Ws <- morlet sfreq frequencies n_cycles None zero_mean None;
  do psd_plf <- parallel_func pool n_jobs
                  (fun c => _time_frequency (channel_slice data c) Ws use_fft decim)
                  (seq 0 n_channels);
  do slots <- mapM (fun '(psd_c, plf_c) =>
                      do p <- assign_block n_frequencies n_times psd_c;
                      do q <- assign_block n_frequencies n_times plf_c;
                      Ok (p, q))
                   psd_plf;
  Ok (map fst slots, map snd slots).

Definition _induced_power_mtm (pool : pool_t) (dpss_windows : dpss_t)
  (data : array3) (sfreq : R) (frequencies : list R) (time_bandwidth : R)
  (use_fft : bool) (n_cycles : list R) (decim : Z) (n_jobs : Z)
  (zero_mean : bool)
  : result (list (array2 R) * list (array2 R)) :=
  let n_channels := dim1 data in
  do n_times <- decimated_extent (dim2 data) decim;
  let n_frequencies := length frequencies in
  do Ws <- _dpss_wavelet dpss_windows sfreq frequencies n_cycles
                         time_bandwidth zero_mean;
  let n_taps := length Ws in
  (* [Ws[0][0].shape[0]] *)
  do _ <- match Ws with
          | (_ :: _) :: _ => Ok tt
          | _ => Raise IndexError
          end;
  let zeros := repeat (zeros2 0 n_frequencies n_times) n_channels in
  do acc <- fold_left
              (fun r Wm =>
                 do acc <- r;
                 do psd_itc <- parallel_func pool n_jobs
                                 (fun c => _time_frequency (channel_slice data c)
                                                           Wm use_fft decim)
                                 (seq 0 n_channels);
                 do psd <- mapM (fun '(a, t) => iop2 Rplus a (fst t))
                                (combine (fst acc) psd_itc);
                 do itc <- mapM (fun '(a, t) => iop2 Rplus a (snd t))
                                (combine (snd acc) psd_itc);
                 Ok (psd, itc))
              Ws (Ok (zeros, zeros));
  Ok (map (map2d (fun v => v / INR n_taps)) (fst acc),
      map (map2d (fun v => v / INR n_taps)) (snd acc)).

(** ** The result container *)

(** The measurement info, as far as the container looks into it:
    [info['chs']]. *)
Record Info : Type := mkInfo { chs : list string }.

(** An [AverageTFR] object.  Its [data] attribute refers to an array that
    lives in the store and may be shared or updated in place. *)
Record AverageTFR : Type := mkTFR {
  info : Info;
  data : positive;
  times : list R;
  freqs : list R;
  nave : Z;
  comment : option string;
  method : option string
}.

Definition Req_bool (x y : R) : bool := if Req_dec_T x y then true else false.

(** [np.all(a == b)] on one-dimensional arrays: the comparison broadcasts;
    on extents that do not broadcast it is plainly false. *)
Definition np_all_eq (a b : list R) : bool :=
  match broadcast_extent (length a) (length b) with
  | Ok _ => forallb (fun x => x) (map2_bcast Req_bool a b)
  | Raise _ => false
  end.

Definition iop3 (f : R -> R -> R) (dst src : array3) : result array3 :=
  if inplace_ok (dim0 dst) (dim0 src) && inplace_ok (dim1 dst) (dim1 src)
     && inplace_ok (dim2 dst) (dim2 src)
  then Ok (Arr3 (shape3 dst) (bzip (bzip (bzip f)) (cells3 dst) (cells3 src)))
  else Raise (ValueError "non-broadcastable output operand").

(** Methods run on the store of arrays. *)
Definition M (A : Type) : Type := gmap positive array3 -> result (A * gmap positive array3).

(** The array behind a reference; a reference held by an object is always
    allocated. *)
Definition deref (h : gmap positive array3) (l : positive) : array3 :=
  default (Arr3 (0, 0, 0)%nat []) (h !! l).

Definition __init__ (info : Info) (data : positive) (times freqs : list R)
  (nave : Z) (comment method : option string) : M AverageTFR :=
  fun h =>
    let a := deref h data in
    if negb (dim0 a =? length (chs info))%nat
    then Raise (ValueError "Number of channels and data size don't match")
    else if negb (dim1 a =? length freqs)%nat
    then Raise (ValueError "Number of frequencies and data size don't match")
    else if negb (dim2 a =? length times)%nat
    then Raise (ValueError "Number of times and data size don't match")
    else Ok (mkTFR info data times freqs nave comment method, h).

Definition _check_compat (self tfr : AverageTFR) : result unit :=
  if negb (np_all_eq (times tfr) (times self)) then Raise AssertionError
  else if negb (np_all_eq (freqs tfr) (freqs self)) then Raise AssertionError
  else Ok tt.

(** [deepcopy(self)]: a new object on a new array. *)
Definition copy (self : AverageTFR) : M AverageTFR :=
  fun h =>
    let l := fresh (dom h) in
    Ok (mkTFR (info self) l (times self) (freqs self) (nave self)
              (comment self) (method self),
        <[l := deref h (data self)]> h).

(** [obj.data op= tfr.data] *)
Definition data_iop (f : R -> R -> R) (obj tfr : AverageTFR) : M unit :=
  fun h =>
    do a <- iop3 f (deref h (data obj)) (deref h (data tfr));
    Ok (tt, <[data obj := a]> h).

Definition __add__ (self tfr : AverageTFR) : M AverageTFR :=
  fun h =>
    do _ <- _check_compat self tfr;
    do '(out, h) <- copy self h;
    do '(_, h) <- data_iop Rplus out tfr h;
    Ok (out, h).

Definition __iadd__ (self tfr : AverageTFR) : M AverageTFR :=
  fun h =>
    do _ <- _check_compat self tfr;
    do '(_, h) <- data_iop Rplus self tfr h;
    Ok (self, h).

Definition __sub__ (self tfr : AverageTFR) : M AverageTFR :=
  fun h =>
    do _ <- _check_compat self tfr;
    do '(out, h) <- copy self h;
    do '(_, h) <- data_iop Rminus out tfr h;
    Ok (out, h).

Definition __isub__ (self tfr : AverageTFR) : M AverageTFR :=
  fun h =>
    do _ <- _check_compat self tfr;
    do '(_, h) <- data_iop Rminus self tfr h;
    Ok (self, h).

(** ** [cwt_morlet] *)

Definition cwt_morlet (X : array2 R) (sfreq : R) (freqs : list R)
  (use_fft : bool) (n_cycles : list R) (zero_mean : bool) (Fs : option R)
  : result (list (array2 C)) :=
  let sfreq := match Fs with Some v => v | None => sfreq end in
  let mode := Same in
  let n_times := ncols X in
  let n_frequencies := length freqs in
  do Ws <- morlet sfreq freqs n_cycles None zero_mean None;
  let coefs := if use_fft then _cwt_fft X Ws mode else _cwt_convolve X Ws mode in
  consume coefs
          (fun tfrs tfr =>
             do t <- assign_block n_frequencies n_times tfr;
             Ok (tfrs ++ [t]))
          [].

(** ** Persistence *)

(** A condition label: the position in the list for a container without
    comment, the comment otherwise. *)
Inductive condition : Type :=
| CondInt (i : Z)
| CondStr (s : string).

Definition condition_eqb (a b : condition) : bool :=
  match a, b with
  | CondInt i, CondInt j => (i =? j)%Z
  | CondStr s, CondStr t => String.eqb s t
  | _, _ => false
  end.

(** The dictionary that [_prepare_write_tfr] builds; its [data] entry is
    the array itself. *)
Record tfr_dict : Type := mkDict {
  d_times : list R;
  d_freqs : list R;
  d_data : array3;
  d_info : Info;
  d_nave : Z;
  d_comment : option string;
  d_method : option string
}.

Definition _prepare_write_tfr (h : gmap positive array3) (tfr : AverageTFR)
  (cond : condition) : condition * tfr_dict :=
  (cond, mkDict (times tfr) (freqs tfr) (deref h (data tfr)) (info tfr)
                (nave tfr) (comment tfr) (method tfr)).

(** The list [out] that [write_tfrs] hands to [write_hdf5]; a single
    container is wrapped into a list first. *)
Definition write_tfrs_out (h : gmap positive array3)
  (tfr : AverageTFR + list AverageTFR) : list (condition * tfr_dict) :=
  let tfr := match tfr with inl t => [t] | inr l => l end in
  map (fun '(ii, tfr_) =>
         let comment := match comment tfr_ with
                        | None => CondInt (Z.of_nat ii)
                        | Some c => CondStr c
                        end in
         _prepare_write_tfr h tfr_ comment)
      (combine (seq 0 (length tfr)) tfr).

(** [write_hdf5] of [mne._hdf5] is not part of these files. *)
Definition write_tfrs
  (write_hdf5 : string -> list (condition * tfr_dict) -> bool -> result unit)
  (h : gmap positive array3) (fname : string)
  (tfr : AverageTFR + list AverageTFR) (overwrite : bool) : result unit :=
  write_hdf5 fname (write_tfrs_out h tfr) overwrite.

(** [dict(tfr_data)[condition]]: of several entries with the same key the
    last one stays. *)
Fixpoint dict_get (tfr_data : list (condition * tfr_dict)) (cond : condition)
  : option tfr_dict :=
  match tfr_data with
  | [] => None
  | (k, d) :: rest =>
      match dict_get rest cond with
      | Some d' => Some d'
      | None => if condition_eqb k cond then Some d else None
      end
  end.

(** The constructor called on the entries of a dictionary; the array read
    from the file is a new object. *)
Definition from_dict (d : tfr_dict) : M AverageTFR :=
  fun h =>
    let l := fresh (dom h) in
    __init__ (d_info d) l (d_times d) (d_freqs d) (d_nave d) (d_comment d)
             (d_method d) (<[l := d_data d]> h).

Fixpoint from_dicts (ds : list tfr_dict) : M (list AverageTFR) :=
  fun h =>
    match ds with
    | [] => Ok ([], h)
    | d :: ds' =>
        do '(t, h) <- from_dict d h;
        do '(ts, h) <- from_dicts ds' h;
        Ok (t :: ts, h)
    end.

(** [read_hdf5] and [check_fname] are not part of these files. *)
Definition read_tfrs
  (check_fname : string -> result unit)
  (read_hdf5 : string -> result (list (condition * tfr_dict)))
  (fname : string) (cond : option condition)
  : M (AverageTFR + list AverageTFR) :=
  fun h =>
    do _ <- check_fname fname;
    do tfr_data <- read_hdf5 fname;
    match cond with
    | Some c =>
        match dict_get tfr_data c with
        | None => Raise (ValueError "Cannot find condition in this file.")
        | Some d => do '(t, h) <- from_dict d h; Ok (inl t, h)
        end
    | None =>
        (* the second component of the unzipped pairs *)
        match tfr_data with
        | [] => Raise IndexError
        | _ => do '(ts, h) <- from_dicts (map snd tfr_data) h; Ok (inr ts, h)
        end
    end.

End Tfr.

(** * Vocabulary of the statements

    Predicates, abbreviations and concrete inputs that the properties
    below are stated with. *)

Module Statements.
Import Stockwell Tfr.

(** A batch of one epoch and one channel with five samples. *)
Definition five : array3 := Arr3 (1, 1, 5)%nat [[[1; 2; 3; 4; 5]]].

(** Two trials of one channel: a 10 Hz sinusoid sampled at 200 Hz for 256
    samples. *)
Definition sinusoid : array3 :=
  Arr3 (2, 1, 256)%nat
       (repeat [map (fun k => sin (2 * PI * 10 * (INR k / 200))) (seq 0 256)] 2).

(** [e] is a [ValueError], whatever its message. *)
Definition isVE (e : exn) : Prop := exists msg, e = ValueError msg.

(** The message of both engines for a kernel longer than the signal. *)
Definition too_long : string :=
  "Wavelet is too long for such a short signal. Reduce the number of cycles.".

(** The two engines in mode [same], as [_time_frequency] calls them. *)
Definition engine (use_fft : bool) (X : array2 R) (Ws : list (list C))
  : trace (array2 C) :=
  if use_fft then _cwt_fft X Ws Same else _cwt_convolve X Ws Same.

(** [a] has extents [r] by [c] and its rows agree with them. *)
Definition shaped {T} (r c : nat) (a : array2 T) : Prop :=
  nrows a = r /\ ncols a = c /\ length (rows a) = r /\
  Forall (fun row => length row = c) (rows a).



(** Two channels plus one channel. *)
Definition two_channels : array3 := Arr3 (2, 1, 1)%nat [[[1]]; [[2]]].

Definition one_channel : array3 := Arr3 (1, 1, 1)%nat [[[10]]].

Definition tfr_two : AverageTFR :=
  mkTFR (mkInfo ["MEG 001"; "MEG 002"]%string) 1%positive [0] [10] 5 None None.

Definition tfr_one : AverageTFR :=
  mkTFR (mkInfo ["EEG 001"]%string) 2%positive [0] [10] 7 None None.

Definition store_two_one : gmap positive array3 :=
  <[1%positive := two_channels]> (<[2%positive := one_channel]> ∅).

(** A container over the frequencies [10, 10] and one over the single
    frequency [10]. *)
Definition wide : array3 := Arr3 (1, 2, 1)%nat [[[1]; [2]]].

Definition narrow : array3 := Arr3 (1, 1, 1)%nat [[[5]]].

Definition tfr_wide : AverageTFR :=
  mkTFR (mkInfo ["MEG 001"]%string) 1%positive [0] [10; 10] 5 None None.

Definition tfr_narrow : AverageTFR :=
  mkTFR (mkInfo ["MEG 001"]%string) 2%positive [0] [10] 5 None None.

Definition store_wide_narrow : gmap positive array3 :=
  <[1%positive := wide]> (<[2%positive := narrow]> ∅).

(** Two runs have the same outcome when both return the same value or both
    raise. *)
Definition same_outcome {A} (r1 r2 : result A) : Prop :=
  match r1, r2 with
  | Ok a, Ok b => a = b
  | Raise _, Raise _ => True
  | _, _ => False
  end.

(** The sequential pool, against which the others are compared. *)
Definition sequential_pool : pool_t := fun A B _ f l => mapM f l.

(** A batch of one epoch and one channel with four samples, a baseline
    correction that does nothing. *)
Definition tiny : array3 := Arr3 (1, 1, 4)%nat [[[1; 2; 3; 4]]].

Definition no_rescale (power : list (list (array2 R))) (_ : option (list R))
  (_ _ : unit) : result (list (list (array2 R))) := Ok power.

(** The squared magnitude of a complex number. *)
Definition sqmod (z : C) : R := Re z * Re z + Im z * Im z.


(** The temporal spread [sigma_t] of [morlet]. *)
Definition sigma_of (f cycles : R) (sigma : option R) : R :=
  match sigma with
  | None => cycles / (2 * PI * f)
  | Some s => cycles / (2 * PI * s)
  end.

(** The number of samples that [::decim] keeps out of [n], as the code
    computes it: [n // decim + bool(n % decim)]. *)
Definition kept (n : nat) (decim : Z) : nat :=
  Z.to_nat (Z.of_nat n / decim
            + bool_to_Z (negb (Z.of_nat n mod decim =? 0)%Z)).

(** The decimated coefficient [(i, j)] of a trial. *)
Definition coef (decim : Z) (tfr : array2 C) (i j : nat) : C :=
  get2 C0 tfr i (Z.to_nat (Z.of_nat j * decim)).

(** [z / |z|] *)
Definition unit_phase (z : C) : C := Cdivr z (Cabs z).

(** The body of the loop [for tfr in tfrs] of [_time_frequency]. *)
Definition step (decim : Z) (acc : array2 R * array2 C) (tfr : array2 C)
  : result (array2 R * array2 C) :=
  do tfr <- decimate C0 decim tfr;
  let tfr_abs := map2d Cabs tfr in
  do psd <- iop2 Rplus (fst acc) (map2d (fun a => a ^ 2) tfr_abs);
  do plf <- iop2 Cadd (snd acc) (map2d (fun z => Cdivr z (Cabs z)) tfr);
  Ok (psd, plf).

(** [row[::decim]] for a positive [decim]. *)
Definition stride {T} (d : T) (decim : Z) (row : list T) : list T :=
  map (fun i => nth (Z.to_nat (Z.of_nat i * decim)) row d)
      (seq 0 (kept (length row) decim)).

(** The number of samples of a Morlet kernel at times zero and above:
    [len(np.arange(0., 5. * sigma_t, 1.0 / sfreq))]. *)
Definition support (sfreq f cycles : R) (sigma : option R) : nat :=
  Z.to_nat (Zceil (5 * sigma_of f cycles sigma / (1 / sfreq))).

(** The cycle counts fit neither reading: one for all, or one per
    frequency. *)
Definition cycles_mismatch (freqs n_cycles : list R) : Prop :=
  length n_cycles <> 1%nat /\ length n_cycles <> length freqs.

(** The extents of the array of a container agree with its channels,
    frequencies and times: the condition that [__init__] checks. *)
Definition consistent (h : gmap positive array3) (t : AverageTFR) : Prop :=
  dim0 (deref h (data t)) = length (chs (info t)) /\
  dim1 (deref h (data t)) = length (freqs t) /\
  dim2 (deref h (data t)) = length (times t).

(** [t'] carries the attributes of [t], the array apart. *)
Definition same_fields (t t' : AverageTFR) : Prop :=
  info t' = info t /\ times t' = times t /\ freqs t' = freqs t /\
  nave t' = nave t /\ comment t' = comment t /\ method t' = method t.

(** Every extent of [b] is the extent of [a] or 1: [a op= b] is defined. *)
Definition broadcasts_onto (a b : array3) : bool :=
  inplace_ok (dim0 a) (dim0 b) && inplace_ok (dim1 a) (dim1 b)
  && inplace_ok (dim2 a) (dim2 b).

(** The key under which [write_tfrs] files the container at position
    [ii]. *)
Definition condition_of (ii : nat) (t : AverageTFR) : condition :=
  match comment t with
  | None => CondInt (Z.of_nat ii)
  | Some c => CondStr c
  end.

(** The containers that [write_tfrs] writes. *)
Definition written (tfr : AverageTFR + list AverageTFR) : list AverageTFR :=
  match tfr with inl t => [t] | inr l => l end.

(** One row of the Stockwell transform, [ifft(XF[f:f + n_samp] * window)]:
    trial spectrum [xx] (doubled), bin [f], window [w]. *)
Definition st_row (n_samp f : nat) (w xx : list C) : list C :=
  ifft (map2_bcast Cmul (py_slice1 xx (Z.of_nat f) (Z.of_nat (f + n_samp))) w).

End Statements.

Import Statements.

(** * Properties *)

(** ** The exception monad *)

Lemma bind_Ok {A B} (r : result A) (k : A -> result B) (b : B) :
  bind r k = Ok b -> exists a, r = Ok a /\ k a = Ok b.
Proof. destruct r as [a|e]; simpl; [eauto | discriminate]. Qed.

Lemma bind_Raise {A B} (r : result A) (k : A -> result B) (e : exn) :
  bind r k = Raise e ->
  r = Raise e \/ exists a, r = Ok a /\ k a = Raise e.
Proof. destruct r as [a|e']; simpl; [eauto | intros [= ->]; auto]. Qed.

Lemma raises_ValueError_Ok {A} (a : A) : ~ raises_ValueError (Ok a).
Proof. intros [msg H]; discriminate. Qed.

(** ** Stockwell preprocessing *)

Module StockwellFacts.
Import Stockwell.

(** C2, as stated, fails: 3 is smaller than the five samples of the signal
    and is not a power of two, and the preprocessing goes on with the
    substituted length 8 and three samples of padding. *)
Lemma check_input_st_substitutes :
  (3 < Z.of_nat (dim2 five))%Z /\
  _check_input_st five (Some 3%Z)
  = Ok (Some (Arr3 (1, 1, 8)%nat [[[1; 2; 3; 4; 5; 0; 0; 0]]], 8%Z, 3%Z)) /\
  ~ raises_ValueError (_check_input_st five (Some 3%Z)).
Proof.
  assert (E : _check_input_st five (Some 3%Z)
              = Ok (Some (Arr3 (1, 1, 8)%nat [[[1; 2; 3; 4; 5; 0; 0; 0]]],
                          8%Z, 3%Z))) by reflexivity.
  split; [vm_compute; reflexivity | split; [exact E | rewrite E; apply raises_ValueError_Ok]].
Qed.

Lemma not_power_of_two_pos (n : Z) : _is_power_of_two n = false -> (0 < n)%Z.
Proof.
  unfold _is_power_of_two. destruct (0 <? n)%Z eqn:E; simpl; [lia | discriminate].
Qed.

(** C2, amended: a requested length below the number of samples is refused
    when [_is_power_of_two] accepts it; when it does not, no [ValueError] is
    raised and the next power of two at or above the number of samples is
    used, with the signal padded up to it. *)
Theorem check_input_st_small_n_fft (x_in : array3) (n_fft : Z) :
  (n_fft < Z.of_nat (dim2 x_in))%Z ->
  let n_times := Z.of_nat (dim2 x_in) in
  let p := (2 ^ Z.log2_up n_times)%Z in
  (_is_power_of_two n_fft = true ->
   _check_input_st x_in (Some n_fft)
   = Raise (ValueError "n_fft cannot be smaller than signal size.")) /\
  (_is_power_of_two n_fft = false ->
   ~ raises_ValueError (_check_input_st x_in (Some n_fft)) /\
   (n_times <= p)%Z /\
   ((n_times < p)%Z ->
    _check_input_st x_in (Some n_fft)
    = Ok (Some (zero_pad_last x_in (Z.to_nat (p - n_times)), p, (p - n_times)%Z)))).
Proof.
  intros Hlt n_times p. unfold _check_input_st. fold n_times.
  assert (Hb : (n_fft <? n_times)%Z = true) by (apply Z.ltb_lt; exact Hlt).
  split; intros Hp; rewrite Hp, Hb; simpl; [reflexivity |].
  pose proof (not_power_of_two_pos _ Hp) as Hpos.
  assert (Hnt : (0 < n_times)%Z) by lia.
  unfold next_power_of_two.
  destruct (n_times <=? 0)%Z eqn:E; [apply Z.leb_le in E; lia |].
  simpl. fold p.
  assert (Hle : (n_times <= p)%Z) by (apply Z.log2_log2_up_spec; lia).
  split; [| split; [exact Hle |]].
  - destruct (n_times <? p)%Z; apply raises_ValueError_Ok.
  - intros Hlt'. apply Z.ltb_lt in Hlt'. rewrite Hlt'. reflexivity.
Qed.

Lemma check_input_st_small_n_fft_witness :
  (4 < Z.of_nat (dim2 five))%Z /\
  _check_input_st five (Some 4%Z)
  = Raise (ValueError "n_fft cannot be smaller than signal size.").
Proof.
  split; [vm_compute; reflexivity |].
  apply (check_input_st_small_n_fft five 4); [vm_compute; reflexivity | reflexivity].
Defined.

(** When the number of samples already is the FFT length, no padding is
    needed, the [return] inside the padding branch is not reached and the
    function hands back [None]. *)
Lemma check_input_st_no_padding (x_in : array3) (n_fft : option Z) :
  let n_times := Z.of_nat (dim2 x_in) in
  (0 < n_times)%Z ->
  (2 ^ Z.log2_up n_times = n_times)%Z ->
  n_fft = None \/ n_fft = Some n_times ->
  _check_input_st x_in n_fft = Ok None.
Proof.
  intros n_times Hpos Hpow Hn. unfold _check_input_st. fold n_times.
  assert (Hnext : next_power_of_two n_times = Ok n_times).
  { unfold next_power_of_two.
    destruct (n_times <=? 0)%Z eqn:E; [apply Z.leb_le in E; lia |].
    now rewrite Hpow. }
  destruct Hn as [-> | ->].
  - rewrite Hnext. simpl. now rewrite Z.ltb_irrefl.
  - rewrite Z.ltb_irrefl, andb_false_r. simpl. now rewrite Z.ltb_irrefl.
Qed.

(** C1: on the 256 samples of the sinusoid the default FFT length is 256,
    [_check_input_st] returns [None], and [_induced_power_stockwell] stops
    with a [TypeError] where it unpacks that value: no power array is
    returned, for any worker count and with or without coherence. *)
Theorem induced_power_stockwell_sinusoid (pool : pool_t) (return_itc : bool)
  (n_jobs : Z) :
  _check_input_st sinusoid None = Ok None /\
  _induced_power_stockwell pool sinusoid 200 (Some 5) (Some 15) None 1 1
                           return_itc n_jobs
  = Raise (TypeError "'NoneType' object is not iterable").
Proof.
  assert (E : _check_input_st sinusoid None = Ok None).
  { apply check_input_st_no_padding; [vm_compute; reflexivity | reflexivity | now left]. }
  split; [exact E |].
  unfold _induced_power_stockwell. rewrite E. reflexivity.
Qed.

End StockwellFacts.

(** ** Sequences of fallible steps *)

Lemma mapM_Ok_length {A B} (f : A -> result B) (l : list A) (bs : list B) :
  mapM f l = Ok bs -> length bs = length l.
Proof.
  revert bs. induction l as [|a l IH]; simpl; intros bs H.
  - now inversion H.
  - destruct (f a) as [b|e]; simpl in H; [| discriminate].
    destruct (mapM f l) as [bs'|e]; simpl in H; [| discriminate].
    inversion H; subst. simpl. f_equal. now apply IH.
Qed.

Lemma mapM_Ok_nth {A B} (f : A -> result B) (l : list A) (bs : list B) :
  mapM f l = Ok bs ->
  forall i a, nth_error l i = Some a ->
  exists b, nth_error bs i = Some b /\ f a = Ok b.
Proof.
  revert bs. induction l as [|a0 l IH]; simpl; intros bs H i a Hi.
  - destruct i; discriminate.
  - destruct (f a0) as [b0|e] eqn:E0; simpl in H; [| discriminate].
    destruct (mapM f l) as [bs'|e]; simpl in H; [| discriminate].
    inversion H; subst. destruct i as [|i]; simpl in *.
    + inversion Hi; subst. eauto.
    + now apply IH.
Qed.

Lemma mapM_Ok_Forall {A B} (f : A -> result B) (P : B -> Prop) (l : list A)
  (bs : list B) :
  (forall a b, f a = Ok b -> P b) -> mapM f l = Ok bs -> Forall P bs.
Proof.
  intros Hf. revert bs. induction l as [|a l IH]; simpl; intros bs H.
  - inversion H. constructor.
  - destruct (f a) as [b|e] eqn:E; simpl in H; [| discriminate].
    destruct (mapM f l) as [bs'|e]; simpl in H; [| discriminate].
    inversion H; subst. constructor; eauto.
Qed.

Lemma mapM_total {A B} (f : A -> result B) (g : A -> B) (l : list A) :
  (forall a, In a l -> f a = Ok (g a)) -> mapM f l = Ok (map g l).
Proof.
  induction l as [|a l IH]; simpl; intros H; [reflexivity |].
  rewrite (H a) by auto. simpl. rewrite IH by auto. reflexivity.
Qed.

(** A pass over [l] in which some step raises, and in which steps only raise
    exceptions of the kind [P], raises an exception of that kind. *)
Lemma mapM_raises {A B} (P : exn -> Prop) (f : A -> result B) (l : list A) :
  (forall a e, In a l -> f a = Raise e -> P e) ->
  Exists (fun a => exists e, f a = Raise e) l ->
  exists e, mapM f l = Raise e /\ P e.
Proof.
  induction l as [|a l IH]; intros HP Hex; [inversion Hex |].
  simpl. destruct (f a) as [b|e] eqn:E.
  - simpl. destruct IH as (e & He & HPe).
    + intros a' e' Hin. apply HP. now right.
    + inversion Hex as [? ? [e' He'] | ? ? Hl]; subst; [congruence | exact Hl].
    + exists e. rewrite He. auto.
  - exists e. split; [reflexivity |]. apply (HP a); [now left | exact E].
Qed.

Lemma assign_row_raises {T} (w : nat) (src : list T) (e : exn) :
  assign_row w src = Raise e -> isVE e.
Proof.
  unfold assign_row. destruct (length src =? w)%nat; [discriminate |].
  destruct src as [|v [|v' src]]; intros [= <-] || discriminate; eexists; reflexivity.
Qed.

Lemma assign_row_length {T} (w : nat) (src v : list T) :
  assign_row w src = Ok v -> length v = w.
Proof.
  unfold assign_row. destruct (length src =? w)%nat eqn:E.
  - intros [= <-]. now apply Nat.eqb_eq.
  - destruct src as [|x [|x' src]]; try discriminate.
    intros [= <-]. apply repeat_length.
Qed.

Lemma assign_slice_raises {T} (row : list T) (s e0 : Z) (src : list T) (e : exn) :
  assign_slice row s e0 src = Raise e -> isVE e.
Proof.
  unfold assign_slice. intros H. apply bind_Raise in H as [H | (v & _ & H)].
  - eapply assign_row_raises; eauto.
  - discriminate.
Qed.

Lemma np_convolve_raises (x : list R) (w : list C) (m : conv_mode) (e : exn) :
  np_convolve x w m = Raise e -> isVE e.
Proof.
  unfold np_convolve. destruct x, w; intros [= <-] || discriminate; eexists; reflexivity.
Qed.

Module EngineFacts.
Import Tfr.

Lemma place_row_raises (mode : conv_mode) (n_times width wsize : nat)
  (crop : bool) (ret : list C) (e : exn) :
  place_row mode n_times width wsize crop ret = Raise e -> isVE e.
Proof.
  unfold place_row. destruct mode; intros H;
    solve [eapply assign_row_raises; eauto | eapply assign_slice_raises; eauto].
Qed.

Lemma fold_max_ge (l : list nat) (m0 : nat) :
  (m0 <= fold_left Nat.max l m0)%nat /\
  Forall (fun n => (n <= fold_left Nat.max l m0)%nat) l.
Proof.
  revert m0. induction l as [|n l IH]; intros m0; simpl.
  - split; [lia | constructor].
  - destruct (IH (Nat.max m0 n)) as [H1 H2]. split; [lia |].
    constructor; [lia | exact H2].
Qed.

Lemma max_size_ge (Ws : list (list C)) (W : list C) :
  In W Ws -> exists m, max_size Ws = Ok m /\ (length W <= m)%nat.
Proof.
  destruct Ws as [|W0 Ws]; [intros [] |]. intros Hin. simpl.
  eexists; split; [reflexivity |].
  destruct (fold_max_ge (map (@length C) Ws) (length W0)) as [H1 H2].
  destruct Hin as [-> | Hin]; [exact H1 |].
  rewrite List.Forall_forall in H2. apply H2. now apply in_map.
Qed.

(** The FFT engine checks every kernel before the first trial. *)
Lemma cwt_fft_too_long (X : array2 R) (Ws : list (list C)) (mode : conv_mode) :
  (1 <= ncols X)%nat ->
  Exists (fun W => (ncols X < length W)%nat) Ws ->
  _cwt_fft X Ws mode = Trace [] (Some (ValueError too_long)).
Proof.
  intros Hn Hex. unfold _cwt_fft.
  destruct (proj1 (List.Exists_exists _ _) Hex) as (W & HW & Hlen).
  destruct (max_size_ge Ws W HW) as (m & -> & Hm). simpl.
  unfold fft_size.
  destruct (Z.of_nat (ncols X) + Z.of_nat m - 1 =? 0)%Z eqn:E0;
    [apply Z.eqb_eq in E0; lia |].
  destruct (Z.of_nat (ncols X) + Z.of_nat m - 1 <? 0)%Z eqn:E1;
    [apply Z.ltb_lt in E1; lia |].
  simpl.
  match goal with |- context [mapM ?f Ws] =>
    destruct (mapM_raises (fun e => e = ValueError too_long) f Ws) as (e & -> & ->)
  end.
  - intros a e _. destruct (ncols X <? length a)%nat; [now intros [= <-] | discriminate].
  - eapply List.Exists_impl; [| exact Hex]. intros a Ha. simpl in Ha.
    apply Nat.ltb_lt in Ha. rewrite Ha. eauto.
  - reflexivity.
Qed.

(** The temporal engine checks a kernel after convolving the current trial
    with it; with a first trial at hand it stops before its first [yield]. *)
Lemma cwt_convolve_too_long (X : array2 R) (Ws : list (list C))
  (mode : conv_mode) (x : list R) (xs : list (list R)) :
  rows X = x :: xs ->
  Exists (fun W => (length x < length W)%nat) Ws ->
  exists msg, _cwt_convolve X Ws mode = Trace [] (Some (ValueError msg)).
Proof.
  intros HX Hex. unfold _cwt_convolve. rewrite HX. simpl.
  match goal with |- context [mapM ?f Ws] =>
    destruct (mapM_raises isVE f Ws) as (e & -> & [msg ->])
  end.
  - intros W e _ H. apply bind_Raise in H as [H | (ret & _ & H)].
    + eapply np_convolve_raises; eauto.
    + destruct (length x <? length W)%nat.
      * inversion H. eexists; reflexivity.
      * eapply place_row_raises; eauto.
  - eapply List.Exists_impl; [| exact Hex]. intros W HW. simpl in HW.
    apply Nat.ltb_lt in HW.
    destruct (np_convolve x W mode) as [ret|e] eqn:E; simpl; [| eauto].
    rewrite HW. eauto.
  - simpl. eauto.
Qed.

(** C5, as stated, fails on degenerate batches: with no trial at all the
    temporal engine never looks at the kernels and ends without an error,
    and with signals of no sample the FFT engine stops on the size of its
    FFT ([OverflowError]) before it compares any length. *)
Lemma too_long_degenerate_batches :
  let Ws := [[RtoC 1; RtoC 1; RtoC 1; RtoC 1]] in
  Exists (fun W => (ncols (Arr2 0 3 ([] : list (list R))) < length W)%nat) Ws /\
  _cwt_convolve (Arr2 0 3 []) Ws Same = Trace [] None /\
  Exists (fun W => (ncols (Arr2 1 0 [([] : list R)]) < length W)%nat) [[RtoC 1]] /\
  _cwt_fft (Arr2 1 0 [[]]) [[RtoC 1]] Same = Trace [] (Some OverflowError).
Proof.
  repeat split; try reflexivity; constructor; simpl; lia.
Qed.

(** C5, amended: for a batch with at least one trial and at least one time
    sample, a bank with a kernel longer than the signals makes both engines
    raise a [ValueError] before they yield anything. *)
Theorem engines_abort_on_long_kernel (X : array2 R) (Ws : list (list C))
  (mode : conv_mode) :
  rows X <> [] ->
  Forall (fun x => length x = ncols X) (rows X) ->
  (1 <= ncols X)%nat ->
  Exists (fun W => (ncols X < length W)%nat) Ws ->
  (exists msg, _cwt_fft X Ws mode = Trace [] (Some (ValueError msg))) /\
  (exists msg, _cwt_convolve X Ws mode = Trace [] (Some (ValueError msg))).
Proof.
  intros Hne Hwf Hn Hex. split.
  - exists too_long. now apply cwt_fft_too_long.
  - destruct (rows X) as [|x xs] eqn:HX; [congruence |].
    apply (cwt_convolve_too_long X Ws mode x xs HX).
    inversion Hwf as [| ? ? Hx _]; subst. now rewrite Hx.
Qed.

Lemma engines_abort_on_long_kernel_witness :
  (exists msg, _cwt_fft (Arr2 1 2 [[1; 2]]) [[RtoC 1; RtoC 1; RtoC 1]] Same
               = Trace [] (Some (ValueError msg))) /\
  (exists msg, _cwt_convolve (Arr2 1 2 [[1; 2]]) [[RtoC 1; RtoC 1; RtoC 1]] Same
               = Trace [] (Some (ValueError msg))).
Proof.
  apply (engines_abort_on_long_kernel (Arr2 1 2 [[1; 2]])
           [[RtoC 1; RtoC 1; RtoC 1]] Same).
  - discriminate.
  - repeat constructor.
  - simpl; lia.
  - constructor; simpl; lia.
Defined.

(** C4: one trial of two samples and one kernel of two samples.  In mode
    [full] the row of the output is allocated with the four samples of the
    FFT and then receives the centre crop of two samples, which numpy
    refuses: the engine raises before it yields anything, where the full
    convolution has three samples. *)
Theorem cwt_fft_full_fails :
  _cwt_fft (Arr2 1 2 [[1; 2]]) [[RtoC 1; RtoC 1]] Full
  = Trace [] (Some (ValueError "could not broadcast input array")).
Proof. reflexivity. Qed.

End EngineFacts.

(** ** Shapes of the yielded coefficient arrays *)

Lemma gen_for_yielded {A B} (body : A -> result B) (l : list A) (b : B) :
  In b (yielded (gen_for body l)) -> exists a, In a l /\ body a = Ok b.
Proof.
  induction l as [|a l IH]; simpl; [intros [] |].
  destruct (body a) as [b0|e] eqn:E; simpl; [| intros []].
  intros [<- | Hin]; [eauto |].
  destruct (IH Hin) as (a' & Ha' & Hb). eauto.
Qed.

Lemma gen_for_complete {A B} (body : A -> result B) (l : list A) :
  stopped (gen_for body l) = None -> length (yielded (gen_for body l)) = length l.
Proof.
  induction l as [|a l IH]; simpl; [reflexivity |].
  destruct (body a) as [b0|e]; simpl; [| discriminate].
  intros H. f_equal. now apply IH.
Qed.

Module ShapeFacts.
Import Tfr.

Lemma combine_mapM_length {A B} (f : A -> result B) (l : list A) (bs : list B) :
  mapM f l = Ok bs -> length (combine l bs) = length l.
Proof.
  intros H. apply mapM_Ok_length in H. rewrite length_combine. lia.
Qed.

Lemma cwt_fft_same_shaped (X : array2 R) (Ws : list (list C)) (tfr : array2 C) :
  In tfr (yielded (_cwt_fft X Ws Same)) -> shaped (length Ws) (ncols X) tfr.
Proof.
  unfold _cwt_fft.
  destruct (max_size Ws) as [m|e]; simpl; [| intros []].
  destruct (fft_size _) as [fsize|e]; simpl; [| intros []].
  destruct (mapM _ Ws) as [fft_Ws|e] eqn:EW; simpl; [| intros []].
  intros Hin. apply gen_for_yielded in Hin as (x & _ & Hx).
  apply bind_Ok in Hx as (rs & Hrs & Hx). inversion Hx; subst; clear Hx.
  unfold shaped; simpl. repeat split.
  - apply mapM_Ok_length in Hrs. rewrite Hrs. eapply combine_mapM_length; eauto.
  - eapply mapM_Ok_Forall; [| exact Hrs].
    intros [W fW] row Hrow. simpl in Hrow. eapply assign_row_length; eauto.
Qed.

Lemma cwt_convolve_same_shaped (X : array2 R) (Ws : list (list C))
  (tfr : array2 C) :
  In tfr (yielded (_cwt_convolve X Ws Same)) -> shaped (length Ws) (ncols X) tfr.
Proof.
  unfold _cwt_convolve. intros Hin.
  apply gen_for_yielded in Hin as (x & _ & Hx).
  apply bind_Ok in Hx as (rs & Hrs & Hx). inversion Hx; subst; clear Hx.
  unfold shaped; simpl. repeat split.
  - eapply mapM_Ok_length; eauto.
  - eapply mapM_Ok_Forall; [| exact Hrs].
    intros W row Hrow. apply bind_Ok in Hrow as (ret & _ & Hrow).
    destruct (length x <? length W)%nat; [discriminate |].
    simpl in Hrow. eapply assign_row_length; eauto.
Qed.

(** In mode [same] every yielded array has one row per kernel and as many
    columns as the input has time samples. *)
Lemma engine_shaped (use_fft : bool) (X : array2 R) (Ws : list (list C))
  (tfr : array2 C) :
  In tfr (yielded (engine use_fft X Ws)) -> shaped (length Ws) (ncols X) tfr.
Proof.
  destruct use_fft; [apply cwt_fft_same_shaped | apply cwt_convolve_same_shaped].
Qed.

Lemma engine_complete (use_fft : bool) (X : array2 R) (Ws : list (list C)) :
  stopped (engine use_fft X Ws) = None ->
  length (yielded (engine use_fft X Ws)) = length (rows X).
Proof.
  destruct use_fft; simpl; unfold _cwt_fft, _cwt_convolve.
  - destruct (max_size Ws) as [m|e]; simpl; [| discriminate].
    destruct (fft_size _) as [fsize|e]; simpl; [| discriminate].
    destruct (mapM _ Ws) as [fft_Ws|e]; simpl; [| discriminate].
    apply gen_for_complete.
  - apply gen_for_complete.
Qed.

End ShapeFacts.

(** ** The multitaper builder *)

Lemma mapM_all_Ok {A B} (f : A -> result B) (l : list A) :
  (forall a, In a l -> exists b, f a = Ok b) -> exists bs, mapM f l = Ok bs.
Proof.
  induction l as [|a l IH]; simpl; intros H; [eauto |].
  destruct (H a) as [b Hb]; [now left |]. rewrite Hb. simpl.
  destruct IH as [bs Hbs]; [intros; apply H; now right |].
  rewrite Hbs. simpl. eauto.
Qed.

Lemma nth_error_seq0 (n i : nat) : (i < n)%nat -> nth_error (seq 0 n) i = Some i.
Proof.
  intros H. rewrite (nth_error_nth' _ 0%nat) by (rewrite length_seq; exact H).
  rewrite seq_nth by exact H. reflexivity.
Qed.

Lemma nth_error_enumerate_from {A} (l : list A) (k s : nat) (a : A) :
  nth_error l k = Some a ->
  nth_error (combine (seq s (length l)) l) k = Some ((s + k)%nat, a).
Proof.
  revert k s. induction l as [|x l IH]; intros [|k] s H; simpl in *; try discriminate.
  - inversion H. now rewrite Nat.add_0_r.
  - rewrite (IH k (S s) H). f_equal. f_equal. lia.
Qed.

Lemma nth_error_enumerate {A} (l : list A) (k : nat) (a : A) :
  nth_error l k = Some a ->
  nth_error (combine (seq 0 (length l)) l) k = Some (k, a).
Proof. intros H. now rewrite (nth_error_enumerate_from l k 0 a H). Qed.

Module DpssFacts.
Import Tfr.

Section Builder.

Variable dpss_windows : dpss_t.

(** What the builder relies on: asked for [Kmax] tapers of [N] samples,
    [dpss_windows] returns [Kmax] rows of [N] values. *)
Hypothesis dpss_windows_ok :
  forall (N : nat) (half_nbw : R) (Kmax : nat),
  exists tapers, dpss_windows N half_nbw Kmax = Ok tapers /\
                 length tapers = Kmax /\
                 Forall (fun t => length t = N) tapers.



End Builder.




End DpssFacts.

(** ** Elementwise operations with broadcasting *)

Lemma nth_zip_with {T U V} (f : T -> U -> V) (a : list T) (b : list U)
  (i : nat) (d : V) (da : T) (db : U) :
  (i < length a)%nat -> (i < length b)%nat ->
  nth i (zip_with f a b) d = f (nth i a da) (nth i b db).
Proof.
  revert b i. induction a as [|x a IH]; intros [|y b] [|i]; simpl; try lia;
    intros Ha Hb; [reflexivity | apply IH; lia].
Qed.

Lemma length_zip_with_same {T U V} (f : T -> U -> V) (a : list T) (b : list U) :
  length b = length a -> length (zip_with f a b) = length a.
Proof.
  revert b. induction a as [|x a IH]; intros [|y b]; simpl; try discriminate;
    intros H; [reflexivity | f_equal; apply IH; lia].
Qed.

Lemma bzip_single {T U} (f : T -> U -> T) (dst : list T) (v : U) :
  bzip f dst [v] = map (fun x => f x v) dst.
Proof. reflexivity. Qed.

Lemma bzip_same_zip {T U} (f : T -> U -> T) (dst : list T) (src : list U) :
  length src = length dst -> bzip f dst src = zip_with f dst src.
Proof.
  destruct src as [|v [|v' src]]; try reflexivity.
  destruct dst as [|x [|x' dst]]; simpl; try discriminate. reflexivity.
Qed.

Lemma bzip_length {T U} (f : T -> U -> T) (dst : list T) (src : list U) :
  length src = length dst -> length (bzip f dst src) = length dst.
Proof.
  intros H. rewrite bzip_same_zip by exact H. now apply length_zip_with_same.
Qed.

Lemma bzip_nth {T U} (f : T -> U -> T) (dst : list T) (src : list U)
  (i : nat) (d : T) (d' : U) :
  length src = length dst -> (i < length dst)%nat ->
  nth i (bzip f dst src) d = f (nth i dst d) (nth i src d').
Proof.
  intros H Hi. rewrite bzip_same_zip by exact H. apply nth_zip_with; lia.
Qed.

Lemma Forall_nth_length {T} (c : nat) (l : list (list T)) (i : nat) :
  Forall (fun r => length r = c) l -> (i < length l)%nat ->
  length (nth i l []) = c.
Proof.
  intros H Hi. rewrite List.Forall_forall in H. apply H. now apply nth_In.
Qed.

(** An in-place operation between arrays of the same extents works entry by
    entry and keeps the extents. *)
Lemma iop2_same {T U} (f : T -> U -> T) (r c : nat) (dst : array2 T)
  (src : array2 U) :
  shaped r c dst -> shaped r c src ->
  exists out,
    iop2 f dst src = Ok out /\ shaped r c out /\
    forall i j d d', (i < r)%nat -> (j < c)%nat ->
      get2 d out i j = f (get2 d dst i j) (get2 d' src i j).
Proof.
  intros (Hr & Hc & Hl & Hrows) (Hr' & Hc' & Hl' & Hrows').
  unfold iop2, inplace_ok. rewrite Hr, Hc, Hr', Hc', !Nat.eqb_refl. simpl.
  eexists; split; [reflexivity |].
  assert (Hlen : length (bzip (bzip f) (rows dst) (rows src)) = r)
    by (rewrite bzip_length; lia).
  assert (Hnth : forall i, (i < r)%nat ->
            nth i (bzip (bzip f) (rows dst) (rows src)) []
            = bzip f (nth i (rows dst) []) (nth i (rows src) [])).
  { intros i Hi. apply bzip_nth; lia. }
  split.
  - unfold shaped; simpl. repeat split; try assumption.
    apply List.Forall_forall. intros row Hin.
    apply (In_nth _ _ []) in Hin as (i & Hi & <-). rewrite Hlen in Hi.
    rewrite Hnth by exact Hi.
    rewrite bzip_length; rewrite ?(Forall_nth_length c (rows dst)),
      ?(Forall_nth_length c (rows src)); auto; lia.
  - intros i j d d' Hi Hj. unfold get2; simpl. rewrite Hnth by exact Hi.
    apply bzip_nth; rewrite ?(Forall_nth_length c (rows dst)),
      ?(Forall_nth_length c (rows src)); auto; lia.
Qed.

Lemma zip_with_roundtrip {T U} (f g : T -> U -> T) (a : list T) (b : list U) :
  Forall2 (fun x y => g (f x y) y = x) a b ->
  zip_with g (zip_with f a b) b = a.
Proof. induction 1 as [|x y a b H _ IH]; simpl; [reflexivity | now rewrite H, IH]. Qed.

(** Undoing an elementwise operation, on lists of the same length. *)
Lemma bzip_roundtrip {T U} (f g : T -> U -> T) (a : list T) (b : list U) :
  Forall2 (fun x y => g (f x y) y = x) a b ->
  bzip g (bzip f a b) b = a.
Proof.
  intros H. pose proof (Forall2_length _ _ _ H) as Hl.
  rewrite (bzip_same_zip f) by lia.
  rewrite bzip_same_zip by (rewrite length_zip_with_same; lia).
  now apply zip_with_roundtrip.
Qed.

Lemma Forall2_from_Forall {T U} (P : T -> Prop) (Q : U -> Prop)
  (S : T -> U -> Prop) (a : list T) (b : list U) :
  length a = length b -> Forall P a -> Forall Q b ->
  (forall x y, P x -> Q y -> S x y) -> Forall2 S a b.
Proof.
  intros Hl Ha Hb HS. revert b Hl Hb.
  induction Ha as [|x a Hx Ha IH]; intros [|y b] Hl Hb; simpl in Hl;
    try discriminate; constructor.
  - inversion Hb; subst. auto.
  - inversion Hb; subst. apply IH; [lia | assumption].
Qed.

(** ** The result container *)

Module ContainerFacts.
Import Tfr.

Lemma Req_bool_refl (x : R) : Req_bool x x = true.
Proof. unfold Req_bool. destruct (Req_dec_T x x); [reflexivity | contradiction]. Qed.

Lemma Req_bool_true (x y : R) : Req_bool x y = true -> x = y.
Proof. unfold Req_bool. destruct (Req_dec_T x y); [auto | discriminate]. Qed.

Lemma np_all_eq_refl (a : list R) : np_all_eq a a = true.
Proof.
  unfold np_all_eq, broadcast_extent. rewrite Nat.eqb_refl.
  assert (E : map2_bcast Req_bool a a = zip_with Req_bool a a)
    by (destruct a as [|x [|y a]]; reflexivity).
  rewrite E. clear E. induction a as [|x a IH]; simpl; [reflexivity |].
  now rewrite Req_bool_refl, IH.
Qed.

(** The check looks at the two axes and at nothing else. *)
Lemma check_compat_same_axes (self tfr : AverageTFR) :
  times tfr = times self -> freqs tfr = freqs self ->
  _check_compat self tfr = Ok tt.
Proof.
  intros Ht Hf. unfold _check_compat. now rewrite Ht, Hf, !np_all_eq_refl.
Qed.

Lemma deref_lookup (h : gmap positive array3) (l : positive) (a : array3) :
  h !! l = Some a -> deref h l = a.
Proof. unfold deref. now intros ->. Qed.

Lemma fresh_ne (h : gmap positive array3) (l : positive) (a : array3) :
  h !! l = Some a -> fresh (dom h) <> l.
Proof.
  intros Hl Heq. pose proof (is_fresh (dom h)) as Hf. rewrite Heq in Hf.
  apply Hf. apply elem_of_dom. eauto.
Qed.

(** [self.copy()] followed by [out.data op= tfr.data]: the result lives on a
    new array and the store is otherwise as before. *)
Lemma copy_then_iop (f : R -> R -> R) (self tfr : AverageTFR)
  (h : gmap positive array3) (a b r : array3) :
  h !! data self = Some a -> h !! data tfr = Some b ->
  iop3 f a b = Ok r ->
  let l := fresh (dom h) in
  let out := mkTFR (info self) l (times self) (freqs self) (nave self)
                   (comment self) (method self) in
  (do '(out, h) <- copy self h;
   do '(_, h) <- data_iop f out tfr h;
   Ok (out, h)) = Ok (out, <[l := r]> h).
Proof.
  intros Ha Hb Hr l out. unfold copy. simpl. fold l. fold out.
  unfold data_iop. simpl.
  rewrite (deref_lookup h _ a Ha).
  rewrite (deref_lookup (<[l := a]> h) l a) by apply lookup_insert_eq.
  rewrite (deref_lookup (<[l := a]> h) (data tfr) b)
    by (rewrite lookup_insert_ne; [exact Hb | eapply fresh_ne; eauto]).
  rewrite Hr. simpl. now rewrite insert_insert_eq.
Qed.

Lemma add_spec (self tfr : AverageTFR) (h : gmap positive array3)
  (a b r : array3) :
  h !! data self = Some a -> h !! data tfr = Some b ->
  _check_compat self tfr = Ok tt -> iop3 Rplus a b = Ok r ->
  let l := fresh (dom h) in
  __add__ self tfr h
  = Ok (mkTFR (info self) l (times self) (freqs self) (nave self)
              (comment self) (method self), <[l := r]> h).
Proof.
  intros Ha Hb Hc Hr l. unfold __add__. rewrite Hc. simpl.
  now apply copy_then_iop with (a := a) (b := b).
Qed.

Lemma sub_spec (self tfr : AverageTFR) (h : gmap positive array3)
  (a b r : array3) :
  h !! data self = Some a -> h !! data tfr = Some b ->
  _check_compat self tfr = Ok tt -> iop3 Rminus a b = Ok r ->
  let l := fresh (dom h) in
  __sub__ self tfr h
  = Ok (mkTFR (info self) l (times self) (freqs self) (nave self)
              (comment self) (method self), <[l := r]> h).
Proof.
  intros Ha Hb Hc Hr l. unfold __sub__. rewrite Hc. simpl.
  now apply copy_then_iop with (a := a) (b := b).
Qed.

Lemma zip_with_ext_Forall2 {T U V} (f g : T -> U -> V) (a : list T) (b : list U) :
  Forall2 (fun x y => f x y = g x y) a b -> zip_with f a b = zip_with g a b.
Proof. induction 1 as [|x y a b H _ IH]; simpl; [reflexivity | now rewrite H, IH]. Qed.

(** On two matrices of the same extents the broadcasting operation is the
    plain entry-by-entry one. *)
Lemma bzip2_same (f : R -> R -> R) (r c : nat) (x y : list (list R)) :
  length x = r -> length y = r ->
  Forall (fun row => length row = c) x -> Forall (fun row => length row = c) y ->
  bzip (bzip f) x y = zip_with (zip_with f) x y.
Proof.
  intros Hx Hy Fx Fy. rewrite bzip_same_zip by lia.
  apply zip_with_ext_Forall2.
  apply (Forall2_from_Forall _ _ _ x y ltac:(lia) Fx Fy).
  intros u v Hu Hv. simpl in *. apply bzip_same_zip. lia.
Qed.

(** C10: with identical axes the compatibility check passes whatever the
    channel counts; when the right operand has a single channel, [A + B]
    returns a new container whose every channel is the channel of [A] plus
    the one channel of [B], with the [nave] of [A], and leaves the arrays of
    both operands as they were. *)
Theorem add_broadcasts_single_channel (A B : AverageTFR)
  (h : gmap positive array3) (a b : array3) (b0 : list (list R)) :
  times B = times A -> freqs B = freqs A ->
  h !! data A = Some a -> h !! data B = Some b ->
  wf_array3 a -> wf_array3 b ->
  _check_compat A B = Ok tt /\
  (cells3 b = [b0] -> dim1 b = dim1 a -> dim2 b = dim2 a ->
   exists out h',
     __add__ A B h = Ok (out, h') /\
     nave out = nave A /\
     deref h' (data out)
     = Arr3 (shape3 a) (map (fun chan => zip_with (zip_with Rplus) chan b0)
                            (cells3 a)) /\
     h' !! data A = Some a /\ h' !! data B = Some b).
Proof.
  intros Ht Hf Ha Hb [Wa Wa'] [Wb Wb'].
  pose proof (check_compat_same_axes A B Ht Hf) as Hc.
  split; [exact Hc |]. intros Hcells H1 H2.
  assert (H0 : dim0 b = 1%nat) by (rewrite <- Wb, Hcells; reflexivity).
  set (r := Arr3 (shape3 a) (map (fun chan => zip_with (zip_with Rplus) chan b0)
                                 (cells3 a))).
  assert (Hr : iop3 Rplus a b = Ok r).
  { unfold iop3, inplace_ok. rewrite H0, H1, H2, !Nat.eqb_refl, !orb_true_r. simpl.
    unfold r. do 2 f_equal. rewrite Hcells, bzip_single.
    apply map_ext_in. intros chan Hin.
    rewrite List.Forall_forall in Wa'. destruct (Wa' chan Hin) as [Lc Fc].
    rewrite Hcells in Wb'. inversion Wb' as [| ? ? [Lb Fb] _]; subst.
    apply (bzip2_same Rplus (dim1 a) (dim2 a)); auto; try lia.
    eapply Forall_impl; [exact Fb |]. simpl. intros; lia. }
  eexists _, _. split; [apply (add_spec A B h a b r Ha Hb Hc Hr) |].
  simpl. split; [reflexivity |]. split; [| split].
  - apply deref_lookup, lookup_insert_eq.
  - rewrite lookup_insert_ne; [exact Ha | eapply fresh_ne; eauto].
  - rewrite lookup_insert_ne; [exact Hb | eapply fresh_ne; eauto].
Qed.

Lemma add_broadcasts_single_channel_witness :
  exists out h',
    __add__ tfr_two tfr_one store_two_one = Ok (out, h') /\
    nave out = 5%Z /\
    deref h' (data out) = Arr3 (2, 1, 1)%nat [[[1 + 10]]; [[2 + 10]]].
Proof.
  destruct (add_broadcasts_single_channel tfr_two tfr_one store_two_one
              two_channels one_channel [[10]]) as [_ H].
  - reflexivity.
  - reflexivity.
  - apply lookup_insert_eq.
  - unfold store_two_one. rewrite lookup_insert_ne by discriminate.
    apply lookup_insert_eq.
  - split; [reflexivity | repeat constructor].
  - split; [reflexivity | repeat constructor].
  - destruct H as (out & h' & Hadd & Hnave & Hdata & _); try reflexivity.
    exists out, h'. split; [exact Hadd | split; [exact Hnave | exact Hdata]].
Defined.

(** Containers with the same axes and arrays of the same extents: the
    difference of the sum and [B] is a new container with the entries of
    [A], and neither operator touches the arrays of its operands. *)
Lemma add_then_sub (A B : AverageTFR) (h : gmap positive array3) (a b : array3) :
  times B = times A -> freqs B = freqs A ->
  h !! data A = Some a -> h !! data B = Some b ->
  wf_array3 a -> wf_array3 b -> shape3 b = shape3 a ->
  exists s h1 d h2,
    __add__ A B h = Ok (s, h1) /\
    h1 !! data A = Some a /\ h1 !! data B = Some b /\
    __sub__ s B h1 = Ok (d, h2) /\
    h2 !! data A = Some a /\ h2 !! data B = Some b /\
    h2 !! data s = h1 !! data s /\
    deref h2 (data d) = a.
Proof.
  intros Ht Hf Ha Hb [Wa Wa'] [Wb Wb'] Hs.
  pose proof (check_compat_same_axes A B Ht Hf) as Hc.
  assert (D0 : dim0 b = dim0 a) by (unfold dim0; now rewrite Hs).
  assert (D1 : dim1 b = dim1 a) by (unfold dim1; now rewrite Hs).
  assert (D2 : dim2 b = dim2 a) by (unfold dim2; now rewrite Hs).
  set (r := Arr3 (shape3 a) (bzip (bzip (bzip Rplus)) (cells3 a) (cells3 b))).
  assert (Hr : iop3 Rplus a b = Ok r).
  { unfold iop3, inplace_ok. now rewrite D0, D1, D2, !Nat.eqb_refl. }
  assert (Hr' : iop3 Rminus r b = Ok a).
  { unfold iop3, inplace_ok, r, dim0, dim1, dim2. simpl. rewrite Hs, !Nat.eqb_refl.
    simpl. destruct a as [sh cs]. simpl in *. do 2 f_equal.
    apply bzip_roundtrip.
    apply (Forall2_from_Forall _ _ _ cs (cells3 b) ltac:(lia) Wa' Wb').
    intros x y [Lx Fx] [Ly Fy]. apply bzip_roundtrip.
    apply (Forall2_from_Forall _ _ _ x y ltac:(lia) Fx Fy).
    intros u v Lu Lv. simpl in *. apply bzip_roundtrip.
    apply (Forall2_from_Forall (fun _ => True) (fun _ => True) _ u v ltac:(lia)).
    - apply Forall_forall; auto.
    - apply Forall_forall; auto.
    - intros p q _ _. lra. }
  set (l := fresh (dom h)).
  set (s := mkTFR (info A) l (times A) (freqs A) (nave A) (comment A) (method A)).
  set (h1 := <[l := r]> h).
  assert (Hl1 : h1 !! data s = Some r) by apply lookup_insert_eq.
  assert (Ha1 : h1 !! data A = Some a)
    by (unfold h1; rewrite lookup_insert_ne; [exact Ha | eapply fresh_ne; eauto]).
  assert (Hb1 : h1 !! data B = Some b)
    by (unfold h1; rewrite lookup_insert_ne; [exact Hb | eapply fresh_ne; eauto]).
  assert (Hc1 : _check_compat s B = Ok tt) by (apply check_compat_same_axes; assumption).
  exists s, h1. eexists _, _.
  split; [apply (add_spec A B h a b r Ha Hb Hc Hr) |].
  split; [exact Ha1 |]. split; [exact Hb1 |].
  split; [apply (sub_spec s B h1 r b a Hl1 Hb1 Hc1 Hr') |].
  simpl. repeat split.
  - rewrite lookup_insert_ne; [exact Ha1 | eapply fresh_ne; eauto].
  - rewrite lookup_insert_ne; [exact Hb1 | eapply fresh_ne; eauto].
  - rewrite lookup_insert_ne; [reflexivity | eapply fresh_ne; eauto].
  - apply deref_lookup, lookup_insert_eq.
Qed.

(** Axes that differ in a single element, or in length when both lengths
    exceed one, do make the check fail. *)
Lemma check_compat_rejects (self tfr : AverageTFR) :
  (length (times tfr) = length (times self) /\ times tfr <> times self) \/
  (length (freqs tfr) = length (freqs self) /\ freqs tfr <> freqs self) ->
  _check_compat self tfr = Raise AssertionError.
Proof.
  assert (G : forall a b : list R, length a = length b -> a <> b ->
              np_all_eq a b = false).
  { intros a b Hl Hne. unfold np_all_eq, broadcast_extent.
    rewrite Hl, Nat.eqb_refl.
    assert (E : map2_bcast Req_bool a b = zip_with Req_bool a b).
    { destruct a as [|x [|y a]], b as [|x' [|y' b]]; simpl in Hl;
        try discriminate; reflexivity. }
    rewrite E. clear E. apply not_true_is_false. intros Hall. apply Hne. clear Hne.
    revert b Hl Hall. induction a as [|x a IH]; intros [|y b] Hl Hall;
      simpl in *; try discriminate; [reflexivity |].
    apply andb_true_iff in Hall as [H1 H2].
    apply Req_bool_true in H1. subst. f_equal. apply IH; [lia | exact H2]. }
  unfold _check_compat. intros [[Hl Hne] | [Hl Hne]].
  - now rewrite (G _ _ Hl Hne).
  - destruct (np_all_eq (times tfr) (times self)); [| reflexivity].
    simpl. now rewrite (G _ _ Hl Hne).
Qed.

(** C9: the frequency axes [10, 10] and [10] differ, yet the comparison
    [np.all(tfr.freqs == self.freqs)] broadcasts the single frequency and is
    true, the check passes and the sum is computed by broadcasting the
    data. *)
Theorem add_accepts_broadcast_axes :
  freqs tfr_narrow <> freqs tfr_wide /\
  _check_compat tfr_wide tfr_narrow = Ok tt /\
  exists out h',
    __add__ tfr_wide tfr_narrow store_wide_narrow = Ok (out, h') /\
    deref h' (data out) = Arr3 (1, 2, 1)%nat [[[1 + 5]; [2 + 5]]].
Proof.
  assert (Hc : _check_compat tfr_wide tfr_narrow = Ok tt).
  { unfold _check_compat, np_all_eq. simpl. now rewrite !Req_bool_refl. }
  split; [discriminate | split; [exact Hc |]].
  eexists _, _. split.
  - apply (add_spec tfr_wide tfr_narrow store_wide_narrow wide narrow
             (Arr3 (1, 2, 1)%nat [[[1 + 5]; [2 + 5]]])).
    + apply lookup_insert_eq.
    + unfold store_wide_narrow. rewrite lookup_insert_ne by discriminate.
      apply lookup_insert_eq.
    + exact Hc.
    + reflexivity.
  - apply deref_lookup, lookup_insert_eq.
Qed.

End ContainerFacts.

(** ** Worker-count invariance *)

Lemma same_outcome_refl {A} (r : result A) : same_outcome r r.
Proof. destruct r; simpl; auto. Qed.

Lemma same_outcome_bind {A B} (r1 r2 : result A) (k1 k2 : A -> result B) :
  same_outcome r1 r2 -> (forall a, same_outcome (k1 a) (k2 a)) ->
  same_outcome (bind r1 k1) (bind r2 k2).
Proof. destruct r1, r2; simpl; intros H Hk; subst; auto; contradiction. Qed.

Lemma same_outcome_fold {A S} (step1 step2 : S -> A -> result S) (l : list A)
  (r1 r2 : result S) :
  (forall s a, same_outcome (step1 s a) (step2 s a)) ->
  same_outcome r1 r2 ->
  same_outcome (fold_left (fun r a => do s <- r; step1 s a) l r1)
               (fold_left (fun r a => do s <- r; step2 s a) l r2).
Proof.
  intros Hstep. revert r1 r2. induction l as [|a l IH]; simpl; intros r1 r2 H;
    [exact H |].
  apply IH. apply same_outcome_bind; [exact H | intros s; apply Hstep].
Qed.

Lemma mapM_then_map {A B D} (f : A -> result B) (g : B -> D) (l : list A) :
  mapM (fun a => do x <- f a; Ok (g x)) l = (do xs <- mapM f l; Ok (map g xs)).
Proof.
  induction l as [|a l IH]; simpl; [reflexivity |].
  destruct (f a) as [b|e]; simpl; [| reflexivity].
  rewrite IH. destruct (mapM f l); reflexivity.
Qed.

Lemma assign_block_Ok {T} (r c : nat) (src out : array2 T) :
  assign_block r c src = Ok out -> out = src.
Proof.
  unfold assign_block. destruct (_ && _); [now intros [= <-] | discriminate].
Qed.

Module WorkerFacts.
Import Tfr.

Section Workers.

Variable pool : pool_t.

(** The pool applies the task function to every task and returns the
    results in submission order; when a task raises, so does the pool. *)
Hypothesis pool_in_order :
  forall (A B : Type) (n_jobs : Z) (f : A -> result B) (l : list A),
  same_outcome (pool A B n_jobs f l) (mapM f l).

Lemma parallel_func_in_order {A B} (n_jobs : Z) (f : A -> result B) (l : list A) :
  same_outcome (parallel_func pool n_jobs f l) (parallel_func pool 1 f l).
Proof.
  unfold parallel_func. simpl.
  destruct (n_jobs =? 1)%Z; [apply same_outcome_refl | apply pool_in_order].
Qed.

Variables Baseline Mode : Type.
Variable rescale :
  list (list (array2 R)) -> option (list R) -> Baseline -> Mode ->
  result (list (list (array2 R))).

Lemma single_trial_power_invariant (data : array3) (sfreq : R)
  (frequencies : list R) (use_fft : bool) (n_cycles : list R)
  (baseline : Baseline) (baseline_mode : Mode) (times : option (list R))
  (decim n_jobs : Z) (zero_mean : bool) (Fs : option R) :
  same_outcome
    (single_trial_power Baseline Mode rescale pool data sfreq frequencies
       use_fft n_cycles baseline baseline_mode times decim n_jobs zero_mean Fs)
    (single_trial_power Baseline Mode rescale pool data sfreq frequencies
       use_fft n_cycles baseline baseline_mode times decim 1 zero_mean Fs).
Proof.
  unfold single_trial_power.
  apply same_outcome_bind; [apply same_outcome_refl | intros n_times].
  apply same_outcome_bind; [apply same_outcome_refl | intros Ws].
  apply same_outcome_bind; [| intros power; apply same_outcome_refl].
  simpl. destruct (n_jobs =? 1)%Z eqn:E; [apply same_outcome_refl |].
  rewrite mapM_then_map.
  apply same_outcome_bind; [| intros; apply same_outcome_refl].
  unfold parallel_func. rewrite E. apply pool_in_order.
Qed.

Lemma induced_power_cwt_invariant (data : array3) (sfreq : R)
  (frequencies : list R) (use_fft : bool) (n_cycles : list R)
  (decim n_jobs : Z) (zero_mean : bool) :
  same_outcome
    (_induced_power_cwt pool data sfreq frequencies use_fft n_cycles decim
                        n_jobs zero_mean)
    (_induced_power_cwt pool data sfreq frequencies use_fft n_cycles decim
                        1 zero_mean).
Proof.
  unfold _induced_power_cwt.
  apply same_outcome_bind; [apply same_outcome_refl | intros n_times].
  apply same_outcome_bind; [apply same_outcome_refl | intros Ws].
  apply same_outcome_bind; [apply parallel_func_in_order |].
  intros; apply same_outcome_refl.
Qed.

Lemma induced_power_mtm_invariant (dpss_windows : dpss_t) (data : array3)
  (sfreq : R) (frequencies : list R) (time_bandwidth : R) (use_fft : bool)
  (n_cycles : list R) (decim n_jobs : Z) (zero_mean : bool) :
  same_outcome
    (_induced_power_mtm pool dpss_windows data sfreq frequencies
       time_bandwidth use_fft n_cycles decim n_jobs zero_mean)
    (_induced_power_mtm pool dpss_windows data sfreq frequencies
       time_bandwidth use_fft n_cycles decim 1 zero_mean).
Proof.
  unfold _induced_power_mtm.
  apply same_outcome_bind; [apply same_outcome_refl | intros n_times].
  apply same_outcome_bind; [apply same_outcome_refl | intros Ws].
  apply same_outcome_bind; [apply same_outcome_refl | intros _].
  apply same_outcome_bind; [| intros; apply same_outcome_refl].
  apply same_outcome_fold; [| apply same_outcome_refl].
  intros acc Wm.
  apply same_outcome_bind; [apply parallel_func_in_order |].
  intros; apply same_outcome_refl.
Qed.

Lemma induced_power_stockwell_invariant (data : array3) (sfreq : R)
  (fmin fmax : option R) (n_fft : option Z) (width : R) (decim : Z)
  (return_itc : bool) (n_jobs : Z) :
  same_outcome
    (Stockwell._induced_power_stockwell pool data sfreq fmin fmax n_fft width
       decim return_itc n_jobs)
    (Stockwell._induced_power_stockwell pool data sfreq fmin fmax n_fft width
       decim return_itc 1).
Proof.
  unfold Stockwell._induced_power_stockwell.
  apply same_outcome_bind; [apply same_outcome_refl | intros n_out].
  apply same_outcome_bind; [apply same_outcome_refl | intros checked].
  destruct checked as [[[d n_fft_] zero_pad]|]; [| apply same_outcome_refl].
  repeat (apply same_outcome_bind; [apply same_outcome_refl | intros ?]).
  apply same_outcome_bind; [apply parallel_func_in_order |].
  intros; apply same_outcome_refl.
Qed.

(** Whatever the worker count, slot [c] of the output of
    [_induced_power_cwt] holds the reduction of channel [c]. *)
Lemma induced_power_cwt_slots (data : array3) (sfreq : R)
  (frequencies : list R) (use_fft : bool) (n_cycles : list R)
  (decim n_jobs : Z) (zero_mean : bool) (psd plf : list (array2 R)) :
  _induced_power_cwt pool data sfreq frequencies use_fft n_cycles decim
                     n_jobs zero_mean = Ok (psd, plf) ->
  exists Ws,
    morlet sfreq frequencies n_cycles None zero_mean None = Ok Ws /\
    length psd = dim1 data /\ length plf = dim1 data /\
    forall c, (c < dim1 data)%nat ->
    exists psd_c plf_c,
      _time_frequency (channel_slice data c) Ws use_fft decim = Ok (psd_c, plf_c) /\
      nth_error psd c = Some psd_c /\ nth_error plf c = Some plf_c.
Proof.
  unfold _induced_power_cwt. intros H.
  apply bind_Ok in H as (n_times & _ & H).
  apply bind_Ok in H as (Ws & HWs & H).
  apply bind_Ok in H as (psd_plf & Hpar & H).
  apply bind_Ok in H as (slots & Hslots & H).
  inversion H; subst; clear H.
  assert (Hseq : mapM (fun c => _time_frequency (channel_slice data c) Ws use_fft decim)
                      (seq 0 (dim1 data)) = Ok psd_plf).
  { pose proof (parallel_func_in_order n_jobs
                  (fun c => _time_frequency (channel_slice data c) Ws use_fft decim)
                  (seq 0 (dim1 data))) as Hs.
    rewrite Hpar in Hs. unfold parallel_func in Hs. simpl in Hs.
    destruct (mapM _ (seq 0 (dim1 data))); simpl in Hs; [now subst | contradiction]. }
  exists Ws. split; [exact HWs |].
  pose proof (mapM_Ok_length _ _ _ Hseq) as L1. rewrite length_seq in L1.
  pose proof (mapM_Ok_length _ _ _ Hslots) as L2.
  rewrite !length_map. repeat split; try lia.
  intros c Hc.
  destruct (mapM_Ok_nth _ _ _ Hseq c c (nth_error_seq0 _ _ Hc)) as ([p q] & Hpq & Htf).
  destruct (mapM_Ok_nth _ _ _ Hslots c (p, q) Hpq) as ([p' q'] & Hs & Ha).
  apply bind_Ok in Ha as (p0 & Hp0 & Ha). apply bind_Ok in Ha as (q0 & Hq0 & Ha).
  inversion Ha; subst; clear Ha.
  apply assign_block_Ok in Hp0, Hq0. subst.
  exists p, q. split; [exact Htf |].
  rewrite !nth_error_map, Hs. split; reflexivity.
Qed.

(** C7: under the assumption on the pool, every function that fans work out
    to it has, for any worker count, the outcome of its run with one
    worker: the two branches of [single_trial_power] agree, and so do
    [_induced_power_cwt], [_induced_power_mtm] and
    [_induced_power_stockwell]; the output of [_induced_power_cwt] holds at
    position [c] the reduction of channel [c]. *)
Theorem worker_count_invariance (n_jobs : Z) :
  (forall data sfreq frequencies use_fft n_cycles baseline baseline_mode
          times decim zero_mean Fs,
     same_outcome
       (single_trial_power Baseline Mode rescale pool data sfreq frequencies
          use_fft n_cycles baseline baseline_mode times decim n_jobs zero_mean Fs)
       (single_trial_power Baseline Mode rescale pool data sfreq frequencies
          use_fft n_cycles baseline baseline_mode times decim 1 zero_mean Fs)) /\
  (forall data sfreq frequencies use_fft n_cycles decim zero_mean,
     same_outcome
       (_induced_power_cwt pool data sfreq frequencies use_fft n_cycles decim
                           n_jobs zero_mean)
       (_induced_power_cwt pool data sfreq frequencies use_fft n_cycles decim
                           1 zero_mean) /\
     forall psd plf,
       _induced_power_cwt pool data sfreq frequencies use_fft n_cycles decim
                          n_jobs zero_mean = Ok (psd, plf) ->
       exists Ws,
         morlet sfreq frequencies n_cycles None zero_mean None = Ok Ws /\
         forall c, (c < dim1 data)%nat ->
         exists psd_c plf_c,
           _time_frequency (channel_slice data c) Ws use_fft decim
           = Ok (psd_c, plf_c) /\
           nth_error psd c = Some psd_c /\ nth_error plf c = Some plf_c) /\
  (forall dpss_windows data sfreq frequencies time_bandwidth use_fft n_cycles
          decim zero_mean,
     same_outcome
       (_induced_power_mtm pool dpss_windows data sfreq frequencies
          time_bandwidth use_fft n_cycles decim n_jobs zero_mean)
       (_induced_power_mtm pool dpss_windows data sfreq frequencies
          time_bandwidth use_fft n_cycles decim 1 zero_mean)) /\
  (forall data sfreq fmin fmax n_fft width decim return_itc,
     same_outcome
       (Stockwell._induced_power_stockwell pool data sfreq fmin fmax n_fft
          width decim return_itc n_jobs)
       (Stockwell._induced_power_stockwell pool data sfreq fmin fmax n_fft
          width decim return_itc 1)).
Proof.
  split; [intros; apply single_trial_power_invariant |].
  split; [| split; [intros; apply induced_power_mtm_invariant
                   | intros; apply induced_power_stockwell_invariant]].
  intros. split; [apply induced_power_cwt_invariant |].
  intros psd plf H.
  destruct (induced_power_cwt_slots _ _ _ _ _ _ _ _ _ _ H) as (Ws & HWs & _ & _ & Hc).
  eauto.
Qed.

End Workers.

End WorkerFacts.

(** ** Real and complex arithmetic *)

Lemma Rsum_nonneg (l : list R) : Forall (fun x => 0 <= x) l -> 0 <= Rsum l.
Proof. induction 1 as [|x l Hx _ IH]; simpl; lra. Qed.



Lemma sqmod_nonneg (z : C) : 0 <= sqmod z.
Proof. unfold sqmod. nra. Qed.



Lemma Cabs_sqmod (z : C) : Cabs z = sqrt (sqmod z).
Proof. reflexivity. Qed.

Lemma Cabs_nonneg (z : C) : 0 <= Cabs z.
Proof. apply sqrt_pos. Qed.

Lemma Cabs_sqr (z : C) : Cabs z * Cabs z = sqmod z.
Proof. rewrite Cabs_sqmod. apply sqrt_sqrt, sqmod_nonneg. Qed.











(** ** Normalisation of the kernels *)

Module KernelFacts.
Import Tfr.

















End KernelFacts.

(** ** Reduction over trials *)

Lemma nth_repeat_in {T} (a d : T) (n i : nat) :
  (i < n)%nat -> nth i (repeat a n) d = a.
Proof.
  revert i. induction n as [|n IH]; intros [|i] H; simpl; try lia;
    [reflexivity | apply IH; lia].
Qed.

Lemma Cabs_Cdivr (z : C) (r : R) : 0 < r -> Cabs (Cdivr z r) = Cabs z / r.
Proof.
  intros Hr. rewrite !Cabs_sqmod.
  replace (sqmod (Cdivr z r)) with (sqmod z / (r * r))
    by (unfold sqmod, Cdivr; simpl; field; lra).
  rewrite sqrt_div_alt by nra. now rewrite sqrt_square by lra.
Qed.

Lemma Cabs_unit (z : C) : Cabs z <> 0 -> Cabs (Cdivr z (Cabs z)) = 1.
Proof.
  intros Hz. pose proof (Cabs_nonneg z).
  rewrite Cabs_Cdivr by lra. field. exact Hz.
Qed.

Lemma Cabs_triangle (a b : C) : Cabs (Cadd a b) <= Cabs a + Cabs b.
Proof.
  pose proof (Cabs_nonneg a) as Ha. pose proof (Cabs_nonneg b) as Hb.
  pose proof (Cabs_sqr a) as Sa. pose proof (Cabs_sqr b) as Sb.
  rewrite (Cabs_sqmod (Cadd a b)).
  rewrite <- (sqrt_square (Cabs a + Cabs b)) by lra.
  apply sqrt_le_1_alt.
  destruct a as [p q], b as [u v]. unfold sqmod, Cadd in *. simpl in *.
  generalize dependent (Cabs {| Re := p; Im := q |}). intros x Ha Sa.
  generalize dependent (Cabs {| Re := u; Im := v |}). intros y Hb Sb.
  assert (Hxy : 0 <= x * y) by nra.
  assert (Hsq : (p * u + q * v) * (p * u + q * v) <= (x * y) * (x * y)).
  { replace (x * y * (x * y)) with ((x * x) * (y * y)) by ring.
    rewrite Sa, Sb. pose proof (Rle_0_sqr (p * v - q * u)) as H.
    unfold Rsqr in H. nra. }
  assert (Hcs : p * u + q * v <= x * y).
  { destruct (Rle_dec (p * u + q * v) (x * y)) as [Hle | Hgt]; [exact Hle |].
    exfalso. assert (x * y < p * u + q * v) by lra. nra. }
  nra.
Qed.

Lemma Cabs_C0 : Cabs C0 = 0.
Proof.
  rewrite Cabs_sqmod. unfold sqmod, C0. simpl.
  replace (0 * 0 + 0 * 0) with 0 by lra. apply sqrt_0.
Qed.

Lemma Cabs_Csum (l : list C) : Cabs (Csum l) <= Rsum (map Cabs l).
Proof.
  induction l as [|z l IH]; simpl; [rewrite Cabs_C0; lra |].
  pose proof (Cabs_triangle z (Csum l)). lra.
Qed.

Lemma Rsum_ones (l : list R) :
  Forall (fun x => x = 1) l -> Rsum l = INR (length l).
Proof.
  induction 1 as [|x l Hx _ IH]; [reflexivity |].
  change (length (x :: l)) with (S (length l)). rewrite S_INR. simpl. lra.
Qed.

Lemma Cadd_assoc (a b c : C) : Cadd (Cadd a b) c = Cadd a (Cadd b c).
Proof. unfold Cadd. simpl. f_equal; lra. Qed.

Lemma Cadd_C0_l (a : C) : Cadd C0 a = a.
Proof. destruct a. unfold Cadd, C0. simpl. f_equal; lra. Qed.

Lemma nth_map_seq {T} (g : nat -> T) (n j : nat) (d : T) :
  (j < n)%nat -> nth j (map g (seq 0 n)) d = g j.
Proof.
  intros H. rewrite (nth_indep _ d (g 0%nat)) by (rewrite length_map, length_seq; exact H).
  rewrite map_nth, seq_nth by exact H. reflexivity.
Qed.

Module ReductionFacts.
Import Tfr ShapeFacts.

Lemma slice_count_kept (n : nat) (decim : Z) :
  (0 < decim)%Z ->
  Z.to_nat (slice_count 0 (Z.of_nat n) decim) = kept n decim.
Proof.
  intros Hd. unfold slice_count, kept.
  destruct (decim <? 0)%Z eqn:E; [apply Z.ltb_lt in E; lia |].
  set (N := Z.of_nat n). assert (HN : (0 <= N)%Z) by (unfold N; lia).
  pose proof (Z.div_mod N decim ltac:(lia)) as Hdm.
  pose proof (Z.mod_pos_bound N decim Hd) as Hr.
  destruct (0 <? N)%Z eqn:E0.
  - apply Z.ltb_lt in E0. f_equal. rewrite Z.sub_0_r.
    destruct (N mod decim =? 0)%Z eqn:Er; simpl.
    + apply Z.eqb_eq in Er.
      rewrite <- (Z.div_unique (N - 1) decim (N / decim - 1) (decim - 1)); lia.
    + apply Z.eqb_neq in Er.
      rewrite <- (Z.div_unique (N - 1) decim (N / decim) (N mod decim - 1)); lia.
  - apply Z.ltb_ge in E0. assert (N = 0%Z) by lia.
    rewrite H. rewrite Z.div_0_l, Z.mod_0_l by lia. reflexivity.
Qed.

Lemma py_slice_stride {T} (d : T) (row : list T) (decim : Z) :
  (0 < decim)%Z -> py_slice d row None None decim = Ok (stride d decim row).
Proof.
  intros Hd. unfold py_slice, stride.
  destruct (decim =? 0)%Z eqn:E0; [apply Z.eqb_eq in E0; lia |].
  destruct (decim <? 0)%Z eqn:E1; [apply Z.ltb_lt in E1; lia |].
  rewrite slice_count_kept by exact Hd. reflexivity.
Qed.

Lemma decim_len_kept (n : nat) (decim : Z) :
  (0 < decim)%Z ->
  (do m <- decim_len (Z.of_nat n) decim; check_extent m) = Ok (kept n decim).
Proof.
  intros Hd. unfold decim_len, floordiv, pymod.
  destruct (decim =? 0)%Z eqn:E0; [apply Z.eqb_eq in E0; lia |]. simpl.
  unfold check_extent, kept.
  pose proof (Z.div_pos (Z.of_nat n) decim ltac:(lia) Hd).
  assert (0 <= bool_to_Z (negb (Z.of_nat n mod decim =? 0)%Z))%Z
    by (destruct (negb _); simpl; lia).
  destruct (_ <? 0)%Z eqn:E; [apply Z.ltb_lt in E; lia | reflexivity].
Qed.

Lemma shaped_map2d {T U} (f : T -> U) (r c : nat) (a : array2 T) :
  shaped r c a -> shaped r c (map2d f a).
Proof.
  intros (Hr & Hc & Hl & Hrows). unfold shaped, map2d; simpl.
  rewrite length_map. repeat split; auto.
  apply List.Forall_forall. intros row Hin.
  apply in_map_iff in Hin as (row0 & <- & Hin0). rewrite length_map.
  rewrite List.Forall_forall in Hrows. auto.
Qed.

Lemma get2_map2d {T U} (f : T -> U) (r c : nat) (a : array2 T) (i j : nat)
  (d : T) (d' : U) :
  shaped r c a -> (i < r)%nat -> (j < c)%nat ->
  get2 d' (map2d f a) i j = f (get2 d a i j).
Proof.
  intros (Hr & Hc & Hl & Hrows) Hi Hj. unfold get2, map2d; simpl.
  rewrite (nth_indep _ [] (map f [])) by (rewrite length_map; lia).
  rewrite map_nth.
  rewrite (nth_indep _ d' (f d))
    by (rewrite length_map, (Forall_nth_length c); auto; lia).
  apply map_nth.
Qed.

Lemma shaped_zeros2 {T} (z : T) (r c : nat) : shaped r c (zeros2 z r c).
Proof.
  unfold shaped, zeros2; simpl. rewrite repeat_length. repeat split.
  apply List.Forall_forall. intros row Hin. apply repeat_spec in Hin. subst.
  apply repeat_length.
Qed.

Lemma get2_zeros2 {T} (z d : T) (r c i j : nat) :
  (i < r)%nat -> (j < c)%nat -> get2 d (zeros2 z r c) i j = z.
Proof.
  intros Hi Hj. unfold get2, zeros2; simpl.
  rewrite nth_repeat_in by exact Hi. now apply nth_repeat_in.
Qed.

(** Decimation of a yielded array. *)
Lemma decimate_shaped {T} (d : T) (decim : Z) (r c : nat) (a : array2 T) :
  (0 < decim)%Z -> shaped r c a ->
  exists a',
    decimate d decim a = Ok a' /\ shaped r (kept c decim) a' /\
    forall i j, (i < r)%nat -> (j < kept c decim)%nat ->
      get2 d a' i j = get2 d a i (Z.to_nat (Z.of_nat j * decim)).
Proof.
  intros Hd (Hr & Hc & Hl & Hrows). unfold decimate.
  rewrite py_slice_stride by exact Hd. simpl.
  rewrite (mapM_total _ (stride d decim))
    by (intros; now apply py_slice_stride).
  simpl. eexists; split; [reflexivity |].
  assert (Hix : length (stride 0%nat decim (seq 0 (ncols a))) = kept c decim)
    by (unfold stride; now rewrite length_map, length_seq, length_seq, Hc).
  rewrite Hix. split.
  - unfold shaped; simpl. rewrite length_map. repeat split; auto.
    apply List.Forall_forall. intros row Hin.
    apply in_map_iff in Hin as (row0 & <- & Hin0).
    rewrite List.Forall_forall in Hrows.
    unfold stride. now rewrite length_map, length_seq, (Hrows row0 Hin0).
  - intros i j Hi Hj. unfold get2; simpl.
    rewrite (nth_indep _ [] (stride d decim [])) by (rewrite length_map; lia).
    rewrite map_nth. unfold stride.
    rewrite (Forall_nth_length c) by (auto; lia).
    now rewrite nth_map_seq by exact Hj.
Qed.

(** One trial more in the two running sums. *)
Lemma step_spec (decim : Z) (r c : nat) (acc : array2 R * array2 C)
  (tfr : array2 C) :
  (0 < decim)%Z ->
  shaped r (kept c decim) (fst acc) -> shaped r (kept c decim) (snd acc) ->
  shaped r c tfr ->
  exists acc',
    step decim acc tfr = Ok acc' /\
    shaped r (kept c decim) (fst acc') /\ shaped r (kept c decim) (snd acc') /\
    forall i j, (i < r)%nat -> (j < kept c decim)%nat ->
      get2 0 (fst acc') i j
      = get2 0 (fst acc) i j + Cabs (coef decim tfr i j) ^ 2 /\
      get2 C0 (snd acc') i j
      = Cadd (get2 C0 (snd acc) i j) (unit_phase (coef decim tfr i j)).
Proof.
  intros Hd Hp Hq Ht. unfold step.
  destruct (decimate_shaped C0 decim r c tfr Hd Ht) as (t' & -> & Ht' & Hget).
  cbn [bind].
  pose proof (shaped_map2d Cabs _ _ _ Ht') as Habs.
  pose proof (shaped_map2d (fun a => a ^ 2) _ _ _ Habs) as Hsq.
  pose proof (shaped_map2d (fun z => Cdivr z (Cabs z)) _ _ _ Ht') as Hun.
  destruct (iop2_same Rplus _ _ _ _ Hp Hsq) as (psd & -> & Hpsd & Gp).
  destruct (iop2_same Cadd _ _ _ _ Hq Hun) as (plf & -> & Hplf & Gq).
  cbn [bind]. eexists; split; [reflexivity |]. cbn [fst snd].
  split; [exact Hpsd |]. split; [exact Hplf |].
  intros i j Hi Hj. split.
  - rewrite (Gp i j 0 0 Hi Hj).
    rewrite (get2_map2d _ _ _ _ i j 0 0 Habs Hi Hj).
    rewrite (get2_map2d _ _ _ _ i j C0 0 Ht' Hi Hj).
    now rewrite (Hget i j Hi Hj).
  - rewrite (Gq i j C0 C0 Hi Hj).
    rewrite (get2_map2d _ _ _ _ i j C0 C0 Ht' Hi Hj).
    now rewrite (Hget i j Hi Hj).
Qed.

(** The two running sums after all the trials of [l]. *)
Lemma accumulate (decim : Z) (r c : nat) (l : list (array2 C)) :
  (0 < decim)%Z ->
  Forall (shaped r c) l ->
  forall acc,
  shaped r (kept c decim) (fst acc) -> shaped r (kept c decim) (snd acc) ->
  exists acc',
    fold_left (fun res v => do s <- res; step decim s v) l (Ok acc) = Ok acc' /\
    shaped r (kept c decim) (fst acc') /\ shaped r (kept c decim) (snd acc') /\
    forall i j, (i < r)%nat -> (j < kept c decim)%nat ->
      get2 0 (fst acc') i j
      = get2 0 (fst acc) i j
        + Rsum (map (fun tfr => Cabs (coef decim tfr i j) ^ 2) l) /\
      get2 C0 (snd acc') i j
      = Cadd (get2 C0 (snd acc) i j)
             (Csum (map (fun tfr => unit_phase (coef decim tfr i j)) l)).
Proof.
  intros Hd Hl. induction Hl as [|tfr l Ht _ IH]; intros acc Hp Hq.
  - exists acc. simpl. split; [reflexivity |]. split; [exact Hp |].
    split; [exact Hq |]. intros i j _ _. split; [lra |].
    destruct (get2 C0 (snd acc) i j). unfold Cadd, C0. simpl. f_equal; lra.
  - destruct (step_spec decim r c acc tfr Hd Hp Hq Ht) as (acc1 & E1 & Hp1 & Hq1 & G1).
    destruct (IH acc1 Hp1 Hq1) as (acc' & E' & Hp' & Hq' & G').
    exists acc'. cbn [fold_left bind]. rewrite E1. split; [exact E' |].
    split; [exact Hp' |]. split; [exact Hq' |].
    intros i j Hi Hj. destruct (G1 i j Hi Hj) as [A1 B1].
    destruct (G' i j Hi Hj) as [A' B']. split.
    + rewrite A', A1. unfold Rsum. cbn [map fold_right]. lra.
    + rewrite B', B1. unfold Csum. cbn [map fold_right]. apply Cadd_assoc.
Qed.

Lemma decim_len_extent (n : nat) (decim : Z) :
  (0 < decim)%Z ->
  exists m, decim_len (Z.of_nat n) decim = Ok m /\
            check_extent m = Ok (kept n decim).
Proof.
  intros Hd. pose proof (decim_len_kept n decim Hd) as H.
  apply bind_Ok in H. exact H.
Qed.

Lemma time_frequency_unfold (X : array2 R) (Ws : list (list C))
  (use_fft : bool) (decim : Z) :
  _time_frequency X Ws use_fft decim
  = (do n <- decim_len (Z.of_nat (ncols X)) decim;
     do n <- check_extent n;
     do acc <- consume (engine use_fft X Ws) (step decim)
                       (zeros2 0 (length Ws) n, zeros2 C0 (length Ws) n);
     Ok (map2d (fun v => v / INR (nrows X)) (fst acc),
         map2d (fun z => Cabs z / INR (nrows X)) (snd acc))).
Proof. reflexivity. Qed.

Lemma Cabs_pos_Re (z : C) : Re z <> 0 -> Cabs z <> 0.
Proof.
  intros H. rewrite Cabs_sqmod.
  assert (0 < sqmod z) by (unfold sqmod; nra).
  assert (0 < sqrt (sqmod z)) by (now apply sqrt_lt_R0). lra.
Qed.

(** C6: when the engine delivers the coefficients of every trial of a
    non-empty batch and the decimated coefficients have nonzero magnitude,
    [_time_frequency] returns the mean over the trials of the squared
    magnitudes and the magnitude of the mean over the trials of the
    coefficients scaled to magnitude one; the latter lies between 0 and
    1. *)
Theorem time_frequency_reduction (X : array2 R) (Ws : list (list C))
  (use_fft : bool) (decim : Z) :
  let tfrs := yielded (engine use_fft X Ws) in
  let n_out := kept (ncols X) decim in
  (0 < decim)%Z ->
  length (rows X) = nrows X -> (1 <= nrows X)%nat ->
  stopped (engine use_fft X Ws) = None ->
  (forall tfr i j, In tfr tfrs -> (i < length Ws)%nat -> (j < n_out)%nat ->
                   Cabs (coef decim tfr i j) <> 0) ->
  exists psd plf,
    _time_frequency X Ws use_fft decim = Ok (psd, plf) /\
    shaped (length Ws) n_out psd /\ shaped (length Ws) n_out plf /\
    forall i j, (i < length Ws)%nat -> (j < n_out)%nat ->
      get2 0 psd i j
      = Rmean (map (fun tfr => Cabs (coef decim tfr i j) ^ 2) tfrs) /\
      get2 0 plf i j
      = Cabs (Cmean (map (fun tfr => unit_phase (coef decim tfr i j)) tfrs)) /\
      0 <= get2 0 plf i j <= 1.
Proof.
  intros tfrs n_out Hd Hwf Hne Hstop Hnz.
  rewrite time_frequency_unfold.
  destruct (decim_len_extent (ncols X) decim Hd) as (m & -> & Hm).
  cbn [bind]. rewrite Hm. cbn [bind]. fold n_out.
  assert (Hsh : Forall (shaped (length Ws) (ncols X)) tfrs)
    by (apply List.Forall_forall; intros t Ht; eapply engine_shaped; eauto).
  destruct (accumulate decim (length Ws) (ncols X) tfrs Hd Hsh
              (zeros2 0 (length Ws) n_out, zeros2 C0 (length Ws) n_out)
              (shaped_zeros2 _ _ _) (shaped_zeros2 _ _ _))
    as (acc & Hfold & Hp & Hq & G).
  unfold consume. fold tfrs. rewrite Hfold. cbn [bind]. rewrite Hstop. cbn [bind].
  eexists _, _. split; [reflexivity |].
  split; [now apply shaped_map2d |]. split; [now apply shaped_map2d |].
  intros i j Hi Hj. destruct (G i j Hi Hj) as [Gp Gq].
  cbn [fst snd] in Gp, Gq.
  rewrite (get2_zeros2 0 0) in Gp by assumption.
  rewrite (get2_zeros2 C0 C0) in Gq by assumption.
  rewrite Cadd_C0_l in Gq.
  assert (Hlen : length tfrs = nrows X)
    by (unfold tfrs; rewrite engine_complete; assumption).
  assert (Hn : 0 < INR (nrows X)) by (apply lt_0_INR; lia).
  set (us := map (fun tfr => unit_phase (coef decim tfr i j)) tfrs) in *.
  assert (Hplf : get2 0 (map2d (fun z => Cabs z / INR (nrows X)) (snd acc)) i j
                 = Cabs (Csum us) / INR (nrows X)).
  { rewrite (get2_map2d _ _ _ _ i j C0 0 Hq Hi Hj). now rewrite Gq. }
  split; [| split].
  - rewrite (get2_map2d _ _ _ _ i j 0 0 Hp Hi Hj), Gp.
    unfold Rmean. rewrite length_map, Hlen. lra.
  - rewrite Hplf. unfold Cmean.
    assert (Hus : length us = nrows X) by (unfold us; now rewrite length_map).
    rewrite Hus. now rewrite Cabs_Cdivr by exact Hn.
  - rewrite Hplf. pose proof (Cabs_nonneg (Csum us)) as H0.
    pose proof (Cabs_Csum us) as Hsum.
    assert (Hone : Rsum (map Cabs us) = INR (nrows X)).
    { rewrite Rsum_ones.
      - unfold us. now rewrite !length_map, Hlen.
      - apply List.Forall_forall. intros x Hx.
        apply in_map_iff in Hx as (u & <- & Hu).
        unfold us in Hu. apply in_map_iff in Hu as (tfr & <- & Htfr).
        apply Cabs_unit. now apply Hnz. }
    split.
    + apply Rmult_le_pos; [exact H0 | left; now apply Rinv_0_lt_compat].
    + apply (Rmult_le_reg_r (INR (nrows X))); [exact Hn |].
      unfold Rdiv. rewrite Rmult_assoc, Rinv_l by lra. lra.
Qed.

Lemma time_frequency_reduction_witness :
  exists psd plf,
    _time_frequency (Arr2 1 1 [[1]]) [[RtoC 1]] false 1 = Ok (psd, plf) /\
    0 <= get2 0 plf 0 0 <= 1.
Proof.
  destruct (time_frequency_reduction (Arr2 1 1 [[1]]) [[RtoC 1]] false 1)
    as (psd & plf & Htf & _ & _ & H).
  - lia.
  - reflexivity.
  - simpl; lia.
  - reflexivity.
  - intros tfr i j Hin Hi Hj. simpl in Hin. destruct Hin as [<- | []].
    simpl in Hi. assert (i = 0%nat) by lia. subst i.
    assert (j = 0%nat) by (vm_compute in Hj; lia). subst j.
    apply Cabs_pos_Re. unfold coef, get2. simpl. lra.
  - exists psd, plf. split; [exact Htf |].
    apply (H 0%nat 0%nat); [simpl; lia | vm_compute; lia].
Defined.

End ReductionFacts.

(** ** The engines run to the end on kernels that fit *)

Lemma gen_for_runs {A B} (body : A -> result B) (l : list A) :
  (forall a, In a l -> exists b, body a = Ok b) ->
  stopped (gen_for body l) = None.
Proof.
  induction l as [|a l IH]; simpl; intros H; [reflexivity |].
  destruct (H a) as [b ->]; [now left |]. simpl. apply IH. intros; apply H; now right.
Qed.

Lemma length_dft (sign : R) (x : list C) : length (dft sign x) = length x.
Proof. unfold dft. now rewrite length_map, length_seq. Qed.

Lemma length_ifft (x : list C) : length (ifft x) = length x.
Proof. unfold ifft. now rewrite length_map, length_dft. Qed.

Lemma length_fftn (x : list C) (n : nat) : length (fftn x n) = n.
Proof.
  unfold fftn, fft, pad_to. rewrite length_dft, length_app, length_firstn, repeat_length. lia.
Qed.

Lemma length_conv_full (x : list R) (w : list C) :
  length (conv_full x w) = (length x + length w - 1)%nat.
Proof. unfold conv_full. now rewrite length_map, length_seq. Qed.

Lemma adjust_index_in (len i : Z) :
  (0 <= i <= len)%Z -> adjust_index len 1 i = i.
Proof.
  intros H. unfold adjust_index.
  destruct (i <? 0)%Z eqn:E; [apply Z.ltb_lt in E; lia |].
  destruct (len <=? i)%Z eqn:E'; [apply Z.leb_le in E'; simpl; lia | reflexivity].
Qed.

Lemma length_py_slice1 {T} (l : list T) (s e : Z) :
  (0 <= s <= e)%Z -> (e <= Z.of_nat (length l))%Z ->
  length (py_slice1 l s e) = Z.to_nat (e - s).
Proof.
  intros H1 H2. unfold py_slice1.
  rewrite !adjust_index_in by lia.
  rewrite length_firstn, length_skipn. lia.
Qed.

Module EngineRuns.
Import Tfr ShapeFacts.

Lemma length_centered (ret : list C) (n w : nat) :
  (1 <= w)%nat -> length ret = (n + w - 1)%nat ->
  length (_centered ret (Z.of_nat n)) = n.
Proof.
  intros Hw Hl. unfold _centered. rewrite Hl.
  set (k := ((Z.of_nat (n + w - 1) - Z.of_nat n) / 2)%Z).
  assert (Hk : (0 <= k <= Z.of_nat w - 1)%Z).
  { unfold k. replace (Z.of_nat (n + w - 1) - Z.of_nat n)%Z
      with (Z.of_nat w - 1)%Z by lia.
    split; [apply Z.div_pos; lia | apply Z.div_le_upper_bound; lia]. }
  rewrite length_py_slice1 by (rewrite ?Hl; lia). lia.
Qed.

Lemma assign_row_same {T} (width : nat) (src : list T) :
  length src = width -> assign_row width src = Ok src.
Proof. intros H. unfold assign_row. now rewrite H, Nat.eqb_refl. Qed.

Lemma fft_size_ge (size : Z) :
  (1 <= size)%Z ->
  exists fsize, fft_size size = Ok fsize /\ (size <= Z.of_nat fsize)%Z.
Proof.
  intros H. unfold fft_size.
  destruct (size =? 0)%Z eqn:E0; [apply Z.eqb_eq in E0; lia |].
  destruct (size <? 0)%Z eqn:E1; [apply Z.ltb_lt in E1; lia |].
  eexists; split; [reflexivity |].
  pose proof (Z.log2_log2_up_spec size ltac:(lia)) as [_ Hup]. lia.
Qed.

(** In mode [same], on a bank that is not empty and whose kernels are not
    empty and not longer than the signals, both engines yield one array per
    trial and stop without an exception. *)
Lemma engine_same_runs (use_fft : bool) (X : array2 R) (Ws : list (list C)) :
  Ws <> [] ->
  Forall (fun W => (1 <= length W <= ncols X)%nat) Ws ->
  Forall (fun x => length x = ncols X) (rows X) ->
  stopped (engine use_fft X Ws) = None.
Proof.
  intros Hne HW HX. rewrite List.Forall_forall in HW, HX.
  destruct use_fft; simpl.
  - unfold _cwt_fft. destruct Ws as [|W0 Ws']; [congruence |].
    set (Ws := W0 :: Ws') in *.
    destruct (EngineFacts.max_size_ge Ws W0 ltac:(now left)) as (m & Hmax & Hm).
    rewrite Hmax.
    pose proof (HW W0 ltac:(now left)) as H0.
    cbn [bind].
    destruct (fft_size_ge (Z.of_nat (ncols X) + Z.of_nat m - 1) ltac:(lia))
      as (fsize & -> & Hfs).
    cbn [bind].
    rewrite (mapM_total _ (fun W => fftn W fsize)).
    2:{ intros W HWin. destruct (HW W HWin) as [_ Hle].
        apply Nat.ltb_ge in Hle. now rewrite Hle. }
    cbn [bind]. apply gen_for_runs. intros x Hx.
    match goal with |- context [mapM ?f ?l] =>
      destruct (mapM_all_Ok f l) as [tfr ->]
    end; [| simpl; eauto].
    intros [W fW] Hin. pose proof (in_combine_l _ _ _ _ Hin) as HWin.
    apply in_combine_r, in_map_iff in Hin as (W' & <- & _).
    destruct (HW W HWin) as [Hw1 Hw2].
    unfold place_row. eexists. apply assign_row_same.
    apply (length_centered _ _ (length W)); [exact Hw1 |].
    assert (Hmw : (length W <= m)%nat).
    { destruct (EngineFacts.max_size_ge Ws W HWin) as (m' & Hm' & Hle).
      rewrite Hmax in Hm'. inversion Hm'; subst. exact Hle. }
    rewrite length_py_slice1.
    + lia.
    + lia.
    + rewrite length_ifft, length_zip_with_same; rewrite !length_fftn; lia.
  - unfold _cwt_convolve. apply gen_for_runs. intros x Hx.
    pose proof (HX x Hx) as Hlx.
    match goal with |- context [mapM ?f ?l] =>
      destruct (mapM_all_Ok f l) as [tfr ->]
    end; [| simpl; eauto].
    intros W HWin. destruct (HW W HWin) as [Hw1 Hw2].
    assert (Hconv : np_convolve x W Same
                    = Ok (firstn (Nat.max (length x) (length W))
                            (skipn ((Nat.min (length x) (length W) - 1) / 2)
                                   (conv_full x W)))).
    { destruct x as [|a x]; [simpl in Hlx; lia |].
      destruct W as [|b W]; [simpl in Hw1; lia | reflexivity]. }
    rewrite Hconv. cbn [bind].
    assert (Hlt : (length x <? length W)%nat = false) by (apply Nat.ltb_ge; lia).
    rewrite Hlt. unfold place_row. eexists. apply assign_row_same.
    rewrite length_firstn, length_skipn, length_conv_full.
    assert ((Nat.min (length x) (length W) - 1) / 2 <= length W - 1)%nat.
    { rewrite Nat.min_r by lia. apply Nat.Div0.div_le_upper_bound. lia. }
    lia.
Qed.

(** In mode [full] the row that receives the centre crop has the extent of
    the FFT: as soon as the first kernel has two samples or more (and fits a
    signal of two samples or more), the first trial raises. *)
Lemma cwt_fft_full_raises (X : array2 R) (W0 : list C) (Ws : list (list C))
  (x : list R) (xs : list (list R)) :
  rows X = x :: xs ->
  (2 <= length W0)%nat ->
  Forall (fun W => (length W <= ncols X)%nat) (W0 :: Ws) ->
  _cwt_fft X (W0 :: Ws) Full
  = Trace [] (Some (ValueError "could not broadcast input array")).
Proof.
  intros HX Hw HW. rewrite List.Forall_forall in HW.
  pose proof (HW W0 ltac:(now left)) as H0.
  unfold _cwt_fft.
  destruct (EngineFacts.max_size_ge (W0 :: Ws) W0 ltac:(now left))
    as (m & Hmax & Hm).
  rewrite Hmax. cbn [bind].
  destruct (fft_size_ge (Z.of_nat (ncols X) + Z.of_nat m - 1) ltac:(lia))
    as (fsize & -> & Hfs).
  cbn [bind].
  rewrite (mapM_total _ (fun W => fftn W fsize)).
  2:{ intros W HWin. pose proof (HW W HWin) as Hle.
      apply Nat.ltb_ge in Hle. now rewrite Hle. }
  cbn [bind]. rewrite HX. cbn [gen_for map combine mapM].
  set (ret := py_slice1 _ _ _).
  assert (Hret : length (_centered ret (Z.of_nat (ncols X))) = ncols X).
  { apply (length_centered _ _ (length W0)); [lia |].
    unfold ret. rewrite length_py_slice1.
    - lia.
    - lia.
    - rewrite length_ifft, length_zip_with_same; rewrite !length_fftn; lia. }
  unfold place_row, assign_row. rewrite Hret.
  destruct (ncols X =? fsize)%nat eqn:E; [apply Nat.eqb_eq in E; lia |].
  destruct (_centered ret (Z.of_nat (ncols X))) as [|v [|v' l]];
    simpl in Hret; try lia; reflexivity.
Qed.

End EngineRuns.

(** * Further properties *)

(** ** Stockwell preprocessing and windows *)

Module StockwellExtras.
Import Stockwell.

(** X1: whenever [_check_input_st] returns a triple, the padding is
    positive, the FFT length is the number of samples plus the padding, the
    returned batch has that many samples per row, each row being the
    original row followed by zeros, and the batch is still well formed. *)
Theorem check_input_st_returns (x_in : array3) (n_fft : option Z)
  (x_out : array3) (n_fft_ zero_pad : Z) :
  wf_array3 x_in ->
  _check_input_st x_in n_fft = Ok (Some (x_out, n_fft_, zero_pad)) ->
  (0 < zero_pad)%Z /\
  n_fft_ = (Z.of_nat (dim2 x_in) + zero_pad)%Z /\
  shape3 x_out = (dim0 x_in, dim1 x_in, Z.to_nat n_fft_) /\
  cells3 x_out
  = map (map (fun r => r ++ repeat 0 (Z.to_nat zero_pad))) (cells3 x_in) /\
  wf_array3 x_out.
Proof.
  intros [W0 W1] H. unfold _check_input_st in H.
  apply bind_Ok in H as (L & _ & H).
  destruct (Z.of_nat (dim2 x_in) <? L)%Z eqn:E; [| discriminate].
  apply Z.ltb_lt in E. inversion H; subst; clear H.
  split; [lia |]. split; [lia |]. split.
  - unfold zero_pad_last. simpl. repeat f_equal. lia.
  - split; [reflexivity |]. unfold wf_array3, zero_pad_last, dim0, dim1, dim2.
    simpl. rewrite length_map. split; [exact W0 |].
    apply List.Forall_forall. intros m Hm.
    apply in_map_iff in Hm as (m0 & <- & Hm0).
    rewrite List.Forall_forall in W1. destruct (W1 m0 Hm0) as [L1 L2].
    rewrite length_map. split; [exact L1 |].
    apply List.Forall_forall. intros r Hr.
    apply in_map_iff in Hr as (r0 & <- & Hr0).
    rewrite List.Forall_forall in L2.
    rewrite length_app, repeat_length, (L2 r0 Hr0). reflexivity.
Qed.

Lemma check_input_st_returns_witness :
  (0 < 3)%Z /\ 8%Z = (Z.of_nat (dim2 five) + 3)%Z.
Proof.
  destruct (check_input_st_returns five (Some 3%Z)
              (Arr3 (1, 1, 8)%nat [[[1; 2; 3; 4; 5; 0; 0; 0]]]) 8 3)
    as (H1 & H2 & _).
  - split; [reflexivity | repeat constructor].
  - reflexivity.
  - split; [exact H1 | exact H2].
Defined.

(** X2: a requested FFT length above the number of samples is used as it
    is, power of two or not: the batch is padded up to it. *)
Theorem check_input_st_larger_n_fft (x_in : array3) (n_fft : Z) :
  (Z.of_nat (dim2 x_in) < n_fft)%Z ->
  _check_input_st x_in (Some n_fft)
  = Ok (Some (zero_pad_last x_in (Z.to_nat (n_fft - Z.of_nat (dim2 x_in))),
              n_fft, (n_fft - Z.of_nat (dim2 x_in))%Z)).
Proof.
  intros H. unfold _check_input_st.
  assert (E : (n_fft <? Z.of_nat (dim2 x_in))%Z = false) by (apply Z.ltb_ge; lia).
  rewrite E, andb_false_r. simpl.
  assert (E' : (Z.of_nat (dim2 x_in) <? n_fft)%Z = true) by (apply Z.ltb_lt; lia).
  now rewrite E'.
Qed.

Lemma check_input_st_larger_n_fft_witness :
  _check_input_st five (Some 7%Z)
  = Ok (Some (zero_pad_last five 2, 7%Z, 2%Z)).
Proof.
  apply (check_input_st_larger_n_fft five 7). vm_compute. reflexivity.
Defined.

(** X3: whenever no padding is needed (the number of samples is a power of
    two below [2 ^ 29] under the default FFT length, where the logarithm in
    floating point is the exact one, or is the requested FFT length),
    [_induced_power_stockwell] stops with a [TypeError] on the [None] that
    [_check_input_st] hands back, whatever the other arguments. *)
Theorem stockwell_fails_without_padding (pool : pool_t) (data : array3)
  (sfreq : R) (fmin fmax : option R) (n_fft : option Z) (width : R)
  (decim : Z) (return_itc : bool) (n_jobs : Z) :
  let n_times := Z.of_nat (dim2 data) in
  decim <> 0%Z -> (0 < n_times)%Z ->
  (n_fft = None /\ (2 ^ Z.log2_up n_times)%Z = n_times /\
   (n_times < 2 ^ 29)%Z) \/
  n_fft = Some n_times ->
  _induced_power_stockwell pool data sfreq fmin fmax n_fft width decim
                           return_itc n_jobs
  = Raise (TypeError "'NoneType' object is not iterable").
Proof.
  intros n_times Hd Hpos Hn.
  assert (Hc : _check_input_st data n_fft = Ok None).
  { destruct Hn as [(-> & Hpow & _) | ->].
    - apply StockwellFacts.check_input_st_no_padding; auto.
    - unfold _check_input_st. fold n_times.
      rewrite Z.ltb_irrefl, andb_false_r. simpl. now rewrite Z.ltb_irrefl. }
  unfold _induced_power_stockwell, decim_len, floordiv, pymod.
  destruct (decim =? 0)%Z eqn:E; [apply Z.eqb_eq in E; contradiction |].
  simpl. now rewrite Hc.
Qed.

Lemma stockwell_fails_without_padding_witness :
  _induced_power_stockwell sequential_pool tiny 100 None None None 1 1 false 1
  = Raise (TypeError "'NoneType' object is not iterable").
Proof.
  apply (stockwell_fails_without_padding sequential_pool tiny 100 None None
           None 1 1 false 1).
  - discriminate.
  - vm_compute. reflexivity.
  - left. split; [reflexivity |]. split; vm_compute; reflexivity.
Defined.

Lemma land_pred_pow2 (k : Z) : (0 <= k)%Z -> Z.land (2 ^ k) (2 ^ k - 1) = 0%Z.
Proof.
  intros Hk. replace (2 ^ k - 1)%Z with (Z.ones k)
    by (rewrite Z.ones_equiv; lia).
  apply Z.bits_inj'. intros i Hi.
  rewrite Z.land_spec, Z.bits_0, Z.pow2_bits_eqb by lia.
  destruct (Z.eqb_spec k i) as [<- | Hne]; [| reflexivity].
  rewrite Z.ones_spec_high by lia. reflexivity.
Qed.

Lemma land_pred_zero_pow2 (p : positive) :
  Z.land (Z.pos p) (Z.pos p - 1) = 0%Z ->
  exists k, (0 <= k)%Z /\ Z.pos p = (2 ^ k)%Z.
Proof.
  induction p as [q IH | q IH |]; intros H.
  - exfalso. set (n := Z.pos q) in *.
    assert (Hb : Z.testbit (Z.land (Z.pos q~1) (Z.pos q~1 - 1))
                           (Z.succ (Z.log2 n)) = true).
    { rewrite Z.land_spec.
      replace (Z.pos q~1) with (2 * n + 1)%Z by (unfold n; lia).
      replace (2 * n + 1 - 1)%Z with (2 * n)%Z by lia.
      rewrite Z.testbit_odd_succ, Z.testbit_even_succ by apply Z.log2_nonneg.
      rewrite Z.bit_log2 by (unfold n; lia). reflexivity. }
    rewrite H, Z.bits_0 in Hb. discriminate.
  - set (n := Z.pos q) in *.
    assert (Hq : Z.land n (n - 1) = 0%Z).
    { apply Z.bits_inj'. intros i Hi. rewrite Z.bits_0, Z.land_spec.
      assert (Hb : Z.testbit (Z.land (Z.pos q~0) (Z.pos q~0 - 1)) (Z.succ i)
                   = false) by (rewrite H; apply Z.bits_0).
      rewrite Z.land_spec in Hb.
      replace (Z.pos q~0) with (2 * n)%Z in Hb by (unfold n; lia).
      replace (2 * n - 1)%Z with (2 * (n - 1) + 1)%Z in Hb by lia.
      now rewrite Z.testbit_even_succ, Z.testbit_odd_succ in Hb by exact Hi. }
    destruct (IH Hq) as (k & Hk & Hn). exists (Z.succ k). split; [lia |].
    rewrite Z.pow_succ_r by exact Hk. fold n in Hn. unfold n in *. lia.
  - exists 0%Z. split; [lia | reflexivity].
Qed.

(** X4: [_is_power_of_two] holds exactly of the positive powers of two
    (one included) and of every integer that is not positive. *)
Theorem is_power_of_two_spec (n : Z) :
  _is_power_of_two n = true <->
  (n <= 0)%Z \/ exists k, (0 <= k)%Z /\ n = (2 ^ k)%Z.
Proof.
  unfold _is_power_of_two. destruct (0 <? n)%Z eqn:E; simpl.
  - apply Z.ltb_lt in E. rewrite negb_involutive, Z.eqb_eq. split.
    + intros H. right. destruct n as [|p|p]; try lia.
      now apply land_pred_zero_pow2.
    + intros [Hn | (k & Hk & ->)]; [lia | now apply land_pred_pow2].
  - apply Z.ltb_ge in E. split; [now left | reflexivity].
Qed.

Lemma length_fftfreq_bins (n : nat) : (1 <= n)%nat -> length (fftfreq_bins n) = n.
Proof.
  intros Hn. unfold fftfreq_bins.
  rewrite length_app, !length_map, !length_seq.
  pose proof (Nat.div_mod_eq n 2). pose proof (Nat.div_mod_eq (n - 1) 2).
  pose proof (Nat.mod_upper_bound n 2 ltac:(lia)).
  pose proof (Nat.mod_upper_bound (n - 1) 2 ltac:(lia)). lia.
Qed.

Lemma map_nth_seq {T} (l : list T) (d : T) :
  map (fun j => nth j l d) (seq 0 (length l)) = l.
Proof.
  induction l as [|a l IH]; [reflexivity |].
  simpl. f_equal. rewrite <- seq_shift, map_map. exact IH.
Qed.

Lemma Cmul_one_r (z : C) : Cmul z (mkC 1 0) = z.
Proof. destruct z. unfold Cmul. simpl. f_equal; ring. Qed.

(** The first coefficient of a transform is the sum of the samples. *)
Lemma fft_first (l : list C) : l <> [] -> nth 0 (fft l) C0 = Csum l.
Proof.
  intros Hne. unfold fft, dft.
  assert (Hlen : (0 < length l)%nat) by (destruct l; [congruence | simpl; lia]).
  rewrite nth_map_seq by exact Hlen.
  transitivity (Csum (map (fun j => nth j l C0) (seq 0 (length l))));
    [| now rewrite map_nth_seq].
  f_equal. apply map_ext. intros j.
  replace (-1 * 2 * PI * INR j * INR 0 / INR (length l)) with 0
    by (simpl INR; unfold Rdiv; ring).
  unfold cis. rewrite cos_0, sin_0. apply Cmul_one_r.
Qed.

Lemma Csum_RtoC (l : list R) : Csum (map RtoC l) = RtoC (Rsum l).
Proof.
  induction l as [|x l IH]; [reflexivity |].
  simpl. rewrite IH. unfold Cadd, RtoC. simpl. f_equal; lra.
Qed.

Lemma Rsum_div (l : list R) (c : R) : Rsum (map (fun v => v / c) l) = Rsum l / c.
Proof. induction l as [|x l IH]; simpl; [lra | rewrite IH; lra]. Qed.

Lemma Rsum_pos (l : list R) : l <> [] -> Forall (fun x => 0 < x) l -> 0 < Rsum l.
Proof.
  intros Hne H. destruct H as [|x l Hx Hl]; [congruence |].
  assert (0 <= Rsum l).
  { apply Rsum_nonneg. eapply List.Forall_impl; [| exact Hl]. simpl. intros; lra. }
  simpl. lra.
Qed.

(** A time-domain window scaled to unit sum has first coefficient one. *)
Lemma unit_sum_first (window : list R) :
  window <> [] -> Rsum window <> 0 ->
  nth 0 (fft (map (fun v => RtoC (v / Rsum window)) window)) C0 = RtoC 1.
Proof.
  intros Hne Hs. rewrite fft_first by (destruct window; [congruence | discriminate]).
  rewrite <- (map_map (fun v => v / Rsum window) RtoC), Csum_RtoC, Rsum_div.
  f_equal. now field.
Qed.

(** X5: for at least one sample, a positive sampling rate and a positive
    width, [_precompute_st_windows] returns one window per bin from [start_f] up to
    [stop_f] excluded; every window has as many coefficients as there are
    samples and its first coefficient is one, the Gaussian having been
    scaled to unit sum before its transform.  Without any sample it stops
    with a [ZeroDivisionError]. *)
Theorem st_windows_normalised (n_samp start_f stop_f : nat) (sfreq width : R) :
  _precompute_st_windows 0 start_f stop_f sfreq width = Raise ZeroDivisionError /\
  ((1 <= n_samp)%nat -> 0 < sfreq -> 0 < width ->
   exists windows,
     _precompute_st_windows n_samp start_f stop_f sfreq width = Ok windows /\
     length windows = (stop_f - start_f)%nat /\
     Forall (fun w => length w = n_samp /\ nth 0 w C0 = RtoC 1) windows).
Proof.
  split; [reflexivity |]. intros Hn _ Hw. unfold _precompute_st_windows, fftfreq.
  destruct n_samp as [|m]; [lia |]. set (n := S m) in *. cbn [bind].
  set (tw0 := map (fun v => v / INR n) _).
  set (tw := firstn 1 tw0 ++ rev (skipn 1 tw0)).
  assert (Ltw : length tw = n).
  { unfold tw, tw0. rewrite length_app, length_rev, length_firstn, length_skipn.
    rewrite !length_map, length_fftfreq_bins by exact Hn. lia. }
  assert (Htw : tw <> []) by (intros E; rewrite E in Ltw; simpl in Ltw; lia).
  eexists; split; [reflexivity |]. rewrite length_map, length_seq.
  split; [reflexivity |].
  apply List.Forall_forall. intros w Hin.
  apply in_map_iff in Hin as (f & <- & _).
  cbv zeta.
  match goal with |- context [Rsum ?wd] => set (window := wd) end.
  assert (Hl : length window = n)
    by (unfold window; destruct f; now rewrite length_map).
  assert (Hp : Forall (fun x => 0 < x) window).
  { unfold window. apply List.Forall_forall. intros x Hx. destruct f as [|f'].
    - apply in_map_iff in Hx as (t & <- & _). lra.
    - apply in_map_iff in Hx as (t & <- & _).
      apply Rmult_lt_0_compat; [| apply exp_pos].
      apply Rdiv_lt_0_compat; [apply lt_0_INR; lia |].
      apply Rmult_lt_0_compat; [| exact Hw].
      apply sqrt_lt_R0. pose proof PI_RGT_0. lra. }
  assert (Hne : window <> [])
    by (intros E; rewrite E in Hl; simpl in Hl; lia).
  split.
  - unfold fft. now rewrite length_dft, length_map.
  - apply unit_sum_first; [exact Hne |].
    apply Rgt_not_eq, Rlt_gt, Rsum_pos; assumption.
Qed.

Lemma st_windows_normalised_witness :
  exists windows,
    _precompute_st_windows 8 1 3 100 1 = Ok windows /\
    length windows = 2%nat /\
    Forall (fun w => length w = 8%nat /\ nth 0 w C0 = RtoC 1) windows.
Proof.
  apply (proj2 (st_windows_normalised 8 1 3 100 1)); [lia | lra | lra].
Defined.

Lemma kept_pos (n : nat) (decim : Z) :
  (1 <= n)%nat -> (0 < decim)%Z -> (1 <= kept n decim)%nat.
Proof.
  intros Hn Hd. unfold kept. set (N := Z.of_nat n).
  assert (HN : (1 <= N)%Z) by (unfold N; lia).
  pose proof (Z.div_mod N decim ltac:(lia)) as Hdm.
  pose proof (Z.mod_pos_bound N decim Hd) as Hr.
  pose proof (Z.div_pos N decim ltac:(lia) Hd) as Hq.
  destruct (N mod decim =? 0)%Z eqn:E; simpl.
  - apply Z.eqb_eq in E. assert (1 <= N / decim)%Z by nia. lia.
  - lia.
Qed.

(** A slice that stops at index zero is empty. *)
Lemma py_slice_stop_zero {T} (d : T) (l : list T) (decim : Z) :
  (0 < decim)%Z -> py_slice d l None (Some 0%Z) decim = Ok [].
Proof.
  intros Hd. unfold py_slice, adjust_index, slice_count.
  destruct (decim =? 0)%Z eqn:E0; [apply Z.eqb_eq in E0; lia |].
  destruct (decim <? 0)%Z eqn:E1; [apply Z.ltb_lt in E1; lia |].
  simpl (0 <? 0)%Z. cbv iota.
  destruct (Z.of_nat (length l) <=? 0)%Z eqn:E2.
  - apply Z.leb_le in E2. assert (Z.of_nat (length l) = 0%Z) by lia.
    rewrite H. reflexivity.
  - reflexivity.
Qed.

Lemma st_bin_unpadded (XX : list (list C)) (n_samp : nat) (decim : Z)
  (compute_itc : bool) (f : nat) (window : list C) :
  (0 < decim)%Z -> (f <= n_samp)%nat -> length window = n_samp ->
  st_bin XX n_samp 0 decim compute_itc f window
  = Ok ([], if compute_itc then Some [] else None).
Proof.
  intros Hd Hf Hw. unfold st_bin.
  rewrite length_py_slice1 by (rewrite ?repeat_length; lia).
  replace (Z.to_nat (Z.of_nat (f + n_samp) - Z.of_nat f)) with n_samp by lia.
  rewrite Hw. unfold broadcast_extent. rewrite Nat.eqb_refl. cbn [bind].
  change (- 0)%Z with 0%Z.
  rewrite py_slice_stop_zero by exact Hd. cbn [bind].
  rewrite (mapM_total _ (fun _ => [])) by (intros; now apply py_slice_stop_zero).
  cbn [bind length seq map]. destruct compute_itc; reflexivity.
Qed.

(** X6: [_st_power_itc] cannot work on a signal that was not padded: with
    [zero_pad = 0] the slice [ST[:, :-zero_pad:decim]] is empty, and writing
    the empty row into the output row raises a [ValueError]. *)
Theorem st_power_itc_unpadded_raises (x : array2 R) (start_f : nat)
  (compute_itc : bool) (decim : Z) (w0 : list C) (W : list (list C)) :
  (0 < decim)%Z -> (1 <= ncols x)%nat ->
  length w0 = ncols x -> (start_f <= ncols x)%nat ->
  _st_power_itc x start_f compute_itc 0 decim (w0 :: W)
  = Raise (ValueError "could not broadcast input array").
Proof.
  intros Hd Hn Hw Hf. unfold _st_power_itc. rewrite Z.sub_0_r.
  destruct (ReductionFacts.decim_len_extent (ncols x) decim Hd) as (m & -> & Hm).
  cbn [bind]. rewrite Hm. cbn [bind].
  cbn [length seq combine mapM].
  rewrite st_bin_unpadded by (auto; lia). cbn [bind].
  pose proof (kept_pos (ncols x) decim Hn Hd) as Hk.
  unfold assign_row at 1. cbn [length].
  destruct (0 =? kept (ncols x) decim)%nat eqn:E;
    [apply Nat.eqb_eq in E; lia | reflexivity].
Qed.

Lemma st_power_itc_unpadded_raises_witness :
  _st_power_itc (Arr2 1 2 [[1; 2]]) 0 true 0 1 [[RtoC 1; RtoC 1]]
  = Raise (ValueError "could not broadcast input array").
Proof.
  apply (st_power_itc_unpadded_raises (Arr2 1 2 [[1; 2]]) 0 true 1
           [RtoC 1; RtoC 1] []); simpl; lia.
Defined.

End StockwellExtras.

(** ** The Morlet builder *)

Module BuilderExtras.
Import Tfr.

Lemma length_arange0 (stop step : R) :
  length (arange0 stop step) = Z.to_nat (Zceil (stop / step)).
Proof. unfold arange0. now rewrite length_map, length_seq. Qed.

Lemma length_morlet_raw (sfreq f cycles : R) (sigma : option R) (zero_mean : bool) :
  length (morlet_raw sfreq f cycles sigma zero_mean)
  = (2 * support sfreq f cycles sigma - 1)%nat.
Proof.
  unfold morlet_raw, support. fold (sigma_of f cycles sigma).
  rewrite length_map, length_app, length_map, length_rev, length_skipn,
    length_arange0. lia.
Qed.

Lemma length_normalize (W : list C) : length (normalize W) = length W.
Proof. unfold normalize. apply length_map. Qed.



(** X8: at a fixed cycle count and with the scale-dependent window
    ([sigma = None]), a higher frequency never gets a longer kernel. *)
Theorem morlet_support_shrinks (sfreq cycles f1 f2 : R) (zero_mean : bool) :
  0 < sfreq -> 0 <= cycles -> 0 < f1 <= f2 ->
  (length (morlet_raw sfreq f2 cycles None zero_mean)
   <= length (morlet_raw sfreq f1 cycles None zero_mean))%nat.
Proof.
  intros Hs Hc [Hf1 Hf12]. rewrite !length_morlet_raw. unfold support, sigma_of.
  pose proof PI_RGT_0 as Hpi.
  assert (Hinv : / (2 * PI * f2) <= / (2 * PI * f1))
    by (apply Rinv_le_contravar; nra).
  assert (Hstep : 0 < / (1 / sfreq))
    by (apply Rinv_0_lt_compat, Rdiv_lt_0_compat; lra).
  assert (Hle : 5 * (cycles / (2 * PI * f2)) / (1 / sfreq)
                <= 5 * (cycles / (2 * PI * f1)) / (1 / sfreq)).
  { unfold Rdiv at 1 3. apply Rmult_le_compat_r; [lra |].
    apply Rmult_le_compat_l; [lra |]. unfold Rdiv.
    apply Rmult_le_compat_l; [exact Hc | exact Hinv]. }
  apply Zceil_le in Hle. lia.
Qed.

Lemma morlet_support_shrinks_witness :
  (length (morlet_raw 100 20 7 None true)
   <= length (morlet_raw 100 10 7 None true))%nat.
Proof. apply morlet_support_shrinks; lra. Defined.

End BuilderExtras.

(** ** The convolution engines and the reduction *)

Module EngineExtras.
Import Tfr ShapeFacts ReductionFacts.

(** X9: for a target length that does not exceed the array, [_centered]
    drops [(len - newsize) // 2] leading entries and keeps the [newsize]
    entries that follow. *)
Theorem centered_crop {T} (arr : list T) (m : nat) :
  (m <= length arr)%nat ->
  _centered arr (Z.of_nat m) = firstn m (skipn ((length arr - m) / 2) arr) /\
  length (_centered arr (Z.of_nat m)) = m.
Proof.
  intros Hm. unfold _centered, py_slice1.
  set (len := length arr) in *.
  assert (Hs : ((Z.of_nat len - Z.of_nat m) / 2)%Z = Z.of_nat ((len - m) / 2)).
  { rewrite <- Nat2Z.inj_sub by exact Hm.
    now rewrite (Nat2Z.inj_div (len - m) 2). }
  rewrite Hs.
  assert (Hb : ((len - m) / 2 <= len - m)%nat)
    by (apply Nat.Div0.div_le_upper_bound; lia).
  rewrite !adjust_index_in by lia.
  replace (Z.to_nat (Z.of_nat ((len - m) / 2) + Z.of_nat m
                     - Z.of_nat ((len - m) / 2))) with m by lia.
  rewrite Nat2Z.id. split; [reflexivity |].
  rewrite length_firstn, length_skipn. fold len. lia.
Qed.

Lemma centered_crop_witness :
  _centered [1; 2; 3; 4; 5; 6; 7] 4 = [2; 3; 4; 5].
Proof.
  exact (proj1 (centered_crop [1; 2; 3; 4; 5; 6; 7] 4 ltac:(simpl; lia))).
Defined.

(** X10: in mode [same], on a bank that is not empty and whose kernels are
    not empty and not longer than the signals, each engine yields exactly
    one array per trial, with one row per kernel and one column per time
    sample, and ends without an exception. *)
Theorem engines_same_yield (X : array2 R) (Ws : list (list C)) :
  Ws <> [] ->
  Forall (fun W => (1 <= length W <= ncols X)%nat) Ws ->
  Forall (fun x => length x = ncols X) (rows X) ->
  (exists tfrs, _cwt_fft X Ws Same = Trace tfrs None /\
                length tfrs = length (rows X) /\
                Forall (shaped (length Ws) (ncols X)) tfrs) /\
  (exists tfrs, _cwt_convolve X Ws Same = Trace tfrs None /\
                length tfrs = length (rows X) /\
                Forall (shaped (length Ws) (ncols X)) tfrs).
Proof.
  intros Hne HW HX.
  assert (G : forall use_fft,
            exists tfrs, engine use_fft X Ws = Trace tfrs None /\
                         length tfrs = length (rows X) /\
                         Forall (shaped (length Ws) (ncols X)) tfrs).
  { intros use_fft.
    pose proof (EngineRuns.engine_same_runs use_fft X Ws Hne HW HX) as Hrun.
    pose proof (engine_complete use_fft X Ws Hrun) as Hlen.
    pose proof (engine_shaped use_fft X Ws) as Hsh.
    destruct (engine use_fft X Ws) as [tfrs st]. simpl in *. subst st.
    exists tfrs. split; [reflexivity |]. split; [exact Hlen |].
    apply List.Forall_forall. exact Hsh. }
  split; [exact (G true) | exact (G false)].
Qed.

Lemma engines_same_yield_witness :
  exists tfrs, _cwt_convolve (Arr2 2 3 [[1; 2; 3]; [4; 5; 6]])
                             [[RtoC 1; RtoC 1]; [RtoC 1]] Same
               = Trace tfrs None /\
               length tfrs = 2%nat.
Proof.
  destruct (engines_same_yield (Arr2 2 3 [[1; 2; 3]; [4; 5; 6]])
              [[RtoC 1; RtoC 1]; [RtoC 1]]) as [_ (tfrs & H & Hl & _)].
  - discriminate.
  - repeat constructor; simpl; lia.
  - repeat constructor.
  - exists tfrs. split; [exact H | exact Hl].
Defined.

Lemma cwt_convolve_full_raises (X : array2 R) (W0 : list C)
  (Ws : list (list C)) (x : list R) (xs : list (list R)) :
  rows X = x :: xs -> length x = ncols X ->
  (2 <= length W0 <= length x)%nat ->
  _cwt_convolve X (W0 :: Ws) Full
  = Trace [] (Some (ValueError "could not broadcast input array")).
Proof.
  intros HX Hx Hw. unfold _cwt_convolve. rewrite HX. cbn [gen_for mapM].
  assert (Hconv : np_convolve x W0 Full = Ok (conv_full x W0)).
  { destruct x as [|a x']; [simpl in Hw; lia |].
    destruct W0 as [|b W0']; [simpl in Hw; lia | reflexivity]. }
  rewrite Hconv. cbn [bind].
  assert (Hlt : (length x <? length W0)%nat = false) by (apply Nat.ltb_ge; lia).
  rewrite Hlt. unfold place_row, assign_row.
  pose proof (length_conv_full x W0) as Hl.
  destruct (length (conv_full x W0) =? ncols X)%nat eqn:E;
    [apply Nat.eqb_eq in E; lia |].
  destruct (conv_full x W0) as [|v [|v' l]]; simpl in Hl; try lia; reflexivity.
Qed.

(** X11: in mode [full] neither engine delivers anything as soon as the
    first kernel has two samples or more: the row of the convolution does
    not have the extent of the row it is written to, numpy refuses the
    assignment, and the first trial raises a [ValueError]. *)
Theorem engines_full_raise (X : array2 R) (W0 : list C) (Ws : list (list C))
  (x : list R) (xs : list (list R)) :
  rows X = x :: xs -> length x = ncols X ->
  (2 <= length W0)%nat ->
  Forall (fun W => (length W <= ncols X)%nat) (W0 :: Ws) ->
  _cwt_fft X (W0 :: Ws) Full
  = Trace [] (Some (ValueError "could not broadcast input array")) /\
  _cwt_convolve X (W0 :: Ws) Full
  = Trace [] (Some (ValueError "could not broadcast input array")).
Proof.
  intros HX Hx Hw HW. split.
  - now apply (EngineRuns.cwt_fft_full_raises X W0 Ws x xs).
  - apply (cwt_convolve_full_raises X W0 Ws x xs HX Hx).
    inversion HW; subst. lia.
Qed.

Lemma engines_full_raise_witness :
  _cwt_convolve (Arr2 1 3 [[1; 2; 3]]) [[RtoC 1; RtoC 1]] Full
  = Trace [] (Some (ValueError "could not broadcast input array")).
Proof.
  apply (engines_full_raise (Arr2 1 3 [[1; 2; 3]]) [RtoC 1; RtoC 1] []
           [1; 2; 3] []).
  - reflexivity.
  - reflexivity.
  - simpl; lia.
  - repeat constructor; simpl; lia.
Defined.

(** X12: a decimation factor of zero is refused everywhere, but not in
    the same way: where the time axis is sliced first ([cwt],
    [single_trial_power], [_induced_power_cwt], [_induced_power_mtm]) the
    slice raises a [ValueError]; where the decimated length is computed
    first ([_time_frequency], [_induced_power_stockwell]) the division
    raises a [ZeroDivisionError]. *)
Theorem zero_decimation :
  (forall X Ws use_fft mode,
     cwt X Ws use_fft mode 0 = Raise (ValueError "slice step cannot be zero")) /\
  (forall X Ws use_fft,
     _time_frequency X Ws use_fft 0 = Raise ZeroDivisionError) /\
  (forall Baseline Mode rescale pool data sfreq frequencies use_fft n_cycles
          (baseline : Baseline) (baseline_mode : Mode) times n_jobs zero_mean Fs,
     single_trial_power Baseline Mode rescale pool data sfreq frequencies
       use_fft n_cycles baseline baseline_mode times 0 n_jobs zero_mean Fs
     = Raise (ValueError "slice step cannot be zero")) /\
  (forall pool data sfreq frequencies use_fft n_cycles n_jobs zero_mean,
     _induced_power_cwt pool data sfreq frequencies use_fft n_cycles 0 n_jobs
                        zero_mean
     = Raise (ValueError "slice step cannot be zero")) /\
  (forall pool dpss_windows data sfreq frequencies time_bandwidth use_fft
          n_cycles n_jobs zero_mean,
     _induced_power_mtm pool dpss_windows data sfreq frequencies
       time_bandwidth use_fft n_cycles 0 n_jobs zero_mean
     = Raise (ValueError "slice step cannot be zero")) /\
  (forall pool data sfreq fmin fmax n_fft width return_itc n_jobs,
     Stockwell._induced_power_stockwell pool data sfreq fmin fmax n_fft width
       0 return_itc n_jobs
     = Raise ZeroDivisionError).
Proof. repeat split; reflexivity. Qed.

(** Decimation by a positive factor keeps every [decim]-th column. *)
Lemma decimate_stride {T} (d : T) (decim : Z) (a : array2 T) :
  (0 < decim)%Z ->
  decimate d decim a
  = Ok (Arr2 (nrows a) (kept (ncols a) decim) (map (stride d decim) (rows a))).
Proof.
  intros Hd. unfold decimate. rewrite py_slice_stride by exact Hd. cbn [bind].
  rewrite (mapM_total _ (stride d decim)) by (intros; now apply py_slice_stride).
  cbn [bind]. unfold stride at 1. now rewrite length_map, !length_seq.
Qed.

(** The reduction returns on well-formed input. *)
Lemma time_frequency_total (X : array2 R) (Ws : list (list C))
  (use_fft : bool) (decim : Z) :
  (0 < decim)%Z ->
  length (rows X) = nrows X -> (1 <= nrows X)%nat ->
  Forall (fun x => length x = ncols X) (rows X) ->
  Ws <> [] -> Forall (fun W => (1 <= length W <= ncols X)%nat) Ws ->
  exists psd plf,
    _time_frequency X Ws use_fft decim = Ok (psd, plf) /\
    shaped (length Ws) (kept (ncols X) decim) psd /\
    shaped (length Ws) (kept (ncols X) decim) plf /\
    forall i j, (i < length Ws)%nat -> (j < kept (ncols X) decim)%nat ->
      0 <= get2 0 psd i j /\ 0 <= get2 0 plf i j.
Proof.
  intros Hd Hwf Hne HX HWne HW.
  pose proof (EngineRuns.engine_same_runs use_fft X Ws HWne HW HX) as Hstop.
  rewrite time_frequency_unfold.
  destruct (decim_len_extent (ncols X) decim Hd) as (m & -> & Hm).
  cbn [bind]. rewrite Hm. cbn [bind].
  set (n_out := kept (ncols X) decim). set (tfrs := yielded (engine use_fft X Ws)).
  assert (Hsh : Forall (shaped (length Ws) (ncols X)) tfrs)
    by (apply List.Forall_forall; intros t Ht; eapply engine_shaped; eauto).
  destruct (accumulate decim (length Ws) (ncols X) tfrs Hd Hsh
              (zeros2 0 (length Ws) n_out, zeros2 C0 (length Ws) n_out)
              (shaped_zeros2 _ _ _) (shaped_zeros2 _ _ _))
    as (acc & Hfold & Hp & Hq & G).
  unfold consume. fold tfrs. rewrite Hfold. cbn [bind]. rewrite Hstop. cbn [bind].
  eexists _, _. split; [reflexivity |].
  split; [now apply shaped_map2d |]. split; [now apply shaped_map2d |].
  intros i j Hi Hj. destruct (G i j Hi Hj) as [Gp _]. cbn [fst snd] in Gp.
  rewrite (get2_zeros2 0 0) in Gp by assumption.
  assert (Hn : 0 < / INR (nrows X))
    by (apply Rinv_0_lt_compat, lt_0_INR; lia).
  split.
  - rewrite (get2_map2d _ _ _ _ i j 0 0 Hp Hi Hj), Gp.
    assert (0 <= Rsum (map (fun tfr => Cabs (coef decim tfr i j) ^ 2) tfrs)).
    { apply Rsum_nonneg, List.Forall_forall. intros y Hy.
      apply in_map_iff in Hy as (t & <- & _). apply pow2_ge_0. }
    unfold Rdiv. apply Rmult_le_pos; lra.
  - rewrite (get2_map2d _ _ _ _ i j C0 0 Hq Hi Hj).
    unfold Rdiv. apply Rmult_le_pos; [apply Cabs_nonneg | lra].
Qed.

(** X13: on a batch with at least one trial, a bank that is not empty and
    whose kernels are not empty and not longer than the signals, and a
    positive decimation factor, [_time_frequency] returns; both arrays have
    one row per kernel and [n_times // decim + bool(n_times % decim)]
    columns, and no power is negative. *)
Theorem time_frequency_returns (X : array2 R) (Ws : list (list C))
  (use_fft : bool) (decim : Z) :
  (0 < decim)%Z ->
  length (rows X) = nrows X -> (1 <= nrows X)%nat ->
  Forall (fun x => length x = ncols X) (rows X) ->
  Ws <> [] -> Forall (fun W => (1 <= length W <= ncols X)%nat) Ws ->
  exists psd plf,
    _time_frequency X Ws use_fft decim = Ok (psd, plf) /\
    shaped (length Ws) (kept (ncols X) decim) psd /\
    shaped (length Ws) (kept (ncols X) decim) plf /\
    forall i j, (i < length Ws)%nat -> (j < kept (ncols X) decim)%nat ->
      0 <= get2 0 psd i j.
Proof.
  intros Hd Hwf Hne HX HWne HW.
  destruct (time_frequency_total X Ws use_fft decim Hd Hwf Hne HX HWne HW)
    as (psd & plf & H & Hp & Hq & Hpos).
  exists psd, plf. split; [exact H |]. split; [exact Hp |]. split; [exact Hq |].
  intros i j Hi Hj. now apply Hpos.
Qed.

Lemma time_frequency_returns_witness :
  exists psd plf,
    _time_frequency (Arr2 2 3 [[1; 2; 3]; [4; 5; 6]])
                    [[RtoC 1; RtoC 1]; [RtoC 1]] true 2 = Ok (psd, plf) /\
    shaped 2 (kept 3 2) psd.
Proof.
  destruct (time_frequency_returns (Arr2 2 3 [[1; 2; 3]; [4; 5; 6]])
              [[RtoC 1; RtoC 1]; [RtoC 1]] true 2)
    as (psd & plf & H & Hs & _).
  - lia.
  - reflexivity.
  - simpl; lia.
  - repeat constructor.
  - discriminate.
  - repeat constructor; simpl; lia.
  - exists psd, plf. split; [exact H | exact Hs].
Defined.

(** X14: a kernel longer than the signals stops the callers of the engines
    as well: with a positive decimation factor, on a batch with at least one
    trial and one sample, [_time_frequency] and [cwt] raise a [ValueError]
    and return nothing. *)
Theorem long_kernel_stops_callers (X : array2 R) (Ws : list (list C))
  (use_fft : bool) (mode : conv_mode) (decim : Z) :
  (0 < decim)%Z ->
  rows X <> [] -> Forall (fun x => length x = ncols X) (rows X) ->
  (1 <= ncols X)%nat ->
  Exists (fun W => (ncols X < length W)%nat) Ws ->
  raises_ValueError (_time_frequency X Ws use_fft decim) /\
  raises_ValueError (cwt X Ws use_fft mode decim).
Proof.
  intros Hd Hne HX Hn Hex.
  assert (G : forall m,
            exists msg, (if use_fft then _cwt_fft X Ws m else _cwt_convolve X Ws m)
                        = Trace [] (Some (ValueError msg))).
  { intros m. destruct use_fft.
    - exists too_long. now apply EngineFacts.cwt_fft_too_long.
    - destruct (rows X) as [|x xs] eqn:E; [congruence |].
      apply (EngineFacts.cwt_convolve_too_long X Ws m x xs E).
      inversion HX as [| ? ? Hx _]; subst. now rewrite Hx. }
  split.
  - rewrite time_frequency_unfold.
    destruct (decim_len_extent (ncols X) decim Hd) as (m & -> & Hm).
    cbn [bind]. rewrite Hm. cbn [bind].
    destruct (G Same) as [msg Hg]. unfold engine. rewrite Hg.
    exists msg. reflexivity.
  - unfold cwt. rewrite decimate_stride by exact Hd. cbn [bind].
    destruct (G mode) as [msg Hg]. rewrite Hg. exists msg. reflexivity.
Qed.

Lemma long_kernel_stops_callers_witness :
  raises_ValueError
    (_time_frequency (Arr2 1 2 [[1; 2]]) [[RtoC 1; RtoC 1; RtoC 1]] true 1).
Proof.
  apply (long_kernel_stops_callers (Arr2 1 2 [[1; 2]])
           [[RtoC 1; RtoC 1; RtoC 1]] true Same 1).
  - lia.
  - discriminate.
  - repeat constructor.
  - simpl; lia.
  - constructor; simpl; lia.
Defined.

Lemma fold_collect {A B} (step : list B -> A -> result (list B))
  (f : A -> B) (l : list A) (init : list B) :
  (forall acc a, In a l -> step acc a = Ok (acc ++ [f a])) ->
  fold_left (fun r v => do s <- r; step s v) l (Ok init)
  = Ok (init ++ map f l).
Proof.
  revert init. induction l as [|a l IH]; intros init H; cbn [fold_left map].
  - now rewrite app_nil_r.
  - cbn [bind]. rewrite (H init a) by now left.
    rewrite IH by (intros; apply H; now right).
    now rewrite <- app_assoc.
Qed.

(** X15: in mode [same] with a positive decimation factor, on a bank that
    is not empty and whose kernels are not empty and not longer than the
    signals, [cwt] returns one array per signal, in order: the array that
    the engine yields for the signal with every [decim]-th column kept, of
    [n_times // decim + bool(n_times % decim)] columns. *)
Theorem cwt_same_decimates (X : array2 R) (Ws : list (list C))
  (use_fft : bool) (decim : Z) :
  (0 < decim)%Z ->
  Ws <> [] ->
  Forall (fun W => (1 <= length W <= ncols X)%nat) Ws ->
  Forall (fun x => length x = ncols X) (rows X) ->
  let every := fun tfr : array2 C =>
                 Arr2 (length Ws) (kept (ncols X) decim)
                      (map (stride C0 decim) (rows tfr)) in
  cwt X Ws use_fft Same decim = Ok (map every (yielded (engine use_fft X Ws))) /\
  length (yielded (engine use_fft X Ws)) = length (rows X).
Proof.
  intros Hd Hne HW HX every.
  pose proof (EngineRuns.engine_same_runs use_fft X Ws Hne HW HX) as Hrun.
  split; [| now apply engine_complete].
  unfold cwt. rewrite decimate_stride by exact Hd. cbn [bind ncols].
  fold (engine use_fft X Ws). unfold consume.
  rewrite (fold_collect _ every).
  - cbn [bind app]. now rewrite Hrun.
  - intros acc tfr Hin.
    destruct (engine_shaped use_fft X Ws tfr Hin) as (Hr & Hc & _).
    rewrite decimate_stride by exact Hd. cbn [bind].
    destruct tfr as [r c rs]. cbn [nrows ncols rows] in *. subst r c.
    unfold assign_block. cbn [nrows ncols]. rewrite !Nat.eqb_refl.
    reflexivity.
Qed.

Lemma cwt_same_decimates_witness :
  exists tfrs,
    cwt (Arr2 2 3 [[1; 2; 3]; [4; 5; 6]]) [[RtoC 1; RtoC 1]; [RtoC 1]]
        false Same 2 = Ok tfrs /\
    length tfrs = 2%nat.
Proof.
  destruct (cwt_same_decimates (Arr2 2 3 [[1; 2; 3]; [4; 5; 6]])
              [[RtoC 1; RtoC 1]; [RtoC 1]] false 2) as [H Hl].
  - lia.
  - discriminate.
  - repeat constructor; simpl; lia.
  - repeat constructor.
  - eexists. split; [exact H |]. rewrite length_map. exact Hl.
Defined.

Lemma support_exceeds (sfreq f cycles : R) (n : nat) :
  INR n + 1 < 2 * (5 * sigma_of f cycles None / (1 / sfreq)) ->
  (n < 2 * support sfreq f cycles None - 1)%nat.
Proof.
  intros H. unfold support.
  set (v := 5 * sigma_of f cycles None / (1 / sfreq)) in *.
  destruct (Zceil_bound v) as [_ Hub].
  assert (Hz : (Z.of_nat n + 1 < 2 * Zceil v)%Z).
  { apply lt_IZR. rewrite plus_IZR, mult_IZR, <- INR_IZR_INZ. lra. }
  lia.
Qed.

(** X16: [cwt_morlet] raises a [ValueError] and returns nothing when the
    cycle counts fit neither reading, and also when, for some frequency,
    twice the five-sigma support of the wavelet, [5 * n_cycles / (2 pi f)]
    seconds at the sampling rate, exceeds the number of samples plus one:
    the kernel is then longer than the signals.  The batch has at least one
    signal and one sample; the sampling rate and the frequencies are
    positive. *)
Theorem cwt_morlet_refuses (X : array2 R) (sfreq : R) (freqs : list R)
  (use_fft : bool) (n_cycles : list R) (zero_mean : bool) (Fs : option R) :
  let rate := match Fs with Some v => v | None => sfreq end in
  0 < rate -> Forall (fun f => 0 < f) freqs ->
  rows X <> [] -> Forall (fun x => length x = ncols X) (rows X) ->
  (1 <= ncols X)%nat ->
  cycles_mismatch freqs n_cycles \/
  (exists k f, nth_error freqs k = Some f /\
     INR (ncols X) + 1
     < 2 * (5 * sigma_of f (this_n_cycles n_cycles k) None / (1 / rate))) ->
  raises_ValueError (cwt_morlet X sfreq freqs use_fft n_cycles zero_mean Fs).
Proof.
  intros rate _ _ Hne HX Hn Hbad. unfold cwt_morlet, morlet. fold rate.
  destruct (negb (length n_cycles =? 1)%nat
            && negb (length n_cycles =? length freqs)%nat) eqn:Ec;
    [eexists; reflexivity |].
  destruct Hbad as [[H1 H2] | (k & f & Hk & Hlong)].
  { apply Nat.eqb_neq in H1, H2. rewrite H1, H2 in Ec. discriminate. }
  cbn [bind].
  match goal with |- context [_cwt_fft X ?bank Same] => set (Ws := bank) end.
  apply support_exceeds in Hlong.
  assert (Hex : Exists (fun W => (ncols X < length W)%nat) Ws).
  { apply List.Exists_exists.
    exists (normalize (morlet_raw rate f (this_n_cycles n_cycles k) None
                                  zero_mean)).
    split.
    - apply (nth_error_In _ k). unfold Ws.
      now rewrite nth_error_map, (nth_error_enumerate _ _ _ Hk).
    - rewrite BuilderExtras.length_normalize, BuilderExtras.length_morlet_raw.
      exact Hlong. }
  destruct use_fft.
  - rewrite (EngineFacts.cwt_fft_too_long X Ws Same Hn Hex).
    exists too_long. reflexivity.
  - destruct (rows X) as [|x xs] eqn:E; [congruence |].
    destruct (EngineFacts.cwt_convolve_too_long X Ws Same x xs E) as [msg Hg].
    + inversion HX as [| ? ? Hx _]; subst. now rewrite Hx.
    + rewrite Hg. exists msg. reflexivity.
Qed.

Lemma cwt_morlet_refuses_witness :
  raises_ValueError
    (cwt_morlet (Arr2 1 100 [repeat 0 100]) 100 [2] true [7] false None).
Proof.
  apply cwt_morlet_refuses.
  - lra.
  - repeat constructor; lra.
  - discriminate.
  - repeat constructor.
  - simpl; lia.
  - right. exists 0%nat, 2. split; [reflexivity |].
    unfold this_n_cycles, sigma_of. cbn [length Nat.eqb negb nth ncols].
    pose proof PI_RGT_0 as Hpi. pose proof PI_4 as Hpi4.
    assert (Hinv : / 16 <= / (2 * PI * 2))
      by (apply Rinv_le_contravar; lra).
    replace (INR 100) with 100 by (simpl; lra).
    unfold Rdiv. rewrite Rmult_1_l, Rinv_inv. lra.
Defined.

(** X17: when the sampling rate and the frequencies are positive, the
    cycle counts fit the frequencies, there is at least one frequency, and
    every wavelet has at least one sample at times zero and
    above and no more samples than the signals, [cwt_morlet] returns what
    the engine yields on the Morlet bank: one array per signal, of one row
    per frequency and one column per time sample. *)
Theorem cwt_morlet_returns (X : array2 R) (sfreq : R) (freqs : list R)
  (use_fft : bool) (n_cycles : list R) (zero_mean : bool) (Fs : option R) :
  let rate := match Fs with Some v => v | None => sfreq end in
  0 < rate -> Forall (fun f => 0 < f) freqs ->
  ~ cycles_mismatch freqs n_cycles -> freqs <> [] ->
  Forall (fun x => length x = ncols X) (rows X) ->
  (forall k f, nth_error freqs k = Some f ->
     (1 <= support rate f (this_n_cycles n_cycles k) None)%nat /\
     (2 * support rate f (this_n_cycles n_cycles k) None - 1 <= ncols X)%nat) ->
  exists Ws tfrs,
    morlet sfreq freqs n_cycles None zero_mean Fs = Ok Ws /\
    engine use_fft X Ws = Trace tfrs None /\
    cwt_morlet X sfreq freqs use_fft n_cycles zero_mean Fs = Ok tfrs /\
    length tfrs = length (rows X) /\
    Forall (shaped (length freqs) (ncols X)) tfrs.
Proof.
  intros rate _ _ Hm Hne HX Hsup. unfold cwt_morlet, morlet. fold rate.
  destruct (negb (length n_cycles =? 1)%nat
            && negb (length n_cycles =? length freqs)%nat) eqn:Ec.
  { exfalso. apply Hm. apply andb_true_iff in Ec as [E1 E2].
    apply negb_true_iff, Nat.eqb_neq in E1, E2. now split. }
  cbn [bind].
  match goal with |- context [_cwt_fft X ?bank Same] => set (Ws := bank) end.
  assert (HlenWs : length Ws = length freqs).
  { unfold Ws. now rewrite length_map, length_combine, length_seq, Nat.min_id. }
  assert (HWne : Ws <> []).
  { intros E. rewrite E in HlenWs. destruct freqs; [congruence | discriminate]. }
  assert (HW : Forall (fun W => (1 <= length W <= ncols X)%nat) Ws).
  { apply List.Forall_forall. intros W HinW.
    apply In_nth_error in HinW as [k Hk]. unfold Ws in Hk.
    rewrite nth_error_map in Hk.
    destruct (nth_error (combine (seq 0 (length freqs)) freqs) k)
      as [[k' f]|] eqn:Ek; [| discriminate].
    injection Hk as <-.
    assert (Hf : nth_error freqs k = Some f /\ k' = k).
    { assert (Hlt : (k < length freqs)%nat).
      { assert (Hs : nth_error (combine (seq 0 (length freqs)) freqs) k <> None)
          by (rewrite Ek; discriminate).
        apply nth_error_Some in Hs.
        rewrite length_combine, length_seq, Nat.min_id in Hs. exact Hs. }
      destruct (nth_error freqs k) as [f0|] eqn:Ef;
        [| apply nth_error_None in Ef; lia].
      rewrite (nth_error_enumerate _ _ _ Ef) in Ek. now injection Ek as <- <-. }
    destruct Hf as [Hf ->]. destruct (Hsup k f Hf) as [H1 H2].
    rewrite BuilderExtras.length_normalize, BuilderExtras.length_morlet_raw. lia. }
  pose proof (EngineRuns.engine_same_runs use_fft X Ws HWne HW HX) as Hrun.
  pose proof (engine_complete use_fft X Ws Hrun) as Hlen.
  pose proof (engine_shaped use_fft X Ws) as Hsh.
  fold (engine use_fft X Ws).
  destruct (engine use_fft X Ws) as [tfrs st] eqn:Eg. cbn [stopped yielded] in *.
  subst st. exists Ws, tfrs. split; [reflexivity |]. split; [exact Eg |].
  split; [| split; [exact Hlen |]].
  - unfold consume. cbn [yielded stopped].
    rewrite (fold_collect _ (fun t => t)).
    + cbn [bind app]. now rewrite map_id.
    + intros acc tfr Hin. destruct (Hsh tfr Hin) as (Hr & Hc & _).
      unfold assign_block. rewrite Hr, Hc, HlenWs, !Nat.eqb_refl. reflexivity.
  - rewrite <- HlenWs. apply List.Forall_forall. exact Hsh.
Qed.

Lemma support_one : support 1 1 1 None = 1%nat.
Proof.
  unfold support, sigma_of. rewrite (Zceil_eq 1); [reflexivity |].
  pose proof PI2_3_2 as Hpi.
  assert (Hinv : / (2 * PI * 1) <= / 5) by (apply Rinv_le_contravar; lra).
  assert (Hpos : 0 < / (2 * PI * 1)) by (apply Rinv_0_lt_compat; lra).
  unfold Rdiv. rewrite !Rmult_1_l, Rinv_1. lra.
Qed.

Lemma cwt_morlet_returns_witness :
  exists tfrs,
    cwt_morlet (Arr2 1 3 [[1; 2; 3]]) 1 [1] false [1] false None = Ok tfrs /\
    length tfrs = 1%nat.
Proof.
  destruct (cwt_morlet_returns (Arr2 1 3 [[1; 2; 3]]) 1 [1] false [1] false None)
    as (Ws & tfrs & _ & _ & H & Hl & _).
  - lra.
  - repeat constructor; lra.
  - unfold cycles_mismatch. simpl. intros [H _]. now apply H.
  - discriminate.
  - repeat constructor.
  - intros [|k] f Hk; [| destruct k; discriminate].
    injection Hk as <-. unfold this_n_cycles. cbn [length Nat.eqb negb nth ncols].
    rewrite support_one. lia.
  - exists tfrs. split; [exact H | exact Hl].
Defined.

End EngineExtras.

(** ** The container and its operators *)

Module ContainerExtras.
Import Tfr ContainerFacts.

Lemma inplace_ok_cases (dst src : nat) :
  inplace_ok dst src = true -> src = dst \/ src = 1%nat.
Proof.
  unfold inplace_ok. intros H. apply orb_true_iff in H as [H | H];
    apply Nat.eqb_eq in H; auto.
Qed.

(** Undoing a broadcasting operation. *)
Lemma bzip_undo {T U} (f g : T -> U -> T) (a : list T) (b : list U) :
  length b = length a \/ length b = 1%nat ->
  (forall x y, In x a -> In y b -> g (f x y) y = x) ->
  bzip g (bzip f a b) b = a.
Proof.
  intros [Hl | H1] H.
  - apply bzip_roundtrip.
    apply (Forall2_from_Forall (fun x => In x a) (fun y => In y b));
      [lia | now apply List.Forall_forall | now apply List.Forall_forall | exact H].
  - destruct b as [|v [|v' b]]; simpl in H1; try discriminate.
    rewrite !bzip_single, map_map. rewrite <- (map_id a) at 2.
    apply map_ext_in. intros x Hx. apply H; [exact Hx | now left].
Qed.

Lemma broadcasts_onto_dims (a b : array3) :
  broadcasts_onto a b = true ->
  (dim0 b = dim0 a \/ dim0 b = 1%nat) /\
  (dim1 b = dim1 a \/ dim1 b = 1%nat) /\
  (dim2 b = dim2 a \/ dim2 b = 1%nat).
Proof.
  unfold broadcasts_onto. intros H.
  apply andb_true_iff in H as [H H2]. apply andb_true_iff in H as [H0 H1].
  auto using inplace_ok_cases.
Qed.

Lemma iop3_Ok (f : R -> R -> R) (a b : array3) :
  broadcasts_onto a b = true ->
  iop3 f a b = Ok (Arr3 (shape3 a) (bzip (bzip (bzip f)) (cells3 a) (cells3 b))).
Proof. unfold iop3, broadcasts_onto. now intros ->. Qed.

Lemma iop3_Raise (f : R -> R -> R) (a b : array3) :
  broadcasts_onto a b = false ->
  iop3 f a b = Raise (ValueError "non-broadcastable output operand").
Proof. unfold iop3, broadcasts_onto. now intros ->. Qed.

Lemma iop3_undo (f g : R -> R -> R) (a b : array3) :
  (forall x y, g (f x y) y = x) ->
  wf_array3 a -> wf_array3 b -> broadcasts_onto a b = true ->
  exists r, iop3 f a b = Ok r /\ shape3 r = shape3 a /\ iop3 g r b = Ok a.
Proof.
  intros Hfg [Wa Wa'] [Wb Wb'] Hb.
  eexists. split; [now apply iop3_Ok |]. split; [reflexivity |].
  rewrite iop3_Ok by exact Hb. cbn [shape3 cells3].
  destruct (broadcasts_onto_dims a b Hb) as (D0 & D1 & D2).
  rewrite List.Forall_forall in Wa', Wb'.
  destruct a as [sh cs]. cbn [shape3 cells3] in *. do 2 f_equal.
  apply bzip_undo; [lia |]. intros x y Hx Hy.
  destruct (Wa' x Hx) as [Lx Fx]. destruct (Wb' y Hy) as [Ly Fy].
  rewrite List.Forall_forall in Fx, Fy.
  apply bzip_undo; [lia |]. intros u v Hu Hv.
  pose proof (Fx u Hu) as Lu. pose proof (Fy v Hv) as Lv.
  apply bzip_undo; [lia |]. intros p q _ _. apply Hfg.
Qed.

Lemma iadd_spec (f : R -> R -> R) (self tfr : AverageTFR)
  (h : gmap positive array3) (r : array3) :
  _check_compat self tfr = Ok tt ->
  iop3 f (deref h (data self)) (deref h (data tfr)) = Ok r ->
  (do _ <- _check_compat self tfr;
   do '(_, h) <- data_iop f self tfr h;
   Ok (self, h)) = Ok (self, <[data self := r]> h).
Proof. intros Hc Hr. rewrite Hc. unfold data_iop. cbn [bind]. now rewrite Hr. Qed.

(** X18: adding a container and taking it away again, or the other way
    round, gives back the entries of the left operand, also when the right
    operand is broadcast: for two containers that pass the compatibility
    check and a right array of which every extent is that of the left array
    or 1, [(A + B) - B] and [(A - B) + B] are new containers with the
    attributes and the entries of [A], and the arrays of [A] and [B] are
    as before. *)
Theorem add_sub_cancel (A B : AverageTFR) (h : gmap positive array3)
  (a b : array3) :
  h !! data A = Some a -> h !! data B = Some b ->
  wf_array3 a -> wf_array3 b ->
  _check_compat A B = Ok tt -> broadcasts_onto a b = true ->
  (exists s h1 d h2,
     __add__ A B h = Ok (s, h1) /\ __sub__ s B h1 = Ok (d, h2) /\
     same_fields A d /\ deref h2 (data d) = a /\
     h2 !! data A = Some a /\ h2 !! data B = Some b) /\
  (exists s h1 d h2,
     __sub__ A B h = Ok (s, h1) /\ __add__ s B h1 = Ok (d, h2) /\
     same_fields A d /\ deref h2 (data d) = a /\
     h2 !! data A = Some a /\ h2 !! data B = Some b).
Proof.
  intros Ha Hb Wa Wb Hc Hbc.
  assert (G : forall f g : R -> R -> R, (forall x y, g (f x y) y = x) ->
            exists r, iop3 f a b = Ok r /\ iop3 g r b = Ok a).
  { intros f g Hfg. destruct (iop3_undo f g a b Hfg Wa Wb Hbc) as (r & H1 & _ & H2).
    eauto. }
  set (l := fresh (dom h)).
  set (s := mkTFR (info A) l (times A) (freqs A) (nave A) (comment A) (method A)).
  assert (Hcs : _check_compat s B = Ok tt) by exact Hc.
  assert (Hstore : forall r, let h1 := <[l := r]> h in
            h1 !! data s = Some r /\ h1 !! data A = Some a /\
            h1 !! data B = Some b).
  { intros r h1. unfold h1. split; [apply lookup_insert_eq |].
    split; (rewrite lookup_insert_ne; [assumption | eapply fresh_ne; eauto]). }
  assert (Hfinal : forall (h1 : gmap positive array3) r,
            h1 !! data s = Some r -> h1 !! data A = Some a ->
            h1 !! data B = Some b ->
            let l2 := fresh (dom h1) in
            let d := mkTFR (info s) l2 (times s) (freqs s) (nave s) (comment s)
                           (method s) in
            let h2 := <[l2 := a]> h1 in
            same_fields A d /\ deref h2 (data d) = a /\
            h2 !! data A = Some a /\ h2 !! data B = Some b).
  { intros h1 r Hs1 Ha1 Hb1 l2 d h2.
    split; [repeat split |]. split; [apply deref_lookup, lookup_insert_eq |].
    split; (unfold h2; rewrite lookup_insert_ne; [assumption | eapply fresh_ne; eauto]). }
  split.
  - destruct (G Rplus Rminus ltac:(intros; lra)) as (r & Hr & Hr').
    destruct (Hstore r) as (Hs1 & Ha1 & Hb1).
    exists s, (<[l := r]> h). eexists _, _.
    split; [apply (add_spec A B h a b r Ha Hb Hc Hr) |].
    split; [apply (sub_spec s B _ r b a Hs1 Hb1 Hcs Hr') |].
    apply (Hfinal _ r Hs1 Ha1 Hb1).
  - destruct (G Rminus Rplus ltac:(intros; lra)) as (r & Hr & Hr').
    destruct (Hstore r) as (Hs1 & Ha1 & Hb1).
    exists s, (<[l := r]> h). eexists _, _.
    split; [apply (sub_spec A B h a b r Ha Hb Hc Hr) |].
    split; [apply (add_spec s B _ r b a Hs1 Hb1 Hcs Hr') |].
    apply (Hfinal _ r Hs1 Ha1 Hb1).
Qed.

Lemma add_sub_cancel_witness :
  exists s h1 d h2,
    __add__ tfr_two tfr_one store_two_one = Ok (s, h1) /\
    __sub__ s tfr_one h1 = Ok (d, h2) /\
    same_fields tfr_two d /\ deref h2 (data d) = two_channels.
Proof.
  destruct (add_sub_cancel tfr_two tfr_one store_two_one two_channels one_channel)
    as [(s & h1 & d & h2 & H1 & H2 & H3 & H4 & _) _].
  - apply lookup_insert_eq.
  - unfold store_two_one. rewrite lookup_insert_ne by discriminate.
    apply lookup_insert_eq.
  - split; [reflexivity | repeat constructor].
  - split; [reflexivity | repeat constructor].
  - apply check_compat_same_axes; reflexivity.
  - reflexivity.
  - exists s, h1, d, h2.
    split; [exact H1 | split; [exact H2 | split; [exact H3 | exact H4]]].
Defined.

(** X19: the in-place operators work on the array of the left operand
    and return the left operand itself.  For two containers on different
    arrays that pass the compatibility check, [A += B] replaces the array
    of [A] by the sum, of the same extents, and touches nothing else, and
    [A -= B] afterwards puts the store back as it was. *)
Theorem iadd_then_isub (A B : AverageTFR) (h : gmap positive array3)
  (a b : array3) :
  data A <> data B ->
  h !! data A = Some a -> h !! data B = Some b ->
  wf_array3 a -> wf_array3 b ->
  _check_compat A B = Ok tt -> broadcasts_onto a b = true ->
  exists r,
    iop3 Rplus a b = Ok r /\ shape3 r = shape3 a /\
    __iadd__ A B h = Ok (A, <[data A := r]> h) /\
    __isub__ A B (<[data A := r]> h) = Ok (A, h).
Proof.
  intros Hne Ha Hb Wa Wb Hc Hbc.
  destruct (iop3_undo Rplus Rminus a b ltac:(intros; lra) Wa Wb Hbc)
    as (r & Hr & Hsh & Hr').
  exists r. split; [exact Hr |]. split; [exact Hsh |]. split.
  - unfold __iadd__. apply iadd_spec; [exact Hc |].
    now rewrite (deref_lookup h _ a Ha), (deref_lookup h _ b Hb).
  - unfold __isub__. rewrite (iadd_spec Rminus A B _ a Hc).
    + rewrite insert_insert_eq, insert_id by exact Ha. reflexivity.
    + rewrite (deref_lookup _ (data A) r) by apply lookup_insert_eq.
      rewrite (deref_lookup _ (data B) b)
        by (rewrite lookup_insert_ne; [exact Hb | exact Hne]).
      exact Hr'.
Qed.

Lemma iadd_then_isub_witness :
  exists r,
    iop3 Rplus two_channels one_channel = Ok r /\
    __iadd__ tfr_two tfr_one store_two_one
    = Ok (tfr_two, <[1%positive := r]> store_two_one) /\
    __isub__ tfr_two tfr_one (<[1%positive := r]> store_two_one)
    = Ok (tfr_two, store_two_one).
Proof.
  destruct (iadd_then_isub tfr_two tfr_one store_two_one two_channels
              one_channel) as (r & Hr & _ & H1 & H2).
  - discriminate.
  - apply lookup_insert_eq.
  - unfold store_two_one. rewrite lookup_insert_ne by discriminate.
    apply lookup_insert_eq.
  - split; [reflexivity | repeat constructor].
  - split; [reflexivity | repeat constructor].
  - apply check_compat_same_axes; reflexivity.
  - reflexivity.
  - exists r. split; [exact Hr | split; [exact H1 | exact H2]].
Defined.

Lemma bzip_diag {T} (f : T -> T -> T) (g : T -> T) (l : list T) :
  (forall x, In x l -> f x x = g x) -> bzip f l l = map g l.
Proof.
  intros H. destruct l as [|x [|y l]]; [reflexivity | |].
  - cbn. now rewrite H by now left.
  - set (l' := x :: y :: l) in *.
    transitivity (zip_with f l' l'); [reflexivity |].
    clearbody l'. induction l' as [|z l' IH]; [reflexivity |].
    cbn [zip_with map]. rewrite (H z) by now left.
    f_equal. apply IH. intros; apply H; now right.
Qed.

Lemma iop3_diag (f : R -> R -> R) (g : R -> R) (a : array3) :
  (forall x, f x x = g x) ->
  iop3 f a a = Ok (Arr3 (shape3 a) (map (map (map g)) (cells3 a))).
Proof.
  intros H. rewrite iop3_Ok.
  - do 2 f_equal. apply bzip_diag. intros m _. apply bzip_diag.
    intros row _. apply bzip_diag. intros x _. apply H.
  - unfold broadcasts_onto, inplace_ok. now rewrite !Nat.eqb_refl.
Qed.

(** X20: when the two operands share one array (the constructor keeps the
    array it is given, so have two containers built on the same array, and
    so has a container used with itself), [A += B] doubles every entry and
    [A -= B] afterwards leaves zeros, not the entries of [A]. *)
Theorem shared_array_not_restored (A B : AverageTFR)
  (h : gmap positive array3) :
  data B = data A -> _check_compat A B = Ok tt ->
  let a := deref h (data A) in
  exists h1 h2,
    __iadd__ A B h = Ok (A, h1) /\
    deref h1 (data A)
    = Arr3 (shape3 a) (map (map (map (fun v => v + v))) (cells3 a)) /\
    __isub__ A B h1 = Ok (A, h2) /\
    deref h2 (data A)
    = Arr3 (shape3 a) (map (map (map (fun _ => 0))) (cells3 a)).
Proof.
  intros Hsh Hc a.
  set (r := Arr3 (shape3 a) (map (map (map (fun v => v + v))) (cells3 a))).
  set (z := Arr3 (shape3 a) (map (map (map (fun _ : R => 0))) (cells3 a))).
  exists (<[data A := r]> h), (<[data A := z]> (<[data A := r]> h)).
  assert (Hr : deref (<[data A := r]> h) (data A) = r)
    by apply deref_lookup, lookup_insert_eq.
  split; [| split; [exact Hr | split]].
  - unfold __iadd__. apply iadd_spec; [exact Hc |]. rewrite Hsh.
    now apply iop3_diag.
  - unfold __isub__. apply iadd_spec; [exact Hc |]. rewrite Hsh, Hr.
    rewrite (iop3_diag Rminus (fun _ => 0)) by (intros; lra).
    unfold r, z. cbn [shape3 cells3]. do 2 f_equal.
    rewrite map_map. apply map_ext. intros m.
    rewrite map_map. apply map_ext. intros row. now rewrite map_map.
  - apply deref_lookup, lookup_insert_eq.
Qed.

Lemma shared_array_not_restored_witness :
  exists h1 h2,
    __iadd__ tfr_two tfr_two store_two_one = Ok (tfr_two, h1) /\
    __isub__ tfr_two tfr_two h1 = Ok (tfr_two, h2) /\
    deref h2 1%positive = Arr3 (2, 1, 1)%nat [[[0]]; [[0]]].
Proof.
  destruct (shared_array_not_restored tfr_two tfr_two store_two_one)
    as (h1 & h2 & H1 & _ & H2 & H3).
  - reflexivity.
  - apply check_compat_same_axes; reflexivity.
  - exists h1, h2. split; [exact H1 | split; [exact H2 | exact H3]].
Defined.

(** X21: axes of the same length that differ in some entry stop all four
    operators at the compatibility check, with an [AssertionError], whatever
    the arrays are. *)
Theorem operators_reject_axes (A B : AverageTFR) (h : gmap positive array3) :
  (length (times B) = length (times A) /\ times B <> times A) \/
  (length (freqs B) = length (freqs A) /\ freqs B <> freqs A) ->
  __add__ A B h = Raise AssertionError /\
  __iadd__ A B h = Raise AssertionError /\
  __sub__ A B h = Raise AssertionError /\
  __isub__ A B h = Raise AssertionError.
Proof.
  intros H. pose proof (check_compat_rejects A B H) as Hc.
  unfold __add__, __iadd__, __sub__, __isub__. rewrite Hc.
  repeat split; reflexivity.
Qed.

Lemma operators_reject_axes_witness :
  __add__ tfr_two (mkTFR (mkInfo ["EEG 001"]%string) 2%positive [1] [10] 7
                         None None) store_two_one
  = Raise AssertionError.
Proof.
  apply operators_reject_axes. left. split; [reflexivity |].
  simpl. intros H. injection H as H. lra.
Defined.

(** X22: when the containers pass the compatibility check but some extent
    of the right array is neither that of the left array nor 1, all four
    operators raise a [ValueError]: a single-channel container can be added
    to a container of several channels, not the other way round. *)
Theorem operators_reject_extents (A B : AverageTFR)
  (h : gmap positive array3) (a b : array3) :
  h !! data A = Some a -> h !! data B = Some b ->
  _check_compat A B = Ok tt -> broadcasts_onto a b = false ->
  raises_ValueError (__add__ A B h) /\ raises_ValueError (__iadd__ A B h) /\
  raises_ValueError (__sub__ A B h) /\ raises_ValueError (__isub__ A B h).
Proof.
  intros Ha Hb Hc Hbc.
  assert (Hin : forall f, (do '(_, h) <- data_iop f A B h; Ok (A, h))
                          = Raise (ValueError "non-broadcastable output operand")).
  { intros f. unfold data_iop.
    rewrite (deref_lookup h _ a Ha), (deref_lookup h _ b Hb).
    now rewrite (iop3_Raise f a b Hbc). }
  assert (Hout : forall f, (do '(out, h) <- copy A h;
                            do '(_, h) <- data_iop f out B h;
                            Ok (out, h))
                           = Raise (ValueError "non-broadcastable output operand")).
  { intros f. unfold copy, data_iop. cbn [bind data].
    rewrite (deref_lookup h _ a Ha).
    rewrite (deref_lookup (<[fresh (dom h) := a]> h) (fresh (dom h)) a)
      by apply lookup_insert_eq.
    rewrite (deref_lookup (<[fresh (dom h) := a]> h) (data B) b)
      by (rewrite lookup_insert_ne; [exact Hb | eapply fresh_ne; eauto]).
    now rewrite (iop3_Raise f a b Hbc). }
  unfold __add__, __iadd__, __sub__, __isub__. rewrite Hc. cbn [bind].
  rewrite !Hin, !Hout. repeat split; eexists; reflexivity.
Qed.

Lemma operators_reject_extents_witness :
  raises_ValueError (__add__ tfr_one tfr_two store_two_one).
Proof.
  apply (operators_reject_extents tfr_one tfr_two store_two_one one_channel
           two_channels).
  - unfold store_two_one. rewrite lookup_insert_ne by discriminate.
    apply lookup_insert_eq.
  - apply lookup_insert_eq.
  - apply check_compat_same_axes; reflexivity.
  - reflexivity.
Defined.

(** X23: the operators keep what the constructor checks.  When the extents
    of the array of [A] agree with its channels, frequencies and times, and
    [B] passes the compatibility check and broadcasts onto [A], each of the
    four operators returns a container for which this holds again, with the
    attributes of [A]; [+] and [-] leave the array of [A] as it was. *)
Theorem operators_keep_consistent (A B : AverageTFR)
  (h : gmap positive array3) (a b : array3) :
  h !! data A = Some a -> h !! data B = Some b ->
  consistent h A ->
  _check_compat A B = Ok tt -> broadcasts_onto a b = true ->
  (forall op, op = __add__ \/ op = __sub__ ->
     exists out h', op A B h = Ok (out, h') /\ consistent h' out /\
                    same_fields A out /\ data out <> data A /\
                    h' !! data A = Some a /\ consistent h' A) /\
  (forall op, op = __iadd__ \/ op = __isub__ ->
     exists h', op A B h = Ok (A, h') /\ consistent h' A).
Proof.
  intros Ha Hb Hcons Hc Hbc.
  assert (Hsh : forall f, exists r, iop3 f a b = Ok r /\ shape3 r = shape3 a)
    by (intros f; eexists; split; [now apply iop3_Ok | reflexivity]).
  unfold consistent in Hcons. rewrite (deref_lookup h _ a Ha) in Hcons.
  destruct Hcons as (C0 & C1 & C2).
  assert (Hkeep : forall r l (h0 : gmap positive array3), shape3 r = shape3 a ->
            h0 !! l = Some r ->
            dim0 (deref h0 l) = dim0 a /\ dim1 (deref h0 l) = dim1 a /\
            dim2 (deref h0 l) = dim2 a).
  { intros r l h0 Hr Hl. rewrite (deref_lookup h0 l r Hl).
    unfold dim0, dim1, dim2. now rewrite Hr. }
  split.
  - intros op Hop. set (l := fresh (dom h)).
    assert (Hl : l <> data A) by (eapply fresh_ne; eauto).
    assert (G : forall f, exists r, shape3 r = shape3 a /\
              (do _ <- _check_compat A B;
               do '(out, h) <- copy A h;
               do '(_, h) <- data_iop f out B h;
               Ok (out, h))
              = Ok (mkTFR (info A) l (times A) (freqs A) (nave A) (comment A)
                          (method A), <[l := r]> h)).
    { intros f. destruct (Hsh f) as (r & Hr & Hs). exists r. split; [exact Hs |].
      rewrite Hc. cbn [bind]. now apply copy_then_iop with (a := a) (b := b). }
    assert (G' : forall f, exists out h',
              (do _ <- _check_compat A B;
               do '(out, h) <- copy A h;
               do '(_, h) <- data_iop f out B h;
               Ok (out, h)) = Ok (out, h') /\ consistent h' out /\
              same_fields A out /\ data out <> data A /\
              h' !! data A = Some a /\ consistent h' A).
    { intros f. destruct (G f) as (r & Hs & ->). eexists _, _.
      split; [reflexivity |].
      assert (HA : (<[l := r]> h) !! data A = Some a)
        by (rewrite lookup_insert_ne; [exact Ha | exact Hl]).
      split; [| split; [repeat split | split; [exact Hl | split; [exact HA |]]]].
      - unfold consistent. cbn [data info freqs times].
        destruct (Hkeep r l (<[l := r]> h) Hs (lookup_insert_eq _ _ _))
          as (-> & -> & ->). auto.
      - unfold consistent. rewrite (deref_lookup _ _ a HA). auto. }
    destruct Hop as [-> | ->]; [apply (G' Rplus) | apply (G' Rminus)].
  - intros op Hop.
    assert (G : forall f, exists h',
              (do _ <- _check_compat A B;
               do '(_, h) <- data_iop f A B h;
               Ok (A, h)) = Ok (A, h') /\ consistent h' A).
    { intros f. destruct (Hsh f) as (r & Hr & Hs). eexists. split.
      - apply iadd_spec; [exact Hc |].
        rewrite (deref_lookup h _ a Ha), (deref_lookup h _ b Hb). exact Hr.
      - unfold consistent.
        destruct (Hkeep r (data A) (<[data A := r]> h) Hs (lookup_insert_eq _ _ _))
          as (-> & -> & ->). auto. }
    destruct Hop as [-> | ->]; [apply (G Rplus) | apply (G Rminus)].
Qed.

Lemma operators_keep_consistent_witness :
  exists out h',
    __add__ tfr_two tfr_one store_two_one = Ok (out, h') /\ consistent h' out.
Proof.
  destruct (operators_keep_consistent tfr_two tfr_one store_two_one
              two_channels one_channel) as [H _].
  - apply lookup_insert_eq.
  - unfold store_two_one. rewrite lookup_insert_ne by discriminate.
    apply lookup_insert_eq.
  - repeat split.
  - apply check_compat_same_axes; reflexivity.
  - reflexivity.
  - destruct (H __add__ (or_introl eq_refl)) as (out & h' & H1 & H2 & _).
    exists out, h'. split; [exact H1 | exact H2].
Defined.

End ContainerExtras.

(** ** Writing and reading containers *)

Module PersistenceExtras.
Import Tfr ContainerFacts.

(** The dictionary written for a container. *)
Lemma write_tfrs_out_map (h : gmap positive array3)
  (tfr : AverageTFR + list AverageTFR) :
  write_tfrs_out h tfr
  = map (fun '(ii, t) => _prepare_write_tfr h t (condition_of ii t))
        (combine (seq 0 (length (written tfr))) (written tfr)).
Proof.
  unfold write_tfrs_out, written. apply map_ext. now intros [ii t].
Qed.

Lemma map_snd_enumerate {A B K} (f : A -> B) (key : nat -> A -> K)
  (l : list A) (k : nat) :
  map snd (map (fun '(ii, t) => (key ii t, f t)) (combine (seq k (length l)) l))
  = map f l.
Proof.
  revert k. induction l as [|t l IH]; intros k; [reflexivity |].
  cbn [length seq combine map snd]. now rewrite IH.
Qed.

Lemma from_dict_Ok (d : tfr_dict) (h : gmap positive array3) :
  dim0 (d_data d) = length (chs (d_info d)) ->
  dim1 (d_data d) = length (d_freqs d) ->
  dim2 (d_data d) = length (d_times d) ->
  from_dict d h
  = Ok (mkTFR (d_info d) (fresh (dom h)) (d_times d) (d_freqs d) (d_nave d)
              (d_comment d) (d_method d),
        <[fresh (dom h) := d_data d]> h).
Proof.
  intros H0 H1 H2. unfold from_dict, __init__.
  rewrite (deref_lookup _ _ (d_data d)) by apply lookup_insert_eq.
  now rewrite H0, H1, H2, !Nat.eqb_refl.
Qed.

Lemma fresh_unallocated (h : gmap positive array3) : h !! fresh (dom h) = None.
Proof. apply not_elem_of_dom, is_fresh. Qed.

Lemma from_dicts_Ok (h0 : gmap positive array3) (l : list AverageTFR)
  (h : gmap positive array3) :
  Forall (consistent h0) l ->
  exists ts h',
    from_dicts (map (fun t => snd (_prepare_write_tfr h0 t (CondInt 0))) l) h
    = Ok (ts, h') /\
    h ⊆ h' /\
    Forall2 (fun t t' => same_fields t t' /\
                         h' !! data t' = Some (deref h0 (data t)) /\
                         h !! data t' = None) l ts.
Proof.
  intros Hl. revert h. induction Hl as [|t l (C0 & C1 & C2) _ IH]; intros h.
  - exists [], h. split; [reflexivity |]. split; [reflexivity | constructor].
  - cbn [map from_dicts _prepare_write_tfr snd].
    rewrite from_dict_Ok by assumption. cbn [bind].
    cbn [d_info d_times d_freqs d_nave d_comment d_method d_data].
    set (l0 := fresh (dom h)). set (h1 := <[l0 := deref h0 (data t)]> h).
    destruct (IH h1) as (ts & h' & Hts & Hsub & Hall).
    cbn [from_dicts _prepare_write_tfr snd] in Hts. rewrite Hts. cbn [bind].
    assert (H01 : h ⊆ h1) by (apply insert_subseteq, fresh_unallocated).
    eexists _, _. split; [reflexivity |].
    split; [etransitivity; eassumption |].
    constructor.
    + split; [repeat split |]. cbn [data]. split.
      * eapply lookup_weaken; [apply lookup_insert_eq | exact Hsub].
      * apply fresh_unallocated.
    + eapply Forall2_impl; [exact Hall |].
      intros x y (Hf & Hd & Hn). split; [exact Hf |]. split; [exact Hd |].
      destruct (h !! data y) as [v|] eqn:E; [| reflexivity].
      rewrite (lookup_weaken _ _ _ _ E H01) in Hn. discriminate.
Qed.

(** X24: what [write_tfrs] hands to the file layer, read back by
    [read_tfrs] without a condition, gives a list with one new container for
    each container written, in order, with the same attributes and the same
    entries, on arrays that were not allocated before; the arrays that were
    are untouched.  A single container comes back as a list of one.  The
    containers written have arrays whose extents agree with their axes, and
    there is at least one. *)
Theorem write_read_roundtrip
  (check_fname : string -> result unit)
  (read_hdf5 : string -> result (list (condition * tfr_dict)))
  (fname : string) (h0 h : gmap positive array3)
  (tfr : AverageTFR + list AverageTFR) :
  check_fname fname = Ok tt ->
  read_hdf5 fname = Ok (write_tfrs_out h0 tfr) ->
  written tfr <> [] ->
  Forall (consistent h0) (written tfr) ->
  exists ts h',
    read_tfrs check_fname read_hdf5 fname None h = Ok (inr ts, h') /\
    h ⊆ h' /\
    Forall2 (fun t t' => same_fields t t' /\
                         deref h' (data t') = deref h0 (data t) /\
                         h !! data t' = None) (written tfr) ts.
Proof.
  intros Hck Hrd Hne Hall. unfold read_tfrs. rewrite Hck, Hrd. cbn [bind].
  rewrite write_tfrs_out_map.
  destruct (written tfr) as [|t l] eqn:E; [congruence |].
  destruct (from_dicts_Ok h0 (t :: l) h Hall) as (ts & h' & Hts & Hsub & HF).
  remember (map (fun '(ii, t0) => _prepare_write_tfr h0 t0 (condition_of ii t0))
                (combine (seq 0 (length (t :: l))) (t :: l))) as out eqn:Eo.
  assert (Hout : map snd out
                 = map (fun t => snd (_prepare_write_tfr h0 t (CondInt 0))) (t :: l)).
  { rewrite Eo.
    apply (map_snd_enumerate
             (fun t => snd (_prepare_write_tfr h0 t (CondInt 0))) condition_of). }
  destruct out as [|p rest]; [discriminate Eo |].
  rewrite Hout, Hts. cbn [bind].
  exists ts, h'. split; [reflexivity |]. split; [exact Hsub |].
  eapply Forall2_impl; [exact HF |].
  intros x y (Hf & Hd & Hn). split; [exact Hf |]. split; [| exact Hn].
  now apply deref_lookup.
Qed.

Lemma write_read_roundtrip_witness :
  exists ts h',
    read_tfrs (fun _ => Ok tt)
              (fun _ => Ok (write_tfrs_out store_two_one (inr [tfr_two; tfr_one])))
              "two-tfr.h5" None store_two_one = Ok (inr ts, h') /\
    length ts = 2%nat.
Proof.
  destruct (write_read_roundtrip (fun _ => Ok tt)
              (fun _ => Ok (write_tfrs_out store_two_one (inr [tfr_two; tfr_one])))
              "two-tfr.h5" store_two_one store_two_one (inr [tfr_two; tfr_one]))
    as (ts & h' & H & _ & HF).
  - reflexivity.
  - reflexivity.
  - discriminate.
  - repeat constructor.
  - exists ts, h'. split; [exact H |].
    symmetry. exact (Forall2_length _ _ _ HF).
Defined.

Lemma condition_eqb_eq (a b : condition) : condition_eqb a b = true <-> a = b.
Proof.
  destruct a as [i | s], b as [j | t]; cbn.
  - rewrite Z.eqb_eq. split; [now intros -> | now intros [= ->]].
  - split; discriminate.
  - split; discriminate.
  - rewrite String.eqb_eq. split; [now intros -> | now intros [= ->]].
Qed.

Lemma dict_get_none (h0 : gmap positive array3) (l : list AverageTFR)
  (k : nat) (c : condition) :
  (forall j t, nth_error l j = Some t -> condition_of (k + j) t <> c) ->
  dict_get (map (fun '(ii, t) => _prepare_write_tfr h0 t (condition_of ii t))
                (combine (seq k (length l)) l)) c = None.
Proof.
  revert k. induction l as [|t l IH]; intros k H; [reflexivity |].
  cbn [length seq combine map dict_get _prepare_write_tfr].
  rewrite IH.
  - destruct (condition_eqb (condition_of k t) c) eqn:E; [| reflexivity].
    apply condition_eqb_eq in E. exfalso. apply (H 0%nat t eq_refl).
    now rewrite Nat.add_0_r.
  - intros j t2 Hj. replace (S k + j)%nat with (k + S j)%nat by lia.
    now apply H.
Qed.

Lemma dict_get_some (h0 : gmap positive array3) (l : list AverageTFR)
  (k i : nat) (t : AverageTFR) (c : condition) :
  nth_error l i = Some t -> condition_of (k + i) t = c ->
  (forall j t2, (i < j)%nat -> nth_error l j = Some t2 ->
     condition_of (k + j) t2 <> c) ->
  dict_get (map (fun '(ii, t) => _prepare_write_tfr h0 t (condition_of ii t))
                (combine (seq k (length l)) l)) c
  = Some (snd (_prepare_write_tfr h0 t c)).
Proof.
  revert k i. induction l as [|t0 l IH]; intros k i Hi Hc Hlast;
    [destruct i; discriminate |].
  cbn [length seq combine map dict_get _prepare_write_tfr].
  destruct i as [|i].
  - injection Hi as ->. rewrite dict_get_none.
    + rewrite Nat.add_0_r in Hc. rewrite Hc.
      now rewrite (proj2 (condition_eqb_eq c c) eq_refl).
    + intros j t2 Hj. replace (S k + j)%nat with (k + S j)%nat by lia.
      apply Hlast; [lia | exact Hj].
  - rewrite (IH (S k) i Hi).
    + reflexivity.
    + now replace (S k + i)%nat with (k + S i)%nat by lia.
    + intros j t2 Hij Hj. replace (S k + j)%nat with (k + S j)%nat by lia.
      apply Hlast; [lia | exact Hj].
Qed.

(** X25: [read_tfrs] with a condition finds a written container under the
    key [write_tfrs] gave it: its comment, or its position in the list when
    it has no comment.  When no later container of the list was written
    under the same key, the container read has the attributes and the
    entries of the written one, on an array that was not allocated
    before. *)
Theorem read_by_condition
  (check_fname : string -> result unit)
  (read_hdf5 : string -> result (list (condition * tfr_dict)))
  (fname : string) (h0 h : gmap positive array3)
  (tfr : AverageTFR + list AverageTFR) (i : nat) (t : AverageTFR) :
  check_fname fname = Ok tt ->
  read_hdf5 fname = Ok (write_tfrs_out h0 tfr) ->
  nth_error (written tfr) i = Some t -> consistent h0 t ->
  (forall j t2, (i < j)%nat -> nth_error (written tfr) j = Some t2 ->
     condition_of j t2 <> condition_of i t) ->
  exists t' h',
    read_tfrs check_fname read_hdf5 fname (Some (condition_of i t)) h
    = Ok (inl t', h') /\
    same_fields t t' /\ deref h' (data t') = deref h0 (data t) /\
    h !! data t' = None /\ h ⊆ h'.
Proof.
  intros Hck Hrd Hi (C0 & C1 & C2) Hlast. unfold read_tfrs.
  rewrite Hck, Hrd. cbn [bind]. rewrite write_tfrs_out_map.
  rewrite (dict_get_some h0 (written tfr) 0 i t (condition_of i t) Hi eq_refl Hlast).
  cbn [_prepare_write_tfr snd].
  rewrite from_dict_Ok by assumption. cbn [bind].
  eexists _, _. split; [reflexivity |].
  cbn [d_info d_times d_freqs d_nave d_comment d_method d_data data].
  split; [repeat split |].
  split; [apply deref_lookup, lookup_insert_eq |].
  split; [apply fresh_unallocated | apply insert_subseteq, fresh_unallocated].
Qed.

Lemma read_by_condition_witness :
  exists t' h',
    read_tfrs (fun _ => Ok tt)
              (fun _ => Ok (write_tfrs_out store_two_one (inr [tfr_two; tfr_one])))
              "two-tfr.h5" (Some (CondInt 1)) store_two_one = Ok (inl t', h') /\
    deref h' (data t') = one_channel.
Proof.
  destruct (read_by_condition (fun _ => Ok tt)
              (fun _ => Ok (write_tfrs_out store_two_one (inr [tfr_two; tfr_one])))
              "two-tfr.h5" store_two_one store_two_one (inr [tfr_two; tfr_one])
              1 tfr_one)
    as (t' & h' & H & _ & Hd & _).
  - reflexivity.
  - reflexivity.
  - reflexivity.
  - repeat split.
  - intros [|[|[|j]]] t2 Hj Ht; try lia; discriminate.
  - exists t', h'. split; [exact H | exact Hd].
Defined.

(** X26: [read_tfrs] with a condition under which nothing was written
    raises a [ValueError]; in particular a container that has a comment
    cannot be read by its position.  Without a condition, a file written
    from an empty list raises an [IndexError] instead of giving an empty
    list. *)
Theorem read_failures
  (check_fname : string -> result unit)
  (read_hdf5 : string -> result (list (condition * tfr_dict)))
  (fname : string) (h0 h : gmap positive array3)
  (tfr : AverageTFR + list AverageTFR) :
  check_fname fname = Ok tt ->
  read_hdf5 fname = Ok (write_tfrs_out h0 tfr) ->
  (forall c,
     (forall j t, nth_error (written tfr) j = Some t -> condition_of j t <> c) ->
     raises_ValueError (read_tfrs check_fname read_hdf5 fname (Some c) h)) /\
  (forall j t c, nth_error (written tfr) j = Some t -> comment t = Some c ->
     (forall j2 t2, nth_error (written tfr) j2 = Some t2 ->
        comment t2 = None -> j2 <> j) ->
     raises_ValueError
       (read_tfrs check_fname read_hdf5 fname (Some (CondInt (Z.of_nat j))) h)) /\
  (written tfr = [] ->
   read_tfrs check_fname read_hdf5 fname None h = Raise IndexError).
Proof.
  intros Hck Hrd.
  assert (G : forall c,
            (forall j t, nth_error (written tfr) j = Some t ->
                         condition_of j t <> c) ->
            raises_ValueError
              (read_tfrs check_fname read_hdf5 fname (Some c) h)).
  { intros c Hc. unfold read_tfrs. rewrite Hck, Hrd. cbn [bind].
    rewrite write_tfrs_out_map, (dict_get_none h0 _ 0 c Hc).
    eexists; reflexivity. }
  split; [exact G |]. split.
  - intros j t c Hj Hcm Hpos. apply G. intros j2 t2 Hj2. unfold condition_of.
    destruct (comment t2) as [c2|] eqn:E2; [discriminate |].
    intros Heq. injection Heq as Heq. apply (Hpos j2 t2 Hj2 E2). lia.
  - intros He. unfold read_tfrs. rewrite Hck, Hrd. cbn [bind].
    rewrite write_tfrs_out_map, He. reflexivity.
Qed.

Lemma read_failures_witness :
  raises_ValueError
    (read_tfrs (fun _ => Ok tt)
               (fun _ => Ok (write_tfrs_out store_two_one (inr [tfr_two; tfr_one])))
               "two-tfr.h5" (Some (CondStr "rest")) store_two_one).
Proof.
  apply (proj1 (read_failures (fun _ => Ok tt)
                  (fun _ => Ok (write_tfrs_out store_two_one
                                               (inr [tfr_two; tfr_one])))
                  "two-tfr.h5" store_two_one store_two_one
                  (inr [tfr_two; tfr_one]) eq_refl eq_refl)).
  intros [|[|j]] t Hj; try (injection Hj as <-; discriminate).
  destruct j; discriminate.
Defined.

End PersistenceExtras.

(** ** The Stockwell worker on a padded signal *)

Module StockwellPadded.
Import Stockwell ReductionFacts.

Lemma mapM_Ok_Forall_In {A B} (f : A -> result B) (P : B -> Prop) (l : list A)
  (bs : list B) :
  (forall a b, In a l -> f a = Ok b -> P b) -> mapM f l = Ok bs -> Forall P bs.
Proof.
  revert bs. induction l as [|a l IH]; simpl; intros bs Hf H.
  - inversion H. constructor.
  - destruct (f a) as [b|e] eqn:E; simpl in H; [| discriminate].
    destruct (mapM f l) as [bs'|e]; simpl in H; [| discriminate].
    inversion H; subst. constructor; eauto.
Qed.

Lemma py_slice_Ok {T} (d : T) (l : list T) (start stop : option Z) (step : Z) :
  step <> 0%Z -> exists r, py_slice d l start stop step = Ok r.
Proof.
  intros H. unfold py_slice. apply Z.eqb_neq in H. rewrite H. eauto.
Qed.

(** [l[:-zero_pad:decim]] keeps every [decim]-th of the first
    [len - zero_pad] entries. *)
Lemma py_slice_drop_tail {T} (d : T) (l : list T) (zero_pad decim : Z) :
  (0 < decim)%Z -> (0 < zero_pad <= Z.of_nat (length l))%Z ->
  exists r, py_slice d l None (Some (- zero_pad)%Z) decim = Ok r /\
            length r = kept (length l - Z.to_nat zero_pad) decim.
Proof.
  intros Hd Hz. unfold py_slice, adjust_index.
  destruct (decim =? 0)%Z eqn:E0; [apply Z.eqb_eq in E0; lia |].
  destruct (decim <? 0)%Z eqn:E1; [apply Z.ltb_lt in E1; lia |].
  destruct (- zero_pad <? 0)%Z eqn:E2; [| apply Z.ltb_ge in E2; lia].
  destruct (- zero_pad + Z.of_nat (length l) <? 0)%Z eqn:E3;
    [apply Z.ltb_lt in E3; lia |].
  eexists. split; [reflexivity |]. rewrite length_map, length_seq.
  replace (- zero_pad + Z.of_nat (length l))%Z
    with (Z.of_nat (length l - Z.to_nat zero_pad)) by lia.
  now apply slice_count_kept.
Qed.

Lemma Rmean_nonneg (l : list R) : Forall (fun x => 0 <= x) l -> 0 <= Rmean l.
Proof.
  intros H. unfold Rmean, Rdiv. apply Rmult_le_pos; [now apply Rsum_nonneg |].
  destruct l as [|x l]; [simpl; rewrite Rinv_0; lra |].
  left. apply Rinv_0_lt_compat, lt_0_INR. simpl; lia.
Qed.

Lemma st_bin_padded (XX : list (list C)) (n_samp : nat) (zero_pad decim : Z)
  (compute_itc : bool) (f : nat) (window : list C) :
  (0 < decim)%Z -> (0 < zero_pad <= Z.of_nat n_samp)%Z ->
  (f <= n_samp)%nat -> length window = n_samp ->
  exists p i,
    st_bin XX n_samp zero_pad decim compute_itc f window = Ok (p, i) /\
    length p = kept (n_samp - Z.to_nat zero_pad) decim /\
    Forall (fun v => 0 <= v) p /\
    match i with
    | Some v => compute_itc = true /\
                length v = kept (n_samp - Z.to_nat zero_pad) decim /\
                Forall (fun v => 0 <= v) v
    | None => compute_itc = false
    end.
Proof.
  intros Hd Hz Hf Hw. unfold st_bin.
  rewrite length_py_slice1 by (rewrite ?repeat_length; lia).
  replace (Z.to_nat (Z.of_nat (f + n_samp) - Z.of_nat f)) with n_samp by lia.
  rewrite Hw. unfold broadcast_extent. rewrite Nat.eqb_refl. cbn [bind].
  destruct (py_slice_drop_tail 0%nat (seq 0 n_samp) zero_pad decim Hd)
    as (ix & -> & Hix); [rewrite length_seq; lia |].
  rewrite length_seq in Hix. cbn [bind].
  match goal with |- context [mapM ?g ?l] =>
    destruct (mapM_all_Ok g l) as [TFR ->]
  end.
  { intros st _. apply py_slice_Ok. lia. }
  cbn [bind]. eexists _, _. split; [reflexivity |].
  split; [now rewrite length_map, length_seq |]. split.
  - apply List.Forall_forall. intros v Hv.
    apply in_map_iff in Hv as (j & <- & _). apply Rmean_nonneg.
    apply List.Forall_forall. intros y Hy. unfold column in Hy.
    apply in_map_iff in Hy as (r & <- & Hr).
    apply in_map_iff in Hr as (r0 & <- & Hr0).
    destruct (nth_in_or_default j (map (fun a => a * a) r0) 0)
      as [Hin | ->]; [| lra].
    apply in_map_iff in Hin as (a & <- & _). nra.
  - destruct compute_itc; [| reflexivity].
    split; [reflexivity |]. split; [now rewrite length_map, length_seq |].
    apply List.Forall_forall. intros v Hv.
    apply in_map_iff in Hv as (j & <- & _). apply Cabs_nonneg.
Qed.

(** The worker returns on a padded signal. *)
Lemma st_power_itc_total (x : array2 R) (start_f : nat)
  (compute_itc : bool) (zero_pad decim : Z) (W : list (list C)) :
  (0 < decim)%Z -> (0 < zero_pad <= Z.of_nat (ncols x))%Z ->
  Forall (fun w => length w = ncols x) W ->
  (start_f + length W <= ncols x)%nat ->
  let n_out := kept (ncols x - Z.to_nat zero_pad) decim in
  exists psd itc,
    _st_power_itc x start_f compute_itc zero_pad decim W = Ok (psd, itc) /\
    shaped (length W) n_out psd /\
    (forall i j, (i < length W)%nat -> (j < n_out)%nat -> 0 <= get2 0 psd i j) /\
    if compute_itc
    then exists a, itc = Some a /\ shaped (length W) n_out a /\
                   forall i j, (i < length W)%nat -> (j < n_out)%nat ->
                               0 <= get2 0 a i j
    else itc = None.
Proof.
  intros Hd Hz HW Hf n_out. unfold _st_power_itc.
  replace (Z.of_nat (ncols x) - zero_pad)%Z
    with (Z.of_nat (ncols x - Z.to_nat zero_pad)) by lia.
  destruct (decim_len_extent (ncols x - Z.to_nat zero_pad) decim Hd)
    as (m & -> & Hm).
  cbn [bind]. rewrite Hm. cbn [bind]. fold n_out.
  set (XX := map (fun r => r ++ r) _).
  set (P := fun b : list R * option (list R) =>
              (length (fst b) = n_out /\ Forall (fun v => 0 <= v) (fst b)) /\
              match snd b with
              | Some v => compute_itc = true /\ length v = n_out /\
                          Forall (fun v => 0 <= v) v
              | None => compute_itc = false
              end).
  assert (Hbody : forall a, In a (combine (seq 0 (length W)) W) ->
            exists b,
              (let '(i_f, window) := a in
               do '(p, i) <- st_bin XX (ncols x) zero_pad decim compute_itc
                                    (start_f + i_f) window;
               do p' <- assign_row n_out p;
               do i' <- match i with
                        | Some v => do v' <- assign_row n_out v; Ok (Some v')
                        | None => Ok None
                        end;
               Ok (p', i')) = Ok b /\ P b).
  { intros [i_f window] Hin.
    pose proof (in_combine_l _ _ _ _ Hin) as Hi. apply in_seq in Hi.
    pose proof (in_combine_r _ _ _ _ Hin) as Hw.
    rewrite List.Forall_forall in HW. apply HW in Hw.
    destruct (st_bin_padded XX (ncols x) zero_pad decim compute_itc
                (start_f + i_f) window Hd Hz ltac:(lia) Hw)
      as (p & i & -> & Hp & Hpos & Hi').
    cbn [bind]. fold n_out in Hp, Hi'.
    rewrite (EngineRuns.assign_row_same n_out p Hp). cbn [bind].
    destruct i as [v|].
    - destruct Hi' as (Hc & Hv & Hvpos).
      rewrite (EngineRuns.assign_row_same n_out v Hv). cbn [bind].
      eexists. split; [reflexivity |]. unfold P. cbn [fst snd]. auto.
    - eexists. split; [reflexivity |]. unfold P. cbn [fst snd]. auto. }
  match goal with |- context [mapM ?g ?l] =>
    destruct (mapM_all_Ok g l) as [bins Hbins]
  end.
  { intros a Ha. destruct (Hbody a Ha) as (b & Hb & _). eauto. }
  rewrite Hbins. cbn [bind].
  pose proof (mapM_Ok_length _ _ _ Hbins) as Hlen.
  rewrite length_combine, length_seq, Nat.min_id in Hlen.
  assert (HP : Forall P bins).
  { eapply mapM_Ok_Forall_In; [| exact Hbins].
    intros a b Ha Hab. destruct (Hbody a Ha) as (b' & Hb' & HPb).
    assert (E : Ok b' = Ok b) by (rewrite <- Hb'; exact Hab).
    now injection E as <-. }
  rewrite List.Forall_forall in HP.
  assert (Hget : forall (rs : list (list R)) i j,
            Forall (fun r => Forall (fun v => 0 <= v) r) rs ->
            0 <= nth j (nth i rs []) 0).
  { intros rs i j Hrs. rewrite List.Forall_forall in Hrs.
    destruct (nth_in_or_default i rs []) as [Hin | ->]; [| destruct j; simpl; lra].
    specialize (Hrs _ Hin). rewrite List.Forall_forall in Hrs.
    destruct (nth_in_or_default j (nth i rs []) 0) as [Hin' | ->]; [auto | lra]. }
  eexists _, _. split; [reflexivity |]. split; [| split].
  - repeat split; cbn [nrows ncols rows]; [now rewrite length_map |].
    apply List.Forall_forall. intros r Hr.
    apply in_map_iff in Hr as (b & <- & Hb). now destruct (HP b Hb) as [[H _] _].
  - intros i j _ _. unfold get2. cbn [rows]. apply Hget.
    apply List.Forall_forall. intros r Hr.
    apply in_map_iff in Hr as (b & <- & Hb). now destruct (HP b Hb) as [[_ H] _].
  - destruct compute_itc; [| reflexivity].
    eexists. split; [reflexivity |]. split.
    + repeat split; cbn [nrows ncols rows]; [now rewrite length_map |].
      apply List.Forall_forall. intros r Hr.
      apply in_map_iff in Hr as (b & <- & Hb). destruct (HP b Hb) as [_ H].
      destruct (snd b); [tauto | discriminate].
    + intros i j _ _. unfold get2. cbn [rows]. apply Hget.
      apply List.Forall_forall. intros r Hr.
      apply in_map_iff in Hr as (b & <- & Hb). destruct (HP b Hb) as [_ H].
      destruct (snd b); [tauto | constructor].
Qed.

(** X27: on a padded signal [_st_power_itc] returns.  For a positive
    decimation factor, a padding that is positive and not longer than the
    signals, at least one trial, windows of the length of the signals and
    frequency bins up to the number of samples, the power array has one row
    per window and [n_out // decim + bool(n_out % decim)] columns, for the
    [n_out] samples before the padding; no power is negative; the coherence
    array has the same extents when it is asked for and is [None]
    otherwise. *)
Theorem st_power_itc_returns (x : array2 R) (start_f : nat)
  (compute_itc : bool) (zero_pad decim : Z) (W : list (list C)) :
  (0 < decim)%Z -> (0 < zero_pad <= Z.of_nat (ncols x))%Z ->
  rows x <> [] -> Forall (fun r => length r = ncols x) (rows x) ->
  Forall (fun w => length w = ncols x) W ->
  (start_f + length W <= ncols x)%nat ->
  let n_out := kept (ncols x - Z.to_nat zero_pad) decim in
  exists psd itc,
    _st_power_itc x start_f compute_itc zero_pad decim W = Ok (psd, itc) /\
    shaped (length W) n_out psd /\
    (forall i j, (i < length W)%nat -> (j < n_out)%nat -> 0 <= get2 0 psd i j) /\
    if compute_itc
    then exists a, itc = Some a /\ shaped (length W) n_out a
    else itc = None.
Proof.
  intros Hd Hz _ _ HW Hf n_out.
  destruct (st_power_itc_total x start_f compute_itc zero_pad decim W Hd Hz HW Hf)
    as (psd & itc & H & Hs & Hpos & Hitc).
  exists psd, itc. split; [exact H |]. split; [exact Hs |]. split; [exact Hpos |].
  destruct compute_itc; [| exact Hitc].
  destruct Hitc as (a & Ha & Hsa & _). eauto.
Qed.

Lemma st_power_itc_returns_witness :
  exists psd itc,
    _st_power_itc (Arr2 1 4 [[1; 2; 3; 0]]) 0 false 1 2
                  [[RtoC 1; RtoC 1; RtoC 1; RtoC 1]] = Ok (psd, itc) /\
    shaped 1 (kept (4 - Z.to_nat 1) 2) psd.
Proof.
  destruct (st_power_itc_returns (Arr2 1 4 [[1; 2; 3; 0]]) 0 false 1 2
              [[RtoC 1; RtoC 1; RtoC 1; RtoC 1]])
    as (psd & itc & H & Hs & _).
  - lia.
  - simpl; lia.
  - discriminate.
  - repeat constructor.
  - repeat constructor.
  - simpl; lia.
  - exists psd, itc. split; [exact H | exact Hs].
Defined.

End StockwellPadded.

(** ** The Stockwell transform of a batch *)

Module StockwellPipeline.
Import Stockwell ReductionFacts.

Lemma check_input_st_Some (x_in : array3) (n_fft : option Z) (padded : array3)
  (n_fft_ zero_pad : Z) :
  _check_input_st x_in n_fft = Ok (Some (padded, n_fft_, zero_pad)) ->
  (0 < zero_pad)%Z /\ n_fft_ = (Z.of_nat (dim2 x_in) + zero_pad)%Z /\
  padded = zero_pad_last x_in (Z.to_nat zero_pad).
Proof.
  unfold _check_input_st. intros H. apply bind_Ok in H as (n' & _ & H).
  destruct (Z.of_nat (dim2 x_in) <? n')%Z eqn:E; [| discriminate].
  apply Z.ltb_lt in E. injection H as <- <- <-. repeat split; lia.
Qed.

Lemma argmin_from_bound (l : list R) (best : nat) (bv : R) (i : nat) :
  (best < i)%nat -> (argmin_from best bv i l < i + length l)%nat.
Proof.
  revert best bv i. induction l as [|v l IH]; intros best bv i H; simpl; [lia |].
  destruct (Rlt_dec v bv).
  - specialize (IH i v (S i) ltac:(lia)). lia.
  - specialize (IH best bv (S i) ltac:(lia)). lia.
Qed.

Lemma argmin_Ok (l : list R) :
  l <> [] -> exists i, argmin l = Ok i /\ (i < length l)%nat.
Proof.
  destruct l as [|v l]; [congruence |]. intros _. eexists. split; [reflexivity |].
  pose proof (argmin_from_bound l 0 v 1 ltac:(lia)). simpl. lia.
Qed.

Lemma st_windows_shape (n_samp start_f stop_f : nat) (sfreq width : R) :
  (1 <= n_samp)%nat ->
  exists W,
    _precompute_st_windows n_samp start_f stop_f sfreq width = Ok W /\
    length W = (stop_f - start_f)%nat /\
    Forall (fun w => length w = n_samp) W.
Proof.
  intros Hn. unfold _precompute_st_windows, fftfreq.
  destruct n_samp as [|n]; [lia |]. cbn [bind].
  set (tw0 := map (fun v => v / INR (S n)) _).
  assert (Htw0 : length tw0 = S n).
  { unfold tw0. rewrite !length_map.
    apply StockwellExtras.length_fftfreq_bins. lia. }
  set (tw := firstn 1 tw0 ++ rev (skipn 1 tw0)).
  assert (Htw : length tw = S n).
  { unfold tw. rewrite length_app, length_firstn, length_rev, length_skipn. lia. }
  eexists. split; [reflexivity |].
  split; [now rewrite length_map, length_seq |].
  apply List.Forall_forall. intros w Hw.
  apply in_map_iff in Hw as (f & <- & _).
  unfold fft. rewrite length_dft, length_map.
  destruct f; now rewrite length_map.
Qed.

(** X28: on a batch that the input check pads, with a positive sampling
    rate and width, both band limits given and one worker,
    [_induced_power_stockwell] takes the band from the
    frequency bins nearest to the limits.  When the upper bin lies below the
    lower one it raises a [ValueError] (a negative extent); otherwise it
    returns, for every channel, a power array of one row per bin of the band
    and [n_times // decim + bool(n_times % decim)] columns, the frequencies
    of the band, and coherence arrays of the same extents when they are
    asked for. *)
Theorem induced_power_stockwell_returns (pool : pool_t) (data : array3)
  (sfreq lo hi : R) (n_fft : option Z) (width : R) (decim : Z)
  (return_itc : bool) (padded : array3) (n_fft_ zero_pad : Z) :
  (0 < decim)%Z -> 0 < sfreq -> 0 < width ->
  wf_array3 data -> (1 <= dim0 data)%nat ->
  _check_input_st data n_fft = Ok (Some (padded, n_fft_, zero_pad)) ->
  let run := _induced_power_stockwell pool data sfreq (Some lo) (Some hi)
                                      n_fft width decim return_itc 1 in
  let n_out := kept (dim2 data) decim in
  exists freqs start_f stop_f,
    fftfreq (Z.to_nat n_fft_) (1 / sfreq) = Ok freqs /\
    argmin (map (fun f => Rabs (f - lo)) freqs) = Ok start_f /\
    argmin (map (fun f => Rabs (f - hi)) freqs) = Ok stop_f /\
    ((stop_f < start_f)%nat ->
     run = Raise (ValueError "negative dimensions are not allowed")) /\
    ((start_f <= stop_f)%nat ->
     exists psd itc,
       run = Ok (psd, itc, py_slice1 freqs (Z.of_nat start_f) (Z.of_nat stop_f)) /\
       length (py_slice1 freqs (Z.of_nat start_f) (Z.of_nat stop_f))
       = (stop_f - start_f)%nat /\
       length psd = dim1 data /\
       Forall (shaped (stop_f - start_f) n_out) psd /\
       if return_itc
       then exists l, itc = Some l /\ length l = dim1 data /\
                      Forall (shaped (stop_f - start_f) n_out) l
       else itc = None).
Proof.
  intros Hd _ _ _ _ Hck run n_out.
  destruct (check_input_st_Some _ _ _ _ _ Hck) as (Hz & Hn & Hp).
  assert (Hdim : dim2 padded = (dim2 data + Z.to_nat zero_pad)%nat)
    by (subst padded; reflexivity).
  assert (Hnf : Z.to_nat n_fft_ = dim2 padded) by lia.
  assert (Hfr : exists freqs, fftfreq (Z.to_nat n_fft_) (1 / sfreq) = Ok freqs /\
                              length freqs = dim2 padded).
  { rewrite Hnf. unfold fftfreq. destruct (dim2 padded) as [|n] eqn:E; [lia |].
    eexists. split; [reflexivity |]. rewrite length_map.
    apply StockwellExtras.length_fftfreq_bins. lia. }
  destruct Hfr as (freqs & Hfreqs & Hlen).
  assert (Harg : forall v, exists i,
            argmin (map (fun f => Rabs (f - v)) freqs) = Ok i /\
            (i < dim2 padded)%nat).
  { intros v. destruct (argmin_Ok (map (fun f => Rabs (f - v)) freqs))
      as (i & Hi & Hlt).
    - destruct freqs; [simpl in Hlen; lia | discriminate].
    - rewrite length_map, Hlen in Hlt. eauto. }
  destruct (Harg lo) as (start_f & Hstart & Hs).
  destruct (Harg hi) as (stop_f & Hstop & He).
  exists freqs, start_f, stop_f.
  split; [exact Hfreqs |]. split; [exact Hstart |]. split; [exact Hstop |].
  destruct (st_windows_shape (dim2 padded) start_f stop_f sfreq width ltac:(lia))
    as (W & HW & HWlen & HWall).
  destruct (decim_len_extent (dim2 data) decim Hd) as (m & Hm & Hm').
  assert (Hrun : run
            = (do n_freq <- check_extent (Z.of_nat stop_f - Z.of_nat start_f);
               do n_out <- check_extent m;
               do tfrs <- mapM (fun c => _st_power_itc (channel_slice padded c)
                                           start_f return_itc zero_pad decim W)
                               (seq 0 (dim1 data));
               do psd <- mapM (fun t => assign_block n_freq n_out (fst t)) tfrs;
               do itc <- (if return_itc
                          then do l <- mapM (fun t =>
                                        match snd t with
                                        | Some a => assign_block n_freq n_out a
                                        | None => Ok (Arr2 n_freq n_out [])
                                        end) tfrs;
                               Ok (Some l)
                          else Ok None);
               Ok (psd, itc, py_slice1 freqs (Z.of_nat start_f) (Z.of_nat stop_f)))).
  { unfold run, _induced_power_stockwell. rewrite Hm. cbn [bind].
    rewrite Hck. cbn [bind]. rewrite Hfreqs. cbn [bind].
    rewrite Hstart. cbn [bind]. rewrite Hstop. cbn [bind].
    rewrite HW. cbn [bind]. reflexivity. }
  rewrite Hrun. split.
  - intros Hlt. unfold check_extent.
    destruct (Z.of_nat stop_f - Z.of_nat start_f <? 0)%Z eqn:E;
      [reflexivity | apply Z.ltb_ge in E; lia].
  - intros Hle. unfold check_extent at 1.
    destruct (Z.of_nat stop_f - Z.of_nat start_f <? 0)%Z eqn:E;
      [apply Z.ltb_lt in E; lia |].
    cbn [bind]. rewrite Hm'. cbn [bind]. fold n_out.
    replace (Z.to_nat (Z.of_nat stop_f - Z.of_nat start_f))
      with (stop_f - start_f)%nat by lia.
    set (n_freq := (stop_f - start_f)%nat) in *.
    set (P := fun t : array2 R * option (array2 R) =>
                shaped n_freq n_out (fst t) /\
                if return_itc
                then exists a, snd t = Some a /\ shaped n_freq n_out a
                else snd t = None).
    assert (Hworker : forall c, exists t,
              _st_power_itc (channel_slice padded c) start_f return_itc
                            zero_pad decim W = Ok t /\ P t).
    { intros c.
      destruct (StockwellPadded.st_power_itc_total (channel_slice padded c)
                  start_f return_itc zero_pad decim W Hd)
        as (psd & itc & Hr & Hsh & _ & Hitc).
      - unfold channel_slice. cbn [ncols]. lia.
      - exact HWall.
      - unfold channel_slice. cbn [ncols]. lia.
      - unfold channel_slice in Hsh, Hitc. cbn [ncols] in Hsh, Hitc.
        rewrite HWlen in Hsh, Hitc.
        replace (dim2 padded - Z.to_nat zero_pad)%nat with (dim2 data)
          in Hsh, Hitc by lia.
        exists (psd, itc). split; [exact Hr |]. split; [exact Hsh |].
        cbn [snd]. destruct return_itc; [| exact Hitc].
        destruct Hitc as (a & -> & Ha & _). eauto. }
    match goal with |- context [mapM ?g (seq 0 (dim1 data))] =>
      destruct (mapM_all_Ok g (seq 0 (dim1 data))) as [tfrs Htfrs]
    end.
    { intros c _. destruct (Hworker c) as (t & Ht & _). eauto. }
    rewrite Htfrs. cbn [bind].
    assert (HP : Forall P tfrs).
    { eapply mapM_Ok_Forall; [| exact Htfrs]. intros c t Ht. cbv beta in Ht.
      destruct (Hworker c) as (t' & Ht' & HPt).
      assert (E' : Ok t' = Ok t) by (rewrite <- Ht'; exact Ht).
      now injection E' as <-. }
    pose proof (mapM_Ok_length _ _ _ Htfrs) as Hlt. rewrite length_seq in Hlt.
    rewrite List.Forall_forall in HP.
    assert (Hblock : forall a : array2 R, shaped n_freq n_out a ->
              assign_block n_freq n_out a = Ok a).
    { intros a (Hr & Hc & _). unfold assign_block.
      now rewrite Hr, Hc, !Nat.eqb_refl. }
    rewrite (mapM_total _ fst)
      by (intros t Ht; apply Hblock; now destruct (HP t Ht)).
    cbn [bind].
    assert (Hpsd : Forall (shaped n_freq n_out) (map fst tfrs)).
    { apply List.Forall_forall. intros a Ha.
      apply in_map_iff in Ha as (t & <- & Ht). now destruct (HP t Ht). }
    assert (Hfl : length (py_slice1 freqs (Z.of_nat start_f) (Z.of_nat stop_f))
                  = n_freq).
    { rewrite length_py_slice1 by lia. unfold n_freq. lia. }
    destruct return_itc.
    + rewrite (mapM_total _ (fun t => match snd t with
                                      | Some a => a
                                      | None => Arr2 n_freq n_out []
                                      end)).
      * cbn [bind]. eexists _, _. split; [reflexivity |].
        split; [exact Hfl |].
        split; [now rewrite length_map |]. split; [exact Hpsd |].
        eexists. split; [reflexivity |]. split; [now rewrite length_map |].
        apply List.Forall_forall. intros a Ha.
        apply in_map_iff in Ha as (t & <- & Ht).
        destruct (HP t Ht) as (_ & a & -> & Hsa). exact Hsa.
      * intros t Ht. destruct (HP t Ht) as (_ & a & -> & Hsa).
        now apply Hblock.
    + cbn [bind]. eexists _, _. split; [reflexivity |].
      split; [exact Hfl |].
      split; [now rewrite length_map |]. split; [exact Hpsd | reflexivity].
Qed.

Lemma induced_power_stockwell_returns_witness :
  exists freqs start_f stop_f,
    fftfreq (Z.to_nat 8) (1 / 100) = Ok freqs /\
    argmin (map (fun f => Rabs (f - 10)) freqs) = Ok start_f /\
    argmin (map (fun f => Rabs (f - 40)) freqs) = Ok stop_f /\
    ((stop_f < start_f)%nat ->
     _induced_power_stockwell sequential_pool five 100 (Some 10) (Some 40)
                              None 1 1 false 1
     = Raise (ValueError "negative dimensions are not allowed")).
Proof.
  destruct (induced_power_stockwell_returns sequential_pool five 100 10 40 None
              1 1 false (zero_pad_last five 3) 8 3)
    as (freqs & start_f & stop_f & H1 & H2 & H3 & H4 & _).
  - lia.
  - lra.
  - lra.
  - split; [reflexivity | repeat constructor].
  - unfold five, dim0; simpl; lia.
  - reflexivity.
  - exists freqs, start_f, stop_f.
    split; [exact H1 | split; [exact H2 | split; [exact H3 | exact H4]]].
Defined.

End StockwellPipeline.

(** ** Induced power over channels *)

Module InducedPower.
Import Tfr ReductionFacts.

Lemma decimated_extent_kept (n_times : nat) (decim : Z) :
  (0 < decim)%Z -> decimated_extent n_times decim = Ok (kept n_times decim).
Proof.
  intros Hd. unfold decimated_extent. rewrite py_slice_stride by exact Hd.
  cbn [bind]. unfold stride. now rewrite length_map, !length_seq.
Qed.

Lemma morlet_bank_fits (sfreq : R) (freqs n_cycles : list R)
  (zero_mean : bool) (n : nat) :
  ~ cycles_mismatch freqs n_cycles -> freqs <> [] ->
  (forall k f, nth_error freqs k = Some f ->
     (1 <= support sfreq f (this_n_cycles n_cycles k) None)%nat /\
     (2 * support sfreq f (this_n_cycles n_cycles k) None - 1 <= n)%nat) ->
  exists Ws,
    morlet sfreq freqs n_cycles None zero_mean None = Ok Ws /\
    length Ws = length freqs /\ Ws <> [] /\
    Forall (fun W => (1 <= length W <= n)%nat) Ws.
Proof.
  intros Hm Hne Hsup. unfold morlet.
  destruct (negb (length n_cycles =? 1)%nat
            && negb (length n_cycles =? length freqs)%nat) eqn:Ec.
  { exfalso. apply Hm. apply andb_true_iff in Ec as [E1 E2].
    apply negb_true_iff, Nat.eqb_neq in E1, E2. now split. }
  eexists. split; [reflexivity |].
  assert (Hlen : forall g : nat * R -> list C,
            length (map g (combine (seq 0 (length freqs)) freqs)) = length freqs)
    by (intros; now rewrite length_map, length_combine, length_seq, Nat.min_id).
  split; [apply Hlen |]. split.
  - intros E. apply (f_equal (@length _)) in E. rewrite Hlen in E.
    destruct freqs; [congruence | discriminate].
  - apply List.Forall_forall. intros W HinW.
    apply in_map_iff in HinW as ([k f] & <- & Hin).
    apply In_nth_error in Hin as [i Hi].
    assert (Hlt : (i < length freqs)%nat).
    { assert (Hs : nth_error (combine (seq 0 (length freqs)) freqs) i <> None)
        by (rewrite Hi; discriminate).
      apply nth_error_Some in Hs.
      now rewrite length_combine, length_seq, Nat.min_id in Hs. }
    destruct (nth_error freqs i) as [f0|] eqn:Ef;
      [| apply nth_error_None in Ef; lia].
    rewrite (nth_error_enumerate _ _ _ Ef) in Hi. injection Hi as <- <-.
    destruct (Hsup i f0 Ef) as [H1 H2].
    rewrite BuilderExtras.length_normalize, BuilderExtras.length_morlet_raw. lia.
Qed.

Lemma channel_slice_wf (data : array3) (c : nat) :
  wf_array3 data -> (c < dim1 data)%nat ->
  length (rows (channel_slice data c)) = nrows (channel_slice data c) /\
  Forall (fun x => length x = ncols (channel_slice data c))
         (rows (channel_slice data c)).
Proof.
  intros [W0 W1] Hc. unfold channel_slice. cbn [rows nrows ncols].
  split; [now rewrite length_map |].
  apply List.Forall_forall. intros x Hx.
  apply in_map_iff in Hx as (m & <- & Hm).
  rewrite List.Forall_forall in W1. destruct (W1 m Hm) as [Lm Fm].
  rewrite List.Forall_forall in Fm. apply Fm, nth_In. lia.
Qed.

(** X29: with one worker, a positive decimation factor, a well-formed batch
    of at least one epoch, a positive sampling rate, positive frequencies,
    cycle counts that fit the frequencies, at least
    one frequency and wavelets that are not empty and not longer than the
    signals, [_induced_power_cwt] returns one power array and one
    phase-locking array per channel, each of one row per frequency and
    [n_times // decim + bool(n_times % decim)] columns, and no power is
    negative. *)
Theorem induced_power_cwt_returns (pool : pool_t) (data : array3) (sfreq : R)
  (frequencies : list R) (use_fft : bool) (n_cycles : list R) (decim : Z)
  (zero_mean : bool) :
  (0 < decim)%Z -> wf_array3 data -> (1 <= dim0 data)%nat ->
  0 < sfreq -> Forall (fun f => 0 < f) frequencies ->
  ~ cycles_mismatch frequencies n_cycles -> frequencies <> [] ->
  (forall k f, nth_error frequencies k = Some f ->
     (1 <= support sfreq f (this_n_cycles n_cycles k) None)%nat /\
     (2 * support sfreq f (this_n_cycles n_cycles k) None - 1 <= dim2 data)%nat) ->
  let n_out := kept (dim2 data) decim in
  exists psd plf,
    _induced_power_cwt pool data sfreq frequencies use_fft n_cycles decim 1
                       zero_mean = Ok (psd, plf) /\
    length psd = dim1 data /\ length plf = dim1 data /\
    Forall (fun a => shaped (length frequencies) n_out a /\
                     forall i j, (i < length frequencies)%nat ->
                                 (j < n_out)%nat -> 0 <= get2 0 a i j) psd /\
    Forall (shaped (length frequencies) n_out) plf.
Proof.
  intros Hd Hwf Hne _ _ Hm Hfne Hsup n_out.
  set (good := fun a : array2 R =>
                 shaped (length frequencies) n_out a /\
                 forall i j, (i < length frequencies)%nat -> (j < n_out)%nat ->
                             0 <= get2 0 a i j).
  unfold _induced_power_cwt.
  rewrite decimated_extent_kept by exact Hd. cbn [bind]. fold n_out.
  destruct (morlet_bank_fits sfreq frequencies n_cycles zero_mean (dim2 data)
              Hm Hfne Hsup) as (Ws & -> & HlenWs & HWne & HW).
  cbn [bind]. unfold parallel_func. rewrite Z.eqb_refl.
  set (P := fun t : array2 R * array2 R => good (fst t) /\ good (snd t)).
  assert (Hchan : forall c, In c (seq 0 (dim1 data)) -> exists t,
            _time_frequency (channel_slice data c) Ws use_fft decim = Ok t /\ P t).
  { intros c Hc. apply in_seq in Hc.
    destruct (channel_slice_wf data c Hwf ltac:(lia)) as [Hl HX].
    destruct (EngineExtras.time_frequency_total (channel_slice data c) Ws
                use_fft decim Hd Hl Hne HX HWne HW)
      as (psd & plf & Hr & Hp & Hq & Hpos).
    unfold channel_slice in Hp, Hq, Hpos. cbn [ncols] in Hp, Hq, Hpos.
    rewrite HlenWs in Hp, Hq, Hpos. fold n_out in Hp, Hq, Hpos.
    exists (psd, plf). split; [exact Hr |]. split; cbn [fst snd].
    - split; [exact Hp |]. intros i j Hi Hj. now apply Hpos.
    - split; [exact Hq |]. intros i j Hi Hj. now apply Hpos. }
  match goal with |- context [mapM ?g (seq 0 (dim1 data))] =>
    destruct (mapM_all_Ok g (seq 0 (dim1 data))) as [psd_plf Hpp]
  end.
  { intros c Hc. destruct (Hchan c Hc) as (t & Ht & _). eauto. }
  rewrite Hpp. cbn [bind].
  assert (HP : Forall P psd_plf).
  { eapply StockwellPadded.mapM_Ok_Forall_In; [| exact Hpp].
    intros c t Hc Ht. cbv beta in Ht.
    destruct (Hchan c Hc) as (t' & Ht' & HPt).
    assert (E : Ok t' = Ok t) by (rewrite <- Ht'; exact Ht).
    now injection E as <-. }
  pose proof (mapM_Ok_length _ _ _ Hpp) as Hlen. rewrite length_seq in Hlen.
  rewrite List.Forall_forall in HP.
  rewrite (mapM_total _ (fun t => t)).
  - cbn [bind]. rewrite map_id. eexists _, _. split; [reflexivity |].
    split; [now rewrite length_map |]. split; [now rewrite length_map |].
    split; apply List.Forall_forall; intros a Ha;
      apply in_map_iff in Ha as (t & <- & Ht);
      destruct (HP t Ht) as [Hg1 Hg2]; [exact Hg1 | exact (proj1 Hg2)].
  - intros [p q] Ht. destruct (HP _ Ht) as [[(Hr & Hc & _) _] [(Hr' & Hc' & _) _]].
    cbn [fst snd] in *. unfold assign_block.
    now rewrite Hr, Hc, Hr', Hc', !Nat.eqb_refl.
Qed.

Lemma induced_power_cwt_returns_witness :
  exists psd plf,
    _induced_power_cwt sequential_pool (Arr3 (1, 1, 3)%nat [[[1; 2; 3]]]) 1 [1]
                       false [1] 2 1 false = Ok (psd, plf) /\
    length psd = 1%nat.
Proof.
  destruct (induced_power_cwt_returns sequential_pool
              (Arr3 (1, 1, 3)%nat [[[1; 2; 3]]]) 1 [1] false [1] 2 false)
    as (psd & plf & H & Hl & _).
  - lia.
  - split; [reflexivity | repeat constructor].
  - unfold dim0; simpl; lia.
  - lra.
  - repeat constructor; lra.
  - unfold cycles_mismatch. simpl. intros [H _]. now apply H.
  - discriminate.
  - intros [|k] f Hk; [| destruct k; discriminate].
    injection Hk as <-. unfold this_n_cycles. cbn [length Nat.eqb negb nth].
    rewrite EngineExtras.support_one. unfold dim2; simpl; lia.
  - exists psd, plf. split; [exact H | exact Hl].
Defined.

End InducedPower.

(** ** The transform and its power *)

Module StockwellTransform.
Import Stockwell ReductionFacts.

Lemma length_map2_bcast_same {A B D} (f : A -> B -> D) (a : list A) (b : list B) :
  length b = length a -> length (map2_bcast f a b) = length a.
Proof.
  intros H.
  assert (E : map2_bcast f a b = zip_with f a b).
  { destruct a as [|u [|u' a]], b as [|v [|v' b]]; simpl in H;
      try discriminate; reflexivity. }
  rewrite E. now apply length_zip_with_same.
Qed.

(** [l[:-zero_pad:decim]], entry by entry. *)
Lemma py_slice_drop_tail_entries {T} (d : T) (l : list T) (zero_pad decim : Z) :
  (0 < decim)%Z -> (0 < zero_pad <= Z.of_nat (length l))%Z ->
  py_slice d l None (Some (- zero_pad)%Z) decim
  = Ok (map (fun i => nth (Z.to_nat (Z.of_nat i * decim)) l d)
            (seq 0 (kept (length l - Z.to_nat zero_pad) decim))).
Proof.
  intros Hd Hz. unfold py_slice, adjust_index.
  destruct (decim =? 0)%Z eqn:E0; [apply Z.eqb_eq in E0; lia |].
  destruct (decim <? 0)%Z eqn:E1; [apply Z.ltb_lt in E1; lia |].
  destruct (- zero_pad <? 0)%Z eqn:E2; [| apply Z.ltb_ge in E2; lia].
  destruct (- zero_pad + Z.of_nat (length l) <? 0)%Z eqn:E3;
    [apply Z.ltb_lt in E3; lia |].
  replace (- zero_pad + Z.of_nat (length l))%Z
    with (Z.of_nat (length l - Z.to_nat zero_pad)) by lia.
  rewrite slice_count_kept by exact Hd. reflexivity.
Qed.

Lemma length_st_row (n_samp f : nat) (w xx : list C) :
  (f <= n_samp)%nat -> length w = n_samp -> length xx = (2 * n_samp)%nat ->
  length (st_row n_samp f w xx) = n_samp.
Proof.
  intros Hf Hw Hxx. unfold st_row. rewrite length_ifft.
  assert (Hs : length (py_slice1 xx (Z.of_nat f) (Z.of_nat (f + n_samp))) = n_samp)
    by (rewrite length_py_slice1; lia).
  rewrite length_map2_bcast_same; lia.
Qed.

Lemma st_bin_entries (XX : list (list C)) (n_samp : nat) (zero_pad decim : Z)
  (compute_itc : bool) (f : nat) (w : list C) :
  (0 < decim)%Z -> (0 < zero_pad <= Z.of_nat n_samp)%Z ->
  (f <= n_samp)%nat -> length w = n_samp ->
  Forall (fun xx => length xx = (2 * n_samp)%nat) XX ->
  exists i,
    st_bin XX n_samp zero_pad decim compute_itc f w
    = Ok (map (fun j =>
                 Rmean (map (fun xx =>
                               let c := nth (Z.to_nat (Z.of_nat j * decim))
                                            (st_row n_samp f w xx) C0 in
                               Cabs c * Cabs c) XX))
              (seq 0 (kept (n_samp - Z.to_nat zero_pad) decim)), i).
Proof.
  intros Hd Hz Hf Hw HXX. unfold st_bin.
  rewrite length_py_slice1 by (rewrite ?repeat_length; lia).
  replace (Z.to_nat (Z.of_nat (f + n_samp) - Z.of_nat f)) with n_samp by lia.
  rewrite Hw. unfold broadcast_extent. rewrite Nat.eqb_refl. cbn [bind].
  rewrite py_slice_drop_tail_entries by (rewrite ?length_seq; lia).
  rewrite length_seq. cbn [bind].
  set (n_out := kept (n_samp - Z.to_nat zero_pad) decim).
  fold (st_row n_samp f w).
  rewrite (mapM_total _ (fun st => map (fun i => nth (Z.to_nat (Z.of_nat i * decim))
                                                     st C0) (seq 0 n_out))).
  - cbn [bind]. rewrite length_map, length_seq. eexists. f_equal. f_equal.
    apply map_ext_in. intros j Hj. apply in_seq in Hj. f_equal.
    unfold column. rewrite !map_map. apply map_ext. intros xx.
    rewrite !map_map. now rewrite (nth_map_seq _ n_out j 0) by lia.
  - intros st Hst. apply in_map_iff in Hst as (xx & <- & Hxx).
    rewrite List.Forall_forall in HXX.
    rewrite py_slice_drop_tail_entries;
      rewrite ?length_st_row by auto; auto; lia.
Qed.

(** X30: the power that [_st_power_itc] returns is the transform that
    [_st] returns, squared in magnitude and averaged over the trials, at
    the samples that the decimation keeps before the padding.  The signals
    are padded, well-formed and at least one; the windows have the length
    of the signals and the bins stay below the number of samples. *)
Theorem st_power_is_mean_square (x : array2 R) (start_f : nat)
  (compute_itc : bool) (zero_pad decim : Z) (W : list (list C)) :
  (0 < decim)%Z -> (0 < zero_pad <= Z.of_nat (ncols x))%Z ->
  rows x <> [] -> Forall (fun r => length r = ncols x) (rows x) ->
  Forall (fun w => length w = ncols x) W ->
  (start_f + length W <= ncols x)%nat ->
  let n_out := kept (ncols x - Z.to_nat zero_pad) decim in
  exists sts psd itc,
    _st x start_f W = Ok sts /\ length sts = length (rows x) /\
    _st_power_itc x start_f compute_itc zero_pad decim W = Ok (psd, itc) /\
    forall i j, (i < length W)%nat -> (j < n_out)%nat ->
      get2 0 psd i j
      = Rmean (map (fun st => Cabs (coef decim st i j) * Cabs (coef decim st i j))
                   sts).
Proof.
  intros Hd Hz _ HX HW Hf n_out.
  set (n := ncols x) in *.
  set (XX := map (fun r => r ++ r) (map (fun r => fft (map RtoC r)) (rows x))).
  assert (HXX : Forall (fun xx => length xx = (2 * n)%nat) XX).
  { apply List.Forall_forall. intros xx Hxx. unfold XX in Hxx.
    apply in_map_iff in Hxx as (r & <- & Hr).
    apply in_map_iff in Hr as (r0 & <- & Hr0).
    rewrite List.Forall_forall in HX.
    unfold fft. rewrite length_app, length_dft, length_map, (HX r0 Hr0). lia. }
  assert (HlenXX : length XX = length (rows x))
    by (unfold XX; now rewrite !length_map).
  rewrite List.Forall_forall in HW.
  assert (Hin : forall i_f w, In (i_f, w) (combine (seq 0 (length W)) W) ->
            (start_f + i_f <= n)%nat /\ length w = n).
  { intros i_f w H. pose proof (in_combine_l _ _ _ _ H) as Hi.
    apply in_seq in Hi. split; [lia |]. apply HW. eapply in_combine_r; eauto. }
  (* the transform *)
  set (PW := map (fun '(i_f, w) => map (st_row n (start_f + i_f) w) XX)
                 (combine (seq 0 (length W)) W)).
  assert (Hst : _st x start_f W
                = Ok (map (fun k => Arr2 (length W) n
                                         (map (fun per_trial => nth k per_trial [])
                                              PW))
                          (seq 0 (length (rows x))))).
  { unfold _st. fold n XX.
    rewrite (mapM_total _ (fun '(i_f, w) => map (st_row n (start_f + i_f) w) XX)).
    - reflexivity.
    - intros [i_f w] H. destruct (Hin i_f w H) as [Hfi Hw].
      rewrite length_py_slice1 by (rewrite ?repeat_length; lia).
      replace (Z.to_nat (Z.of_nat (start_f + i_f + n) - Z.of_nat (start_f + i_f)))
        with n by lia.
      rewrite Hw. unfold broadcast_extent. rewrite Nat.eqb_refl. cbn [bind].
      apply mapM_total. intros xx Hxx. fold (st_row n (start_f + i_f) w xx).
      apply EngineRuns.assign_row_same.
      rewrite List.Forall_forall in HXX. apply length_st_row; auto. }
  (* the power *)
  destruct (decim_len_extent (n - Z.to_nat zero_pad) decim Hd) as (m & Hm & Hm').
  set (prow := fun (i_f : nat) (w : list C) =>
                 map (fun j =>
                        Rmean (map (fun xx =>
                                      let c := nth (Z.to_nat (Z.of_nat j * decim))
                                                   (st_row n (start_f + i_f) w xx)
                                                   C0 in
                                      Cabs c * Cabs c) XX))
                     (seq 0 n_out)).
  assert (Hbody : forall a, In a (combine (seq 0 (length W)) W) ->
            exists b,
              (let '(i_f, window) := a in
               do '(p, i) <- st_bin XX n zero_pad decim compute_itc
                                    (start_f + i_f) window;
               do p' <- assign_row n_out p;
               do i' <- match i with
                        | Some v => do v' <- assign_row n_out v; Ok (Some v')
                        | None => Ok None
                        end;
               Ok (p', i')) = Ok b /\ fst b = prow (fst a) (snd a)).
  { intros [i_f w] H. destruct (Hin i_f w H) as [Hfi Hw].
    destruct (StockwellPadded.st_bin_padded XX n zero_pad decim compute_itc
                (start_f + i_f) w Hd Hz Hfi Hw) as (p & i & Hb & Hp & _ & Hi).
    destruct (st_bin_entries XX n zero_pad decim compute_itc (start_f + i_f) w
                Hd Hz Hfi Hw HXX) as (i0 & Hb').
    rewrite Hb in Hb'. injection Hb' as Hpe _.
    rewrite Hb. cbn [bind]. fold n_out in Hp, Hi.
    rewrite (EngineRuns.assign_row_same n_out p Hp). cbn [bind].
    destruct i as [v|].
    - destruct Hi as (_ & Hv & _).
      rewrite (EngineRuns.assign_row_same n_out v Hv). cbn [bind].
      eexists. split; [reflexivity |]. exact Hpe.
    - eexists. split; [reflexivity |]. exact Hpe. }
  assert (Hpow : exists (bins : list (list R * option (list R))) itc,
            _st_power_itc x start_f compute_itc zero_pad decim W
            = Ok (Arr2 (length W) n_out (map fst bins), itc) /\
            forall i w, nth_error W i = Some w ->
                        nth i (map fst bins) [] = prow i w).
  { unfold _st_power_itc. fold n XX.
    replace (Z.of_nat n - zero_pad)%Z
      with (Z.of_nat (n - Z.to_nat zero_pad)) by lia.
    rewrite Hm. cbn [bind]. rewrite Hm'. cbn [bind]. fold n_out.
    match goal with |- context [mapM ?g ?l] =>
      destruct (mapM_all_Ok g l) as [bins Hbins]
    end.
    { intros a Ha. destruct (Hbody a Ha) as (b & Hb & _). eauto. }
    rewrite Hbins. cbn [bind]. eexists _, _. split; [reflexivity |].
    intros i w Hi.
    destruct (mapM_Ok_nth _ _ _ Hbins i (i, w) (nth_error_enumerate _ _ _ Hi))
      as (b & Hnb & Hfb).
    destruct (Hbody (i, w)) as (b' & Hb' & Hfst).
    { eapply nth_error_In. apply nth_error_enumerate. exact Hi. }
    assert (E : Ok b' = Ok b) by (rewrite <- Hb'; exact Hfb).
    injection E as <-.
    rewrite (nth_error_nth (map fst bins) i [] (x := fst b'))
      by (rewrite nth_error_map, Hnb; reflexivity).
    exact Hfst. }
  destruct Hpow as (bins & itc & Hpsd & Hrows).
  eexists _, _, _. split; [exact Hst |].
  split; [now rewrite length_map, length_seq |].
  split; [exact Hpsd |].
  intros i j Hi Hj.
  destruct (nth_error W i) as [w|] eqn:Ew; [| apply nth_error_None in Ew; lia].
  unfold get2 at 1. cbn [rows]. rewrite (Hrows i w Ew). unfold prow.
  rewrite (nth_map_seq _ n_out j 0) by exact Hj.
  f_equal. rewrite map_map, <- HlenXX.
  rewrite <- (StockwellExtras.map_nth_seq XX []) at 1. rewrite map_map.
  apply map_ext_in. intros k Hk. apply in_seq in Hk. cbv zeta.
  assert (Hcoef : coef decim
                    (Arr2 (length W) n (map (fun per_trial => nth k per_trial []) PW))
                    i j
                  = nth (Z.to_nat (Z.of_nat j * decim))
                        (st_row n (start_f + i) w (nth k XX [])) C0).
  { unfold coef, get2. cbn [rows]. f_equal.
    rewrite (nth_error_nth _ i [] (x := nth k (map (st_row n (start_f + i) w) XX) [])).
    - rewrite (nth_indep _ [] (st_row n (start_f + i) w [])) by (rewrite length_map; lia).
      apply map_nth.
    - rewrite nth_error_map. unfold PW.
      rewrite nth_error_map, (nth_error_enumerate _ _ _ Ew). reflexivity. }
  now rewrite Hcoef.
Qed.

Lemma st_power_is_mean_square_witness :
  exists sts psd itc,
    _st (Arr2 1 4 [[1; 2; 3; 0]]) 0 [[RtoC 1; RtoC 1; RtoC 1; RtoC 1]] = Ok sts /\
    length sts = 1%nat /\
    _st_power_itc (Arr2 1 4 [[1; 2; 3; 0]]) 0 false 1 2
                  [[RtoC 1; RtoC 1; RtoC 1; RtoC 1]] = Ok (psd, itc).
Proof.
  destruct (st_power_is_mean_square (Arr2 1 4 [[1; 2; 3; 0]]) 0 false 1 2
              [[RtoC 1; RtoC 1; RtoC 1; RtoC 1]])
    as (sts & psd & itc & H1 & H2 & H3 & _).
  - lia.
  - simpl; lia.
  - discriminate.
  - repeat constructor.
  - repeat constructor.
  - simpl; lia.
  - exists sts, psd, itc. split; [exact H1 | split; [exact H2 | exact H3]].
Defined.

End StockwellTransform.

(** ** A run of [single_trial_power] with one and with four workers *)

Module WorkerRuns.
Import Tfr ShapeFacts ReductionFacts.

Lemma cwt_same_total (X : array2 R) (Ws : list (list C)) (use_fft : bool)
  (decim : Z) :
  (0 < decim)%Z -> Ws <> [] ->
  Forall (fun W => (1 <= length W <= ncols X)%nat) Ws ->
  Forall (fun x => length x = ncols X) (rows X) ->
  exists tfrs, cwt X Ws use_fft Same decim = Ok tfrs.
Proof.
  intros Hd Hne HW HX.
  pose proof (EngineRuns.engine_same_runs use_fft X Ws Hne HW HX) as Hrun.
  unfold cwt. rewrite EngineExtras.decimate_stride by exact Hd. cbn [bind ncols].
  fold (engine use_fft X Ws). unfold consume.
  rewrite (EngineExtras.fold_collect _
             (fun tfr => Arr2 (length Ws) (kept (ncols X) decim)
                              (map (stride C0 decim) (rows tfr)))).
  - cbn [bind app]. rewrite Hrun. eauto.
  - intros acc tfr Hin.
    destruct (engine_shaped use_fft X Ws tfr Hin) as (Hr & Hc & _).
    rewrite EngineExtras.decimate_stride by exact Hd. cbn [bind].
    destruct tfr as [r c rs]. cbn [nrows ncols rows] in *. subst r c.
    unfold assign_block. cbn [nrows ncols]. rewrite !Nat.eqb_refl.
    reflexivity.
Qed.

Lemma single_trial_power_sequential_run :
  exists power,
    single_trial_power unit unit no_rescale sequential_pool tiny 1 [1] false
                       [1] tt tt None 1 1 true None = Ok power /\
    length power = 1%nat.
Proof.
  unfold single_trial_power.
  rewrite InducedPower.decimated_extent_kept by lia. cbn [bind].
  assert (Hm : morlet 1 [1] [1] None true None
               = Ok [normalize (morlet_raw 1 1 1 None true)]) by reflexivity.
  rewrite Hm. cbn [bind]. rewrite Z.eqb_refl.
  destruct (cwt_same_total (Arr2 1 4 [[1; 2; 3; 4]])
              [normalize (morlet_raw 1 1 1 None true)] false 1)
    as [tfrs Htfrs].
  - lia.
  - discriminate.
  - constructor; [| constructor].
    rewrite BuilderExtras.length_normalize, BuilderExtras.length_morlet_raw,
      EngineExtras.support_one. simpl; lia.
  - repeat constructor.
  - change (epochs_of tiny) with [Arr2 1 4 [[1; 2; 3; 4]]].
    cbn [mapM]. rewrite Htfrs. cbn [bind]. unfold no_rescale.
    eexists. split; reflexivity.
Qed.

Lemma worker_count_invariance_witness :
  exists power,
    single_trial_power unit unit no_rescale sequential_pool tiny 1 [1] false
                       [1] tt tt None 1 4 true None = Ok power /\
    single_trial_power unit unit no_rescale sequential_pool tiny 1 [1] false
                       [1] tt tt None 1 1 true None = Ok power /\
    length power = 1%nat.
Proof.
  destruct single_trial_power_sequential_run as (power & Hseq & Hlen).
  exists power.
  destruct (WorkerFacts.worker_count_invariance sequential_pool
              (fun A B n f l => same_outcome_refl (mapM f l))
              unit unit no_rescale 4) as [H _].
  specialize (H tiny 1 [1] false [1] tt tt None 1%Z true None).
  rewrite Hseq in H.
  destruct (single_trial_power unit unit no_rescale sequential_pool tiny 1 [1]
              false [1] tt tt None 1 4 true None) as [p | e].
  - simpl in H. subst p. split; [reflexivity | split; [exact Hseq | exact Hlen]].
  - destruct H.
Defined.

End WorkerRuns.
